(** * Dr. Memory: the allocator-aware shadow-memory coordinator

    A shallow embedding of [drmemory/alloc_drmem.c]: the delayed-free
    quarantine, the anonymous-mmap tracker and the mmap handlers, the
    shared-callstack table, the realloc shadow update, the Linux
    signal-frame tracking, the Windows marking of kernel-placed stack
    data and the exception patterns for unaddressable accesses,
    followed by the properties established about them.

    Conventions.  An [app_pc] (a [byte *]) and a [size_t] are integers in
    [Z]; [NULL] is [0].  Pointer arithmetic is written as integer
    arithmetic: the addresses the handlers receive delimit ranges inside
    the address space, where [base + size] does not wrap.  An [ASSERT] is
    a no-op (release build); where one documents a precondition the
    comment of the embedding says so.  Logging, statistics counters and
    the mutexes around the global structures are not represented: every
    function below is the body executed under its lock. *)

From Stdlib Require Import ZArith List Bool Lia.
From stdpp Require Import base list gmap strings.
Import ListNotations.

Local Open Scope Z_scope.

(** ** Addresses and options *)

Definition app_pc := Z.
Definition NULL : app_pc := 0.

(** The fields of the global [options] record that alloc_drmem.c reads.
    [delay_frees] is the capacity of the delayed-free FIFO. *)
Record options_t := {
  redzone_size : Z;
  leaks_only : bool;
  shadowing : bool;
  delay_frees : Z;
  stack_swap_threshold : Z;
  warn_null_ptr : bool
}.

(** The guard [!options.leaks_only && options.shadowing]. *)
Definition shadow_on (options : options_t) : bool :=
  negb (leaks_only options) && shadowing options.

(** ** Shadow memory *)

Inductive shadow_tag :=
| SHADOW_UNADDRESSABLE
| SHADOW_UNDEFINED
| SHADOW_DEFINED
| SHADOW_UNKNOWN.

(** One tag per application byte. *)
Definition shadow_t := app_pc -> shadow_tag.

(** Modelled from the spec: shadow.c is not part of the sources at hand.
    [set_range(lo, hi, tag)] overwrites the tags of [lo, hi). *)
Definition shadow_set_range (s : shadow_t) (lo hi : app_pc) (val : shadow_tag)
  : shadow_t :=
  fun a => if (lo <=? a) && (a <? hi) then val else s a.

(** Modelled from the spec: [copy_range(src, dst, n)] moves the [n] tags
    at [src] to [dst], keeping relative positions also when the two
    ranges overlap. *)
Definition shadow_copy_range (s : shadow_t) (old new : app_pc) (n : Z)
  : shadow_t :=
  fun a => if (new <=? a) && (a <? new + n) then s (a - new + old) else s a.

(** Modelled from the spec: [set(addr, tag)]. *)
Definition shadow_set_byte (s : shadow_t) (addr : app_pc) (val : shadow_tag)
  : shadow_t :=
  fun a => if a =? addr then val else s a.

(** ** The interval tree of redblack.c *)

Module RB.

(** A node: [(base, size, payload)].  The payload is a [void *]. *)
Record rb_node_t := mk_node { base : app_pc; size : Z; client : Z }.

Definition node_eqb (m n : rb_node_t) : bool :=
  (base m =? base n) && (size m =? size n) && (client m =? client n).

(** Modelled from the spec: redblack.c is not part of the sources at
    hand.  The tree is the list of its nodes in increasing order of
    their low endpoint; balancing is not represented. *)
Definition rb_tree_t := list rb_node_t.

Definition rb_tree_create : rb_tree_t := [].

(** Modelled from the spec: the test that makes an insertion give way
    to an existing node.  The merging use of the tree coalesces a new
    range with an overlapping or adjacent node, so a node that touches
    [base, base+size) is reported as well. *)
Definition conflicts (b s : Z) (n : rb_node_t) : bool :=
  (base n <=? b + s) && (b <=? base n + size n).

(** Modelled from the spec: a node overlaps [lo, hi) when they share a
    byte. *)
Definition overlaps (lo hi : app_pc) (n : rb_node_t) : bool :=
  (base n <? hi) && (lo <? base n + size n).

(** Ordered insertion by low endpoint. *)
Fixpoint rb_place (n : rb_node_t) (t : rb_tree_t) : rb_tree_t :=
  match t with
  | [] => [n]
  | m :: t' => if base n <? base m then n :: m :: t' else m :: rb_place n t'
  end.

(** Modelled from the spec: [rb_insert] returns the existing node that
    is in the way, leaving the tree as it is, or adds the node and
    returns NULL ([None]). *)
Definition rb_insert (t : rb_tree_t) (b : app_pc) (s : Z) (c : Z)
  : option rb_node_t * rb_tree_t :=
  match List.find (conflicts b s) t with
  | Some n => (Some n, t)
  | None => (None, rb_place (mk_node b s c) t)
  end.

(** Modelled from the spec: [rb_delete] unlinks the given node. *)
Fixpoint rb_delete (t : rb_tree_t) (n : rb_node_t) : rb_tree_t :=
  match t with
  | [] => []
  | m :: t' => if node_eqb m n then t' else m :: rb_delete t' n
  end.

(** Modelled from the spec: [rb_find] is the node that starts at the
    given address. *)
Definition rb_find (t : rb_tree_t) (a : app_pc) : option rb_node_t :=
  List.find (fun n => base n =? a) t.

(** Modelled from the spec: [overlaps(lo, hi)], the first node that
    overlaps [lo, hi). *)
Definition rb_overlaps_node (t : rb_tree_t) (lo hi : app_pc)
  : option rb_node_t :=
  List.find (overlaps lo hi) t.

(** Modelled from the spec: [contains(addr)], the node that holds the
    address. *)
Definition rb_in_node (t : rb_tree_t) (a : app_pc) : option rb_node_t :=
  List.find (fun n => (base n <=? a) && (a <? base n + size n)) t.

Definition rb_node_fields (n : rb_node_t) : app_pc * Z * Z :=
  (base n, size n, client n).

End RB.

Import RB.

(** ** The delayed-free list *)

(** An entry of the FIFO array: the address to pass to free() (it
    includes the redzone) and, on Windows, the heap it belongs to. *)
Record delay_free_t := mk_delay_free { addr : app_pc; heap : app_pc }.

(** The globals [delay_free_list], [delay_free_head], [delay_free_fill]
    and [delay_free_tree].  The array has [options.delay_frees] slots. *)
Record delay_free_state := mk_dfs {
  delay_free_list : list delay_free_t;
  delay_free_head : Z;
  delay_free_fill : Z;
  delay_free_tree : rb_tree_t
}.

(** What the allocator handlers read and write: the shadow memory and
    the delayed-free structures. *)
Record alloc_state := mk_state {
  shadow : shadow_t;
  dfree : delay_free_state
}.

(** [delay_free_list[i]]; the index is in range wherever the handlers
    read, see [dfs_ok]. *)
Definition slot (l : list delay_free_t) (i : Z) : delay_free_t :=
  default (mk_delay_free NULL NULL) (l !! Z.to_nat i).

Definition set_slot (l : list delay_free_t) (i : Z) (e : delay_free_t)
  : list delay_free_t :=
  <[Z.to_nat i := e]> l.

Definition DELAY_FREE_FULL (options : options_t) (q : delay_free_state) : bool :=
  delay_free_fill q =? delay_frees options.

(** [alloc_drmem_init]: the array is allocated, not cleared; [slots] is
    what the fresh memory holds. *)
Definition delay_free_init (slots : list delay_free_t) : delay_free_state :=
  mk_dfs slots 0 0 rb_tree_create.

(** The part of [client_handle_free] under [delay_free_lock]. *)
Definition delay_free_enqueue (options : options_t) (q : delay_free_state)
    (base : app_pc) (size : Z) (real_base : app_pc) (heap_in : app_pc)
  : app_pc * app_pc * delay_free_state :=
  let real_size :=
    if negb (base =? real_base) then size + 2 * redzone_size options
    else size in
  let tree1 :=
    snd (rb_insert (delay_free_tree q) real_base real_size
           (Z.b2z (base =? real_base))) in
  let '(pass_to_free, heap_out, l, head, fill) :=
    if DELAY_FREE_FULL options q then
      let pass_heap := heap (slot (delay_free_list q) (delay_free_head q)) in
      let pass := addr (slot (delay_free_list q) (delay_free_head q)) in
      let l := set_slot (delay_free_list q) (delay_free_head q)
                 (mk_delay_free real_base heap_in) in
      let head := delay_free_head q + 1 in
      let head := if head >=? delay_frees options then 0 else head in
      (pass, pass_heap, l, head, delay_free_fill q)
    else
      let l := set_slot (delay_free_list q) (delay_free_fill q)
                 (mk_delay_free real_base heap_in) in
      (NULL, heap_in, l, delay_free_head q, delay_free_fill q + 1) in
  let tree2 :=
    if negb (pass_to_free =? NULL) then
      match rb_find tree1 pass_to_free with
      | Some node => rb_delete tree1 node
      | None => tree1
      end
    else tree1 in
  (pass_to_free, heap_out, mk_dfs l head fill tree2).

(** [client_handle_free]: returns the value to pass to free(), the heap
    to pass with it (the INOUT parameter of the Windows build) and the
    new state. *)
Definition client_handle_free (options : options_t) (st : alloc_state)
    (base : app_pc) (size : Z) (real_base : app_pc) (heap_in : app_pc)
  : app_pc * app_pc * alloc_state :=
  let sh :=
    if shadow_on options
    then shadow_set_range (shadow st) base (base + size) SHADOW_UNADDRESSABLE
    else shadow st in
  if shadow_on options && (delay_frees options >? 0) then
    let '(pass_to_free, heap_out, q) :=
      delay_free_enqueue options (dfree st) base size real_base heap_in in
    (pass_to_free, heap_out, mk_state sh q)
  else
    (real_base, heap_in, mk_state sh (dfree st)).

(** [client_handle_heap_destroy] (Windows): the sweep
    [for (i = 0; i < delay_free_fill; i++)], with [n] slots left to
    visit from index [i] on. *)
Fixpoint heap_destroy_loop (n : nat) (i : Z) (l : list delay_free_t)
    (t : rb_tree_t) (h : app_pc) : list delay_free_t * rb_tree_t :=
  match n with
  | O => (l, t)
  | S n' =>
      if heap (slot l i) =? h then
        let t1 :=
          match rb_find t (addr (slot l i)) with
          | Some node => rb_delete t node
          | None => t
          end in
        heap_destroy_loop n' (i + 1)
          (set_slot l i (mk_delay_free NULL (heap (slot l i)))) t1 h
      else heap_destroy_loop n' (i + 1) l t h
  end.

Definition client_handle_heap_destroy (q : delay_free_state) (h : app_pc)
  : delay_free_state :=
  let '(l, t) :=
    heap_destroy_loop (Z.to_nat (delay_free_fill q)) 0
      (delay_free_list q) (delay_free_tree q) h in
  mk_dfs l (delay_free_head q) (delay_free_fill q) t.

(** [overlaps_delayed_free]: [Some (free_start, free_end)] when the
    function returns true.  The payload of the node is read back into
    the local [has_redzone]. *)
Definition overlaps_delayed_free (options : options_t) (q : delay_free_state)
    (start end_ : app_pc) : option (app_pc * app_pc) :=
  match rb_overlaps_node (delay_free_tree q) start end_ with
  | Some node =>
      let '(real_base, size, payload) := rb_node_fields node in
      let has_redzone := negb (payload =? 0) in
      if negb has_redzone
         || ((start <? real_base + size - redzone_size options)
             && (end_ >=? real_base + redzone_size options))
      then Some (real_base + redzone_size options,
                 real_base + size - redzone_size options)
      else None
  | None => None
  end.

(** ** The anonymous-mmap table (Linux) *)

Definition mmap_tree_add (t : rb_tree_t) (base : app_pc) (size : Z)
  : rb_tree_t :=
  match rb_insert t base size NULL with
  | (Some node, t0) =>
      let '(merge_base, merge_size, _) := rb_node_fields node in
      let t1 := rb_delete t0 node in
      let merge_end :=
        if base + size >? merge_base + merge_size
        then base + size else merge_base + merge_size in
      let merge_base := if base <? merge_base then base else merge_base in
      snd (rb_insert t1 merge_base (merge_end - merge_base) NULL)
  | (None, t0) => t0
  end.

(** The [while (node != NULL)] loop of [mmap_tree_remove].  Each turn
    unlinks a node that overlaps the range, so [fuel] bounds the turns;
    [None] means the bound was too small. *)
Fixpoint mmap_tree_remove_loop (fuel : nat) (t : rb_tree_t)
    (base : app_pc) (size : Z) (res : bool) : option (bool * rb_tree_t) :=
  match rb_overlaps_node t base (base + size) with
  | None => Some (res, t)
  | Some node =>
      match fuel with
      | O => None
      | S fuel' =>
          let '(node_base, node_size, _) := rb_node_fields node in
          let t1 := rb_delete t node in
          let t2 :=
            if node_base <? base
            then snd (rb_insert t1 node_base (base - node_base) NULL)
            else t1 in
          let t3 :=
            if node_base + node_size >? base + size
            then snd (rb_insert t2 (base + size)
                        ((node_base + node_size) - (base + size)) NULL)
            else t2 in
          mmap_tree_remove_loop fuel' t3 base size true
      end
  end.

Definition mmap_tree_remove (t : rb_tree_t) (base : app_pc) (size : Z)
  : option (bool * rb_tree_t) :=
  mmap_tree_remove_loop (length t) t base size false.

Definition mmap_anon_lookup (t : rb_tree_t) (a : app_pc) : option (app_pc * Z) :=
  match rb_in_node t a with
  | Some node => Some (base node, size node)
  | None => None
  end.

(** The intervals a tree holds, as [(base, size)] pairs in order. *)
Definition intervals (t : rb_tree_t) : list (app_pc * Z) :=
  map (fun n => (base n, size n)) t.

(** ** malloc and realloc *)

Definition client_handle_malloc (options : options_t) (s : shadow_t)
    (base : app_pc) (size : Z) (zeroed : bool) : shadow_t :=
  if shadow_on options then
    shadow_set_range s base (base + size)
      (if zeroed then SHADOW_DEFINED else SHADOW_UNDEFINED)
  else s.

Definition client_handle_realloc (options : options_t) (s : shadow_t)
    (old_base : app_pc) (old_size : Z) (new_base : app_pc) (new_size : Z)
  : shadow_t :=
  if shadow_on options then
    let s1 :=
      if new_size >? old_size then
        shadow_set_range (shadow_copy_range s old_base new_base old_size)
          (new_base + old_size) (new_base + new_size) SHADOW_UNDEFINED
      else shadow_copy_range s old_base new_base new_size in
    let s2 :=
      if new_base >? old_base then
        shadow_set_range s1 old_base
          (if new_base <? old_base + old_size
           then new_base else old_base + old_size)
          SHADOW_UNADDRESSABLE
      else s1 in
    if new_base + new_size <? old_base + old_size then
      let start :=
        if new_base + new_size <? old_base then old_base
        else new_base + new_size in
      shadow_set_range s2 start (old_base + old_size) SHADOW_UNADDRESSABLE
    else s2
  else s.

(** ** The shared-callstack table *)

(** A packed callstack: its frames and its reference count. *)
Record packed_callstack_t := mk_pcs { frames : list Z; refcount : Z }.

(** The tool heap that holds the packed callstacks, by address, and
    [alloc_stack_table]: the entries (key, payload) of a hash table
    whose keys are compared by [packed_callstack_cmp]. *)
Record astack_state := mk_astack {
  pcs_heap : gmap Z packed_callstack_t;
  alloc_stack_table : list (Z * Z)
}.

Definition frames_at (hp : gmap Z packed_callstack_t) (p : Z) : option (list Z) :=
  frames <$> hp !! p.

(** Modelled from the spec: callstack.c is not part of the sources at
    hand.  Two packed callstacks are equal when their contents are. *)
Definition packed_callstack_cmp (hp : gmap Z packed_callstack_t) (p1 p2 : Z)
  : bool :=
  bool_decide (frames_at hp p1 = frames_at hp p2).

(** Modelled from the spec: [packed_callstack_record] builds a callstack
    with one reference at the address [p] the allocator hands out. *)
Definition packed_callstack_record (hp : gmap Z packed_callstack_t) (p : Z)
    (fr : list Z) : gmap Z packed_callstack_t :=
  <[p := mk_pcs fr 1]> hp.

(** Modelled from the spec: [release]; drops one reference, frees the
    storage when none is left, and returns the remaining count. *)
Definition packed_callstack_free (hp : gmap Z packed_callstack_t) (p : Z)
  : Z * gmap Z packed_callstack_t :=
  match hp !! p with
  | Some pcs =>
      let count := refcount pcs - 1 in
      if count =? 0 then (0, delete p hp)
      else (count, <[p := mk_pcs (frames pcs) count]> hp)
  | None => (0, hp)
  end.

(** Modelled from the spec: [add_ref]. *)
Definition packed_callstack_add_ref (hp : gmap Z packed_callstack_t) (p : Z)
  : gmap Z packed_callstack_t :=
  match hp !! p with
  | Some pcs => <[p := mk_pcs (frames pcs) (refcount pcs + 1)]> hp
  | None => hp
  end.

(** Modelled from the spec: hashtable.c is not part of the sources at
    hand.  [hashtable_lookup] returns the payload of the entry whose key
    compares equal, if any. *)
Definition hashtable_lookup (hp : gmap Z packed_callstack_t)
    (table : list (Z * Z)) (key : Z) : option Z :=
  snd <$> List.find (fun e => packed_callstack_cmp hp (fst e) key) table.

(** Modelled from the spec: [hashtable_add] returns false if an equal
    key is already there, and adds the entry otherwise. *)
Definition hashtable_add (hp : gmap Z packed_callstack_t)
    (table : list (Z * Z)) (key payload : Z) : bool * list (Z * Z) :=
  match hashtable_lookup hp table key with
  | Some _ => (false, table)
  | None => (true, (key, payload) :: table)
  end.

Fixpoint table_unlink (hp : gmap Z packed_callstack_t)
    (table : list (Z * Z)) (key : Z) : list (Z * Z) :=
  match table with
  | [] => []
  | e :: table' =>
      if packed_callstack_cmp hp (fst e) key then table'
      else e :: table_unlink hp table' key
  end.

(** [alloc_callstack_free], the table's payload destructor. *)
Definition alloc_callstack_free (hp : gmap Z packed_callstack_t) (p : Z)
  : gmap Z packed_callstack_t :=
  snd (packed_callstack_free hp p).

(** Modelled from the spec: [hashtable_remove] unlinks the entry whose
    key compares equal and hands its payload to the destructor the table
    was created with. *)
Definition hashtable_remove (st : astack_state) (key : Z) : astack_state :=
  match hashtable_lookup (pcs_heap st) (alloc_stack_table st) key with
  | Some payload =>
      mk_astack (alloc_callstack_free (pcs_heap st) payload)
        (table_unlink (pcs_heap st) (alloc_stack_table st) key)
  | None => st
  end.

Definition client_malloc_data_free (st : astack_state) (data : Z)
  : astack_state :=
  let '(count, hp) := packed_callstack_free (pcs_heap st) data in
  let st1 := mk_astack hp (alloc_stack_table st) in
  if count =? 1 then hashtable_remove st1 data else st1.

(** [client_add_malloc_pre].  [fresh] is where the allocator puts the
    callstack that [packed_callstack_record] builds from the machine
    context, and [fr] its frames; both are unused when [existing_data]
    is given. *)
Definition client_add_malloc_pre (st : astack_state) (existing_data : Z)
    (fresh : Z) (fr : list Z) : Z * astack_state :=
  let '(pcs, hp0) :=
    if negb (existing_data =? NULL) then (existing_data, pcs_heap st)
    else (fresh, packed_callstack_record (pcs_heap st) fresh fr) in
  let '(added, table1) := hashtable_add hp0 (alloc_stack_table st) pcs pcs in
  let '(pcs1, hp1) :=
    if added then (pcs, hp0)
    else
      let existing := default NULL (hashtable_lookup hp0 table1 pcs) in
      let hp := if existing_data =? NULL
                then snd (packed_callstack_free hp0 pcs) else hp0 in
      (existing, hp) in
  (pcs1, mk_astack (packed_callstack_add_ref hp1 pcs1) table1).

(** The events the allocation table of alloc.c delivers: a new record
    (with a callstack recorded at [fresh], or with the data of a record
    that exists) and the destruction of a record's data. *)
Inductive alloc_event :=
| EvMalloc (fresh : Z) (fr : list Z)
| EvMallocExisting (data : Z)
| EvFree (data : Z).

(** The callstack table together with the client data held by the live
    records of the allocation table. *)
Record world := mk_world { astack : astack_state; records : list Z }.

Fixpoint remove_one (d : Z) (l : list Z) : list Z :=
  match l with
  | [] => []
  | x :: l' => if x =? d then l' else x :: remove_one d l'
  end.

Definition handle_event (w : world) (ev : alloc_event) : world :=
  match ev with
  | EvMalloc fresh fr =>
      let '(data, st) := client_add_malloc_pre (astack w) NULL fresh fr in
      mk_world st (data :: records w)
  | EvMallocExisting d =>
      let '(data, st) := client_add_malloc_pre (astack w) d NULL [] in
      mk_world st (data :: records w)
  | EvFree d =>
      mk_world (client_malloc_data_free (astack w) d) (remove_one d (records w))
  end.

(** What alloc.c and the allocator guarantee of an event: a recorded
    callstack is placed at a non-NULL address that is not in use, and
    data passed back belongs to a live record. *)
Definition event_ok (w : world) (ev : alloc_event) : Prop :=
  match ev with
  | EvMalloc fresh _ => fresh <> NULL /\ pcs_heap (astack w) !! fresh = None
  | EvMallocExisting d => In d (records w)
  | EvFree d => In d (records w)
  end.

Definition world_init : world := mk_world (mk_astack ∅ []) [].

Inductive reachable : world -> Prop :=
| reach_init : reachable world_init
| reach_step w ev :
    reachable w -> event_ok w ev -> reachable (handle_event w ev).

(** The number of live records that hold [p]. *)
Definition holders (w : world) (p : Z) : Z :=
  Z.of_nat (count_occ Z.eq_dec (records w) p).

(** ** Signals (Linux) *)

(** The fields of [client_per_thread_t] that the signal code uses.
    [NULL] in [signal_xsp] is the unset sentinel. *)
Record client_per_thread_t := mk_cpt {
  signal_xsp : app_pc;
  sigframe_top : app_pc;
  sigaltstack : app_pc;
  sigaltsize : Z;
  prev_sigaltstack : app_pc;
  prev_sigaltsize : Z
}.

(** What the signal handlers read and write: the shadow memory, the
    state of the thread and [sighand_table]. *)
Record signal_state := mk_sig {
  sig_shadow : shadow_t;
  cpt : client_per_thread_t;
  sighand_table : gset Z
}.

Definition set_signal_xsp (c : client_per_thread_t) (v : app_pc) :=
  mk_cpt v (sigframe_top c) (sigaltstack c) (sigaltsize c)
    (prev_sigaltstack c) (prev_sigaltsize c).

Definition set_sigframe_top (c : client_per_thread_t) (v : app_pc) :=
  mk_cpt (signal_xsp c) v (sigaltstack c) (sigaltsize c)
    (prev_sigaltstack c) (prev_sigaltsize c).

(** [event_signal_alloc]: remembers where the signal interrupted the
    application. *)
Definition event_signal_alloc (st : signal_state) (info_xsp : app_pc)
  : signal_state :=
  mk_sig (sig_shadow st) (set_signal_xsp (cpt st) info_xsp) (sighand_table st).

(** [at_signal_handler], the clean call at the entry of a registered
    handler; [mc_xsp] is the stack pointer there.  Its first ASSERT
    documents that the call is only inserted when shadowing is on. *)
Definition at_signal_handler (st : signal_state) (mc_xsp : app_pc)
  : signal_state :=
  let c := cpt st in
  if signal_xsp c =? NULL then st
  else
    let frame_top :=
      if negb (sigaltstack c =? NULL)
         && (sigaltstack c >? mc_xsp)
         && (sigaltstack c - mc_xsp <? sigaltsize c)
      then
        if (sigaltstack c >? signal_xsp c) && (signal_xsp c <? mc_xsp)
        then signal_xsp c
        else sigaltstack c
      else signal_xsp c in
    mk_sig (shadow_set_range (sig_shadow st) mc_xsp frame_top SHADOW_DEFINED)
      (set_signal_xsp (set_sigframe_top c frame_top) NULL)
      (sighand_table st).

(** The system calls [client_pre_syscall] looks at (32-bit x86 Linux). *)
Inductive sysnum_t :=
| SYS_rt_sigaction
| SYS_sigaction
| SYS_signal
| SYS_rt_sigreturn
| SYS_sigreturn
| SYS_sigaltstack
| SYS_other.

(** A [stack_t] as read from the application. *)
Record stack_t := mk_stack { ss_sp : app_pc; ss_flags : Z; ss_size : Z }.

Definition SS_DISABLE : Z := 2.
Definition SIG_DFL : app_pc := 0.
Definition SIG_IGN : app_pc := 1.

(** The arguments of the system call and what [safe_read] finds behind
    them: the handler field of the sigaction structure and the
    [stack_t] of sigaltstack ([None] when the read fails). *)
Record sysargs_t := mk_sysargs {
  sysarg1 : Z;
  read_handler : option app_pc;
  read_stack : option stack_t
}.

Definition is_sigaction (n : sysnum_t) : bool :=
  match n with
  | SYS_rt_sigaction | SYS_sigaction | SYS_signal => true
  | _ => false
  end.

Definition is_sigreturn (n : sysnum_t) : bool :=
  match n with
  | SYS_rt_sigreturn | SYS_sigreturn => true
  | _ => false
  end.

(** [client_pre_syscall], the Linux branch; [mc_xsp] is the stack
    pointer at the system call. *)
Definition client_pre_syscall (options : options_t) (st : signal_state)
    (sysnum : sysnum_t) (args : sysargs_t) (mc_xsp : app_pc) : signal_state :=
  if leaks_only options || negb (shadowing options) then st
  else if is_sigaction sysnum then
    let handler :=
      match sysnum with
      | SYS_signal => sysarg1 args
      | _ => default NULL (read_handler args)
      end in
    if negb (handler =? NULL)
       && negb (handler =? SIG_IGN) && negb (handler =? SIG_DFL)
    then mk_sig (sig_shadow st) (cpt st) ({[handler]} ∪ sighand_table st)
    else st
  else if is_sigreturn sysnum then
    mk_sig (shadow_set_range (sig_shadow st) mc_xsp (sigframe_top (cpt st))
              SHADOW_UNADDRESSABLE)
      (cpt st) (sighand_table st)
  else
    match sysnum with
    | SYS_sigaltstack =>
        let c := cpt st in
        let c1 := mk_cpt (signal_xsp c) (sigframe_top c) (sigaltstack c)
                    (sigaltsize c) (sigaltstack c) (sigaltsize c) in
        match read_stack args with
        | Some stk =>
            if ss_flags stk =? SS_DISABLE then
              mk_sig (sig_shadow st)
                (mk_cpt (signal_xsp c1) (sigframe_top c1) NULL 0
                   (prev_sigaltstack c1) (prev_sigaltsize c1))
                (sighand_table st)
            else
              let top := ss_sp stk + ss_size stk in
              mk_sig (shadow_set_range (sig_shadow st) (ss_sp stk) top
                        SHADOW_UNADDRESSABLE)
                (mk_cpt (signal_xsp c1) (sigframe_top c1) top (ss_size stk)
                   (prev_sigaltstack c1) (prev_sigaltsize c1))
                (sighand_table st)
        | None => mk_sig (sig_shadow st) c1 (sighand_table st)
        end
    | _ => st
    end.

(** ** The rawmemchr exception *)

(** The view of a decoded instruction that the pattern uses: its
    opcode and its operands, each a register, an immediate or a memory
    reference. *)
Inductive opcode_t :=
| OP_mov_ld
| OP_mov_st
| OP_mov_imm
| OP_xor
| OP_other (n : Z).

Inductive opnd_size_t :=
| OPSZ_PTR
| OPSZ_other (n : Z).

Inductive opnd_t :=
| opnd_reg (r : Z) (sz : opnd_size_t)
| opnd_immed_int (i : Z) (sz : opnd_size_t)
| opnd_base_disp (b idx scale disp : Z) (sz : opnd_size_t)
| opnd_null.

Record instr_t := mk_instr {
  instr_valid : bool;
  instr_opcode : opcode_t;
  instr_srcs : list opnd_t;
  instr_dsts : list opnd_t
}.

Definition instr_get_opcode (i : instr_t) : opcode_t := instr_opcode i.
Definition instr_get_src (i : instr_t) (n : nat) : opnd_t :=
  nth n (instr_srcs i) opnd_null.
Definition instr_get_dst (i : instr_t) (n : nat) : opnd_t :=
  nth n (instr_dsts i) opnd_null.

Definition opnd_is_reg (o : opnd_t) : bool :=
  match o with opnd_reg _ _ => true | _ => false end.

Definition opnd_get_size (o : opnd_t) : opnd_size_t :=
  match o with
  | opnd_reg _ sz | opnd_immed_int _ sz | opnd_base_disp _ _ _ _ sz => sz
  | opnd_null => OPSZ_other 0
  end.

(** The immediate as the 32-bit pattern it is compared as. *)
Definition opnd_get_immed_int (o : opnd_t) : Z :=
  match o with opnd_immed_int i _ => i mod 2 ^ 32 | _ => 0 end.

Definition opcode_eqb (a b : opcode_t) : bool :=
  match a, b with
  | OP_mov_ld, OP_mov_ld | OP_mov_st, OP_mov_st
  | OP_mov_imm, OP_mov_imm | OP_xor, OP_xor => true
  | OP_other m, OP_other n => m =? n
  | _, _ => false
  end.

Definition is_OPSZ_PTR (s : opnd_size_t) : bool :=
  match s with OPSZ_PTR => true | _ => false end.

(** The macro [ALIGNED(x, alignment)]: the low bits of the address
    are clear. *)
Definition ALIGNED (x : app_pc) (alignment : Z) : bool :=
  Z.land x (alignment - 1) =? 0.

Definition MAX_INSTR_SIZE : Z := 17.

Section Rawmemchr.

(** What the instrumentation host provides: the decoder, which
    returns the instruction at a pc and the pc that follows it, and
    the query whether a range of application memory can be read. *)
Variable decode : app_pc -> instr_t * app_pc.
Variable dr_memory_is_readable : app_pc -> Z -> bool.

(** [is_rawmemchr_pattern]: the result and the value of the OUT
    parameter [now_addressable], which enters as [now_addr]. *)
Definition is_rawmemchr_pattern (write : bool) (pc next_pc addr : app_pc)
    (sz : Z) (inst : instr_t) (now_addr : bool) : bool * bool :=
  if negb (dr_memory_is_readable next_pc MAX_INSTR_SIZE) then (false, now_addr)
  else
    let '(next, dpc) := decode next_pc in
    if negb (ALIGNED addr 4)
       && opcode_eqb (instr_get_opcode inst) OP_mov_ld
       && opnd_is_reg (instr_get_dst inst 0)
       && is_OPSZ_PTR (opnd_get_size (instr_get_dst inst 0))
    then
      let skip :=
        instr_valid next
        && opcode_eqb (instr_get_opcode next) OP_xor
        && opnd_is_reg (instr_get_src next 0)
        && opnd_is_reg (instr_get_dst next 0)
        && is_OPSZ_PTR (opnd_get_size (instr_get_dst next 0)) in
      if skip && negb (dr_memory_is_readable dpc MAX_INSTR_SIZE)
      then (false, now_addr)
      else
        let next := if skip then fst (decode dpc) else next in
        if instr_valid next
           && opcode_eqb (instr_get_opcode next) OP_mov_imm
           && ((opnd_get_immed_int (instr_get_src next 0) =? 0xfefefeff)
               || (opnd_get_immed_int (instr_get_src next 0) =? 0x7efefeff))
           && opnd_is_reg (instr_get_dst next 0)
        then (true, false)
        else (false, now_addr)
    else (false, now_addr).

End Rawmemchr.

(** What holds of an entry of the table: key and payload are the same
    callstack, which is live, and its reference count is one more than
    the number of records that hold it. *)
Definition entry_ok (w : world) (e : Z * Z) : Prop :=
  snd e = fst e
  /\ exists pcs, pcs_heap (astack w) !! fst e = Some pcs
                 /\ refcount pcs = 1 + holders w (fst e).

(** The invariant of the callstack table: nothing lives at NULL, the
    contents of the entries are pairwise distinct, every entry is
    [entry_ok], and every live record holds an entry of the table. *)
Definition table_inv (w : world) : Prop :=
  pcs_heap (astack w) !! (NULL : Z) = None
  /\ NoDup (map (fun e => frames_at (pcs_heap (astack w)) (fst e))
              (alloc_stack_table (astack w)))
  /\ Forall (entry_ok w) (alloc_stack_table (astack w))
  /\ Forall (fun d => In (d, d) (alloc_stack_table (astack w))) (records w).

(** ** Runs of free events and the invariant of the FIFO *)

(** The arguments of one call of [client_handle_free]. *)
Record free_event := mk_free {
  fe_base : app_pc;
  fe_size : Z;
  fe_real_base : app_pc;
  fe_heap : app_pc
}.


(** A sequence of free events: the pointers handed to the real free(),
    in order, and the final state. *)
Fixpoint run_frees (options : options_t) (st : alloc_state)
    (evs : list free_event) : list app_pc * alloc_state :=
  match evs with
  | [] => ([], st)
  | e :: evs' =>
      let '(p, _, st1) :=
        client_handle_free options st (fe_base e) (fe_size e)
          (fe_real_base e) (fe_heap e) in
      let '(ps, st2) := run_frees options st1 evs' in
      (p :: ps, st2)
  end.

(** The array has [delay_frees] slots, the indices are in range, and
    the head only moves once the array is full. *)
Definition dfs_ok (options : options_t) (q : delay_free_state) : Prop :=
  0 < delay_frees options
  /\ length (delay_free_list q) = Z.to_nat (delay_frees options)
  /\ 0 <= delay_free_head q < delay_frees options
  /\ 0 <= delay_free_fill q <= delay_frees options
  /\ (delay_free_fill q < delay_frees options -> delay_free_head q = 0).

(** The live entries, oldest first. *)
Definition fifo (q : delay_free_state) : list delay_free_t :=
  let l := take (Z.to_nat (delay_free_fill q)) (delay_free_list q) in
  drop (Z.to_nat (delay_free_head q)) l ++ take (Z.to_nat (delay_free_head q)) l.

(** Every node of the tree starts at an address of its own and has a
    size that is not negative. *)
Definition tree_ok (t : rb_tree_t) : Prop :=
  NoDup (map base t) /\ Forall (fun n => 0 <= size n) t.

(** ** Concrete scenarios *)

Definition full_options (rz n : Z) : options_t :=
  {| redzone_size := rz; leaks_only := false; shadowing := true;
     delay_frees := n; stack_swap_threshold := 0x9000;
     warn_null_ptr := true |}.

Definition leak_options (n : Z) : options_t :=
  {| redzone_size := 8; leaks_only := true; shadowing := true;
     delay_frees := n; stack_swap_threshold := 0x9000;
     warn_null_ptr := true |}.

Definition all_unaddressable : shadow_t := fun _ => SHADOW_UNADDRESSABLE.

Definition empty_state (n : nat) : alloc_state :=
  mk_state all_unaddressable
    (delay_free_init (repeat (mk_delay_free NULL NULL) n)).

(** A full quarantine of two blocks that belong to the heaps 7 and 9. *)
Definition two_heap_quarantine : delay_free_state :=
  mk_dfs [mk_delay_free 0x1000 7; mk_delay_free 0x2000 9] 0 2
    [mk_node 0x1000 0x20 1; mk_node 0x2000 0x30 1].

(** The callstack [1; 2] recorded three times and the callstack [3]
    once. *)
Definition scenario_world : world :=
  handle_event
    (handle_event
       (handle_event (handle_event world_init (EvMalloc 100 [1; 2]))
          (EvMalloc 200 [1; 2]))
       (EvMalloc 300 [1; 2]))
    (EvMalloc 400 [3]).

(** A thread with no signal pending and no alternate stack. *)
Definition idle_cpt : client_per_thread_t := mk_cpt NULL NULL NULL 0 NULL 0.

Definition idle_signal_state : signal_state :=
  mk_sig all_unaddressable idle_cpt ∅.

(** A shadow whose first four bytes from [0x1000] are defined and the
    rest undefined. *)
Definition striped_shadow : shadow_t :=
  fun a => if a <? 0x1004 then SHADOW_DEFINED else SHADOW_UNDEFINED.

(** The load [mov (%eax) -> %ecx] and the constant load
    [mov $0xfefefeff -> %edx] of rawmemchr, and a decoder that finds
    the latter at every pc. *)
Definition load_ecx : instr_t :=
  mk_instr true OP_mov_ld [opnd_base_disp 16 0 0 0 OPSZ_PTR] [opnd_reg 17 OPSZ_PTR].

Definition magic_edx : instr_t :=
  mk_instr true OP_mov_imm [opnd_immed_int 0xfefefeff OPSZ_PTR] [opnd_reg 18 OPSZ_PTR].

Definition decode_magic (pc : app_pc) : instr_t * app_pc := (magic_edx, pc + 5).

Definition all_readable (_ : app_pc) (_ : Z) : bool := true.

(** ** What the anonymous-mmap table tracks *)

(** The address lies in an interval of the tree. *)
Definition tracked (t : rb_tree_t) (a : app_pc) : Prop :=
  exists n, In n t /\ base n <= a < base n + size n.

(** Two nodes neither overlap nor touch: neither would be in the way of
    inserting the other. *)
Definition apart (m n : rb_node_t) : Prop :=
  conflicts (base m) (size m) n = false.

(** The nodes of a tree are pairwise apart. *)
Inductive separated : rb_tree_t -> Prop :=
| separated_nil : separated []
| separated_cons n t : Forall (apart n) t -> separated t -> separated (n :: t).

(** The invariant of the mmap tree: nodes pairwise apart, sizes not
    negative. *)
Definition mmap_ok (t : rb_tree_t) : Prop :=
  separated t /\ Forall (fun n => 0 <= size n) t.

(** ** System-call results (Linux) *)

(** [client_post_syscall], the Linux build; [result] is what the system
    call returned. *)
Definition client_post_syscall (options : options_t) (st : signal_state)
    (sysnum : sysnum_t) (result : Z) : signal_state :=
  if leaks_only options || negb (shadowing options) then st
  else if is_sigaction sysnum then st
  else
    match sysnum with
    | SYS_sigaltstack =>
        if negb (result =? 0) then
          let c := cpt st in
          mk_sig (sig_shadow st)
            (mk_cpt (signal_xsp c) (sigframe_top c)
               (prev_sigaltstack c) (prev_sigaltsize c)
               (prev_sigaltstack c) (prev_sigaltsize c))
            (sighand_table st)
        else st
    | _ => st
    end.

(** ** The other exception patterns *)

(** The opcodes and registers the patterns name.  The numbers stand for
    the constants of the instrumentation host; only that they differ
    matters. *)
Definition OP_test : opcode_t := OP_other 1.
Definition OP_cmp : opcode_t := OP_other 2.
Definition OP_xchg : opcode_t := OP_other 3.
Definition OP_jmp : opcode_t := OP_other 4.
Definition OP_jmp_short : opcode_t := OP_other 5.
Definition OP_or : opcode_t := OP_other 6.
Definition OP_lea : opcode_t := OP_other 7.

Definition REG_NULL : Z := 0.
Definition REG_EAX : Z := 16.
Definition REG_ECX : Z := 17.
Definition REG_EDX : Z := 18.
Definition REG_EBX : Z := 19.
Definition REG_ESP : Z := 20.
Definition REG_ESI : Z := 22.

Definition opnd_is_base_disp (o : opnd_t) : bool :=
  match o with opnd_base_disp _ _ _ _ _ => true | _ => false end.

Definition opnd_is_immed_int (o : opnd_t) : bool :=
  match o with opnd_immed_int _ _ => true | _ => false end.

Definition opnd_get_reg (o : opnd_t) : Z :=
  match o with opnd_reg r _ => r | _ => REG_NULL end.

Definition opnd_get_base (o : opnd_t) : Z :=
  match o with opnd_base_disp b _ _ _ _ => b | _ => REG_NULL end.

Definition opnd_get_index (o : opnd_t) : Z :=
  match o with opnd_base_disp _ idx _ _ _ => idx | _ => REG_NULL end.

Definition opnd_get_scale (o : opnd_t) : Z :=
  match o with opnd_base_disp _ _ sc _ _ => sc | _ => 0 end.

(** The displacement, a signed [int]. *)
Definition opnd_get_disp (o : opnd_t) : Z :=
  match o with opnd_base_disp _ _ _ d _ => d | _ => 0 end.

(** The memory operand [(%base)]: no index, no scale, no displacement
    unless [disp] allows one. *)
Definition plain_base_disp (o : opnd_t) (b : Z) : bool :=
  opnd_is_base_disp o
  && (opnd_get_base o =? b)
  && (opnd_get_index o =? REG_NULL)
  && (opnd_get_scale o =? 0)
  && (opnd_get_disp o =? 0).

(** Where an access was made: at an instruction or in a system call. *)
Inductive app_loc_t :=
| APP_LOC_PC (pc : app_pc)
| APP_LOC_SYSCALL (sysnum : Z).

Section Exceptions.

Variable decode : app_pc -> instr_t * app_pc.
Variable dr_memory_is_readable : app_pc -> Z -> bool.

(** The bytes of the application's memory, each in [0, 256). *)
Variable app_byte : app_pc -> Z.

(** The [int] read at [p] on x86 (little endian), as the 32-bit pattern
    it is compared as. *)
Definition app_int (p : app_pc) : Z :=
  app_byte p + 2 ^ 8 * app_byte (p + 1) + 2 ^ 16 * app_byte (p + 2)
  + 2 ^ 24 * app_byte (p + 3).

(** [is_alloca_pattern]: the result and the value of [now_addressable]. *)
Definition is_alloca_pattern (write : bool) (pc next_pc addr : app_pc)
    (sz : Z) (inst : instr_t) (now_addr : bool) : bool * bool :=
  if negb (dr_memory_is_readable (pc - 1)
             ((next_pc - (pc - 1)) + MAX_INSTR_SIZE))
  then (false, now_addr)
  else if opcode_eqb (instr_get_opcode inst) OP_test
          && opnd_is_base_disp (instr_get_src inst 0)
          && ((opnd_get_base (instr_get_src inst 0) =? REG_ECX)
              || (opnd_get_base (instr_get_src inst 0) =? REG_EAX))
          && (opnd_get_index (instr_get_src inst 0) =? REG_NULL)
          && (opnd_get_scale (instr_get_src inst 0) =? 0)
          && (opnd_get_disp (instr_get_src inst 0) =? 0)
          && opnd_is_reg (instr_get_src inst 1)
          && (opnd_get_reg (instr_get_src inst 1) =? REG_EAX)
  then
    let next := fst (decode next_pc) in
    if instr_valid next
       && ((opcode_eqb (instr_get_opcode next) OP_cmp
            && opnd_is_reg (instr_get_src next 0)
            && (opnd_get_reg (instr_get_src next 0) =? REG_EAX)
            && opnd_is_immed_int (instr_get_src next 1))
           || ((opcode_eqb (instr_get_opcode next) OP_mov_ld
                || opcode_eqb (instr_get_opcode next) OP_mov_st)
               && opnd_is_reg (instr_get_src next 0)
               && (opnd_get_reg (instr_get_src next 0) =? REG_ECX)
               && opnd_is_reg (instr_get_dst next 0)
               && (opnd_get_reg (instr_get_dst next 0) =? REG_ESP))
           || (opcode_eqb (instr_get_opcode next) OP_xchg
               && opnd_is_reg (instr_get_src next 0)
               && (opnd_get_reg (instr_get_src next 0) =? REG_ESP))
           || (opcode_eqb (instr_get_opcode next) OP_jmp
               || opcode_eqb (instr_get_opcode next) OP_jmp_short))
    then (true, false)
    else (false, now_addr)
  else if opcode_eqb (instr_get_opcode inst) OP_mov_ld
          && plain_base_disp (instr_get_src inst 0) REG_EAX
          && opnd_is_reg (instr_get_dst inst 0)
          && (opnd_get_reg (instr_get_dst inst 0) =? REG_EAX)
          && (app_byte (pc - 1) =? 0x94)
  then (true, false)
  else if opcode_eqb (instr_get_opcode inst) OP_or
          && plain_base_disp (instr_get_dst inst 0) REG_ECX
          && opnd_is_immed_int (instr_get_src inst 0)
          && (opnd_get_immed_int (instr_get_src inst 0) =? 0)
  then (true, false)
  else (false, now_addr).

(** [is_strlen_pattern]. *)
Definition is_strlen_pattern (write : bool) (pc next_pc addr : app_pc)
    (sz : Z) (inst : instr_t) (now_addr : bool) : bool * bool :=
  if negb (dr_memory_is_readable (pc - 4)
             ((next_pc - (pc - 4)) + MAX_INSTR_SIZE))
  then (false, now_addr)
  else if negb (ALIGNED addr 4)
          && opcode_eqb (instr_get_opcode inst) OP_mov_ld
          && opnd_is_base_disp (instr_get_src inst 0)
          && (opnd_get_base (instr_get_src inst 0) =? REG_ECX)
          && (opnd_get_index (instr_get_src inst 0) =? REG_NULL)
          && (opnd_get_scale (instr_get_src inst 0) =? 0)
          && ((opnd_get_disp (instr_get_src inst 0) =? 0)
              || (opnd_get_disp (instr_get_src inst 0) =? (-4)))
          && opnd_is_reg (instr_get_dst inst 0)
          && (opnd_get_reg (instr_get_dst inst 0) =? REG_EAX)
  then
    let raw := app_int next_pc in
    let next := fst (decode next_pc) in
    if instr_valid next
       && ((raw =? 0x3274c084)
           || (opcode_eqb (instr_get_opcode next) OP_mov_imm
               && opnd_is_immed_int (instr_get_src next 0)
               && (opnd_get_immed_int (instr_get_src next 0) =? 0x7efefeff)
               && opnd_is_reg (instr_get_dst next 0)
               && (opnd_get_reg (instr_get_dst next 0) =? REG_EDX)))
    then (true, false)
    else (false, now_addr)
  else if negb (ALIGNED addr 4)
          && opcode_eqb (instr_get_opcode inst) OP_mov_ld
          && plain_base_disp (instr_get_src inst 0) REG_ESI
          && opnd_is_reg (instr_get_dst inst 0)
          && ((opnd_get_reg (instr_get_dst inst 0) =? REG_EAX)
              || (opnd_get_reg (instr_get_dst inst 0) =? REG_EDX))
  then
    let raw := app_int (pc - 4) in
    if (raw =? 0x7efefeff) || (raw =? 0xc233fff0)
    then (true, false)
    else (false, now_addr)
  else (false, now_addr).

(** [is_strcpy_pattern]. *)
Definition is_strcpy_pattern (write : bool) (pc next_pc addr : app_pc)
    (sz : Z) (inst : instr_t) (now_addr : bool) : bool * bool :=
  if negb (dr_memory_is_readable next_pc MAX_INSTR_SIZE) then (false, now_addr)
  else if negb (ALIGNED addr 4)
          && opcode_eqb (instr_get_opcode inst) OP_mov_ld
          && plain_base_disp (instr_get_src inst 0) REG_EBX
          && opnd_is_reg (instr_get_dst inst 0)
          && (opnd_get_reg (instr_get_dst inst 0) =? REG_ECX)
  then
    let '(next, dpc) := decode next_pc in
    if instr_valid next then
      let next := fst (decode dpc) in
      if instr_valid next
         && opcode_eqb (instr_get_opcode next) OP_lea
         && (opnd_get_base (instr_get_src next 0) =? REG_ECX)
         && (opnd_get_index (instr_get_src next 0) =? REG_NULL)
         && (opnd_get_scale (instr_get_src next 0) =? 0)
         && (opnd_get_disp (instr_get_src next 0) mod 2 ^ 32 =? 0xfefefeff)
         && opnd_is_reg (instr_get_dst next 0)
         && (opnd_get_reg (instr_get_dst next 0) =? REG_EAX)
      then (true, false)
      else (false, now_addr)
    else (false, now_addr)
  else (false, now_addr).

(** [is_ok_unaddressable_pattern]: the result and the shadow memory
    after the call. *)
Definition is_ok_unaddressable_pattern (s : shadow_t) (write : bool)
    (loc : app_loc_t) (addr : app_pc) (sz : Z) : bool * shadow_t :=
  match loc with
  | APP_LOC_SYSCALL _ => (false, s)
  | APP_LOC_PC pc =>
      if negb (dr_memory_is_readable addr 1) then (false, s)
      else if negb (dr_memory_is_readable pc 1) then (false, s)
      else
        let '(inst, dpc) := decode pc in
        let r0 := (false, false) in
        let r1 := if negb (fst r0)
                  then is_alloca_pattern write pc dpc addr sz inst (snd r0)
                  else r0 in
        let r2 := if negb (fst r1)
                  then is_strlen_pattern write pc dpc addr sz inst (snd r1)
                  else r1 in
        let r3 := if negb (fst r2)
                  then is_strcpy_pattern write pc dpc addr sz inst (snd r2)
                  else r2 in
        let r4 := if negb (fst r3)
                  then is_rawmemchr_pattern decode dr_memory_is_readable
                         write pc dpc addr sz inst (snd r3)
                  else r3 in
        (fst r4,
         if snd r4 then shadow_set_byte s addr SHADOW_UNDEFINED else s)
  end.

(** What heap.c and the instrumentation host answer to
    [check_unaddressable_exceptions]: whether an address is in a heap
    region, whether it is in the tool's or the host's library, and the
    name of the module that holds a pc, if any. *)
Variable is_in_heap_region : app_pc -> bool.
Variable is_in_client_or_DR_lib : app_pc -> bool.
Variable dr_module_preferred_name : app_pc -> option String.string.

Definition loc_to_pc (loc : app_loc_t) : app_pc :=
  match loc with APP_LOC_PC pc => pc | APP_LOC_SYSCALL _ => NULL end.

(** [is_loader_exception] (Linux). *)
Definition is_loader_exception (loc : app_loc_t) (addr : app_pc) (sz : Z)
  : bool :=
  if is_in_client_or_DR_lib addr then
    match dr_module_preferred_name (loc_to_pc loc) with
    | Some modname =>
        String.prefix "ld-linux.so."%string modname
        || is_in_client_or_DR_lib (loc_to_pc loc)
    | None => false
    end
  else false.

(** [check_unaddressable_exceptions], the Linux build; [in_heap_routine]
    is the counter of the thread. *)
Definition check_unaddressable_exceptions (s : shadow_t)
    (in_heap_routine : Z) (write : bool) (loc : app_loc_t) (addr : app_pc)
    (sz : Z) : bool * shadow_t :=
  if is_in_heap_region addr && (in_heap_routine >? 0) then (true, s)
  else if is_loader_exception loc addr sz then (true, s)
  else is_ok_unaddressable_pattern s write loc addr sz.

End Exceptions.

(** A stack probe as in [_alloca_probe]: [test (%ecx), %eax] followed by
    [cmp %eax, $0x1000], and a decoder that finds the probe at
    0x40db67 and the compare everywhere else. *)
Definition probe_test : instr_t :=
  mk_instr true OP_test
    [opnd_base_disp REG_ECX REG_NULL 0 0 OPSZ_PTR; opnd_reg REG_EAX OPSZ_PTR] [].

Definition probe_cmp : instr_t :=
  mk_instr true OP_cmp
    [opnd_reg REG_EAX OPSZ_PTR; opnd_immed_int 0x1000 OPSZ_PTR] [].

Definition decode_probe (pc : app_pc) : instr_t * app_pc :=
  if pc =? 0x40db67 then (probe_test, pc + 2) else (probe_cmp, pc + 5).

(** ** mmap, munmap and mremap (Linux) *)

(** The shadow memory and the table of anonymous mappings. *)
Record mmap_state := mk_mmap { mm_shadow : shadow_t; mmap_tree : rb_tree_t }.

Section MmapEvents.

(** [mmap_walk(base, size, add)] of the heap module, which sets the
    shadow tags of a file or image mapping. *)
Variable mmap_walk : shadow_t -> app_pc -> Z -> bool -> shadow_t.

(** [client_handle_mmap]; [in_heap_routine] is the counter of the
    thread. *)
Definition client_handle_mmap (options : options_t) (st : mmap_state)
    (in_heap_routine : Z) (base : app_pc) (size : Z) (anon : bool)
  : mmap_state :=
  if anon then
    mk_mmap
      (if (in_heap_routine =? 0) && negb (leaks_only options)
          && shadowing options
       then shadow_set_range (mm_shadow st) base (base + size) SHADOW_DEFINED
       else mm_shadow st)
      (mmap_tree_add (mmap_tree st) base size)
  else if negb (leaks_only options) && shadowing options then
    mk_mmap (mmap_walk (mm_shadow st) base size true) (mmap_tree st)
  else st.

(** [client_handle_munmap]: whether the range was anonymous is read off
    the table; [None] only if the loop of [mmap_tree_remove] ran out of
    fuel. *)
Definition client_handle_munmap (options : options_t) (st : mmap_state)
    (base : app_pc) (size : Z) (anon : bool) : option mmap_state :=
  match mmap_tree_remove (mmap_tree st) base size with
  | Some (true, t) =>
      Some (mk_mmap
              (if negb (leaks_only options) && shadowing options
               then shadow_set_range (mm_shadow st) base (base + size)
                      SHADOW_UNADDRESSABLE
               else mm_shadow st)
              t)
  | Some (false, t) =>
      Some (mk_mmap
              (if negb (leaks_only options) && shadowing options
               then mmap_walk (mm_shadow st) base size false
               else mm_shadow st)
              t)
  | None => None
  end.

(** [client_handle_mremap]. *)
Definition client_handle_mremap (options : options_t) (st : mmap_state)
    (old_base : app_pc) (old_size : Z) (new_base : app_pc) (new_size : Z)
    (image : bool) : option mmap_state :=
  let shrink := new_size <? old_size in
  let s1 :=
    if negb (leaks_only options) && shadowing options then
      let s0 := shadow_copy_range (mm_shadow st) old_base new_base
                  (if shrink then new_size else old_size) in
      if shrink then
        shadow_set_range s0 (old_base + new_size) (old_base + old_size)
          SHADOW_UNADDRESSABLE
      else
        shadow_set_range s0 (new_base + old_size) (new_base + new_size)
          (if image then SHADOW_DEFINED else SHADOW_UNDEFINED)
    else mm_shadow st in
  match mmap_tree_remove (mmap_tree st) old_base old_size with
  | Some (_, t1) => Some (mk_mmap s1 (mmap_tree_add t1 new_base new_size))
  | None => None
  end.

End MmapEvents.

(** ** Kernel-placed stack data and callback returns (Windows) *)

Definition shadow_tag_eqb (a b : shadow_tag) : bool :=
  match a, b with
  | SHADOW_UNADDRESSABLE, SHADOW_UNADDRESSABLE
  | SHADOW_UNDEFINED, SHADOW_UNDEFINED
  | SHADOW_DEFINED, SHADOW_DEFINED
  | SHADOW_UNKNOWN, SHADOW_UNKNOWN => true
  | _, _ => false
  end.

(** Modelled from the spec: [get(addr)] reads the tag of a byte. *)
Definition shadow_get_byte (s : shadow_t) (addr : app_pc) : shadow_tag := s addr.

(** The [for] loop of [client_handle_cbret]; [n] is the number of
    bytes from [sp] up to [pre_callback_esp]. *)
Fixpoint cbret_loop (n : nat) (s : shadow_t) (sp : app_pc) : shadow_t :=
  match n with
  | O => s
  | S n' => cbret_loop n' (shadow_set_byte s sp SHADOW_UNADDRESSABLE) (sp + 1)
  end.

(** [client_handle_cbret]: [pre_callback_esp] is the field of the
    parent's thread data, [mc_esp] the stack pointer. *)
Definition client_handle_cbret (options : options_t) (s : shadow_t)
    (pre_callback_esp : app_pc) (mc_esp : app_pc) : shadow_t :=
  if leaks_only options || negb (shadowing options) then s
  else cbret_loop (Z.to_nat (pre_callback_esp - mc_esp)) s mc_esp.

Section Ki.

(** The constant of the stack module that bounds what the kernel may
    place on the stack. *)
Variable TYPICAL_STACK_MIN_SIZE : Z.

(** The [while] loop of [client_handle_Ki]: the shadow memory and [sp]
    when the loop is left; [None] if [fuel] turns did not suffice. *)
Fixpoint Ki_loop (fuel : nat) (s : shadow_t) (mc_esp sp stop_esp : app_pc)
  : option (shadow_t * app_pc) :=
  if (negb (stop_esp =? NULL) && (sp <? stop_esp))
     || ((stop_esp =? NULL)
         && shadow_tag_eqb (shadow_get_byte s sp) SHADOW_UNADDRESSABLE)
  then
    match fuel with
    | O => None
    | S fuel' =>
        let s1 := shadow_set_byte s sp SHADOW_DEFINED in
        let sp1 := sp + 1 in
        if sp1 - mc_esp >=? TYPICAL_STACK_MIN_SIZE then Some (s1, sp1)
        else Ki_loop fuel' s1 mc_esp sp1 stop_esp
    end
  else Some (s, sp).

(** [client_handle_Ki]: [base_esp] is the [StackBase] of the thread's
    TEB; the result is the shadow memory and the new
    [pre_callback_esp], which enters as [pre_callback_esp]. *)
Definition client_handle_Ki (fuel : nat) (options : options_t) (s : shadow_t)
    (pre_callback_esp : app_pc) (mc_esp base_esp : app_pc)
  : option (shadow_t * app_pc) :=
  if leaks_only options || negb (shadowing options)
  then Some (s, pre_callback_esp)
  else
    let stop_esp :=
      if (mc_esp <? base_esp) && (base_esp - mc_esp <? TYPICAL_STACK_MIN_SIZE)
      then base_esp else NULL in
    Ki_loop fuel s mc_esp mc_esp stop_esp.

End Ki.

(** ** The quarantine and its tree *)

(** The tree of the quarantine mirrors its array: the slots in use hold
    no NULL address and the nodes of the tree start at exactly the
    addresses of these slots. *)
Definition quarantine_ok (options : options_t) (q : delay_free_state) : Prop :=
  dfs_ok options q
  /\ tree_ok (delay_free_tree q)
  /\ ~ In NULL (map addr (fifo q))
  /\ Permutation (map base (delay_free_tree q)) (map addr (fifo q)).

(** An [mmap_walk] that leaves the tags alone. *)
Definition no_walk (s : shadow_t) (_ : app_pc) (_ : Z) (_ : bool) : shadow_t := s.

(** * Properties *)

(** ** Outside full-shadowing mode *)

(** C9: while [options.leaks_only] is set or [options.shadowing] is
    clear, [client_handle_free] returns [real_base] (and the heap) as
    passed and leaves the shadow memory, the array, its indices and the
    tree as they were, whatever [options.delay_frees] is. *)
Theorem client_handle_free_disabled options st base size real_base heap_in :
  leaks_only options = true \/ shadowing options = false ->
  client_handle_free options st base size real_base heap_in
  = (real_base, heap_in, st).
Proof.
  intros Hoff.
  assert (Hg : shadow_on options = false).
  { unfold shadow_on. destruct Hoff as [-> | ->]; [reflexivity|].
    apply andb_false_r. }
  unfold client_handle_free. rewrite Hg. simpl. now destruct st.
Qed.

Lemma client_handle_free_disabled_witness :
  client_handle_free (leak_options 2) (empty_state 2) 0x4008 0x20 0x4000 7
  = (0x4000, 7, empty_state 2).
Proof.
  apply (client_handle_free_disabled (leak_options 2) (empty_state 2)).
  left. reflexivity.
Defined.

(** ** Signals *)

(** C10: entered while [signal_xsp] is unset, [at_signal_handler]
    returns at once: the shadow memory, [sigframe_top] and the rest of
    the state stay as they were. *)
Theorem at_signal_handler_unset st mc_xsp :
  signal_xsp (cpt st) = NULL ->
  at_signal_handler st mc_xsp = st.
Proof.
  intros Hunset. unfold at_signal_handler. now rewrite Hunset.
Qed.

Lemma at_signal_handler_unset_witness :
  at_signal_handler idle_signal_state 0x7fa0 = idle_signal_state.
Proof.
  apply (at_signal_handler_unset idle_signal_state 0x7fa0). reflexivity.
Defined.

Lemma shadow_set_range_in s lo hi v a :
  lo <= a < hi -> shadow_set_range s lo hi v a = v.
Proof.
  intros [Hlo Hhi]. unfold shadow_set_range.
  apply Z.leb_le in Hlo. apply Z.ltb_lt in Hhi. now rewrite Hlo, Hhi.
Qed.

Lemma shadow_set_range_out s lo hi v a :
  ~ (lo <= a < hi) -> shadow_set_range s lo hi v a = s a.
Proof.
  intros Hout. unfold shadow_set_range.
  destruct (lo <=? a) eqn:Hlo; [|reflexivity].
  destruct (a <? hi) eqn:Hhi; [|reflexivity].
  apply Z.leb_le in Hlo. apply Z.ltb_lt in Hhi. lia.
Qed.

(** C6: a signal interrupts at [X] a thread that has no alternate
    stack, and the handler is entered at [H < X].  At the entry the tags
    of [H, X) are DEFINED and no other tag changes, [sigframe_top] is
    [X] and [signal_xsp] is unset again; at the sigreturn executed with
    stack pointer [xsp] the tags of [xsp, sigframe_top) are
    UNADDRESSABLE and no other tag changes. *)
Theorem signal_frame_lifecycle options st X H xsp sysnum args :
  shadow_on options = true ->
  sigaltstack (cpt st) = NULL ->
  0 <= H < X ->
  is_sigreturn sysnum = true ->
  let st1 := at_signal_handler (event_signal_alloc st X) H in
  let st2 := client_pre_syscall options st1 sysnum args xsp in
  (forall a, H <= a < X -> sig_shadow st1 a = SHADOW_DEFINED)
  /\ (forall a, ~ (H <= a < X) -> sig_shadow st1 a = sig_shadow st a)
  /\ sigframe_top (cpt st1) = X
  /\ signal_xsp (cpt st1) = NULL
  /\ (forall a, xsp <= a < sigframe_top (cpt st1) ->
        sig_shadow st2 a = SHADOW_UNADDRESSABLE)
  /\ (forall a, ~ (xsp <= a < sigframe_top (cpt st1)) ->
        sig_shadow st2 a = sig_shadow st1 a).
Proof.
  intros Hon Halt HX Hret st1 st2.
  assert (Hst1 : st1 = mk_sig (shadow_set_range (sig_shadow st) H X SHADOW_DEFINED)
                         (set_signal_xsp (set_sigframe_top
                            (set_signal_xsp (cpt st) X) X) NULL)
                         (sighand_table st)).
  { subst st1. unfold at_signal_handler, event_signal_alloc. simpl.
    rewrite Halt. simpl.
    destruct (X =? NULL) eqn:HXn; [|reflexivity].
    apply Z.eqb_eq in HXn. unfold NULL in HXn. lia. }
  assert (Hst2 : st2 = mk_sig (shadow_set_range (sig_shadow st1) xsp
                                 (sigframe_top (cpt st1)) SHADOW_UNADDRESSABLE)
                         (cpt st1) (sighand_table st1)).
  { subst st2. unfold client_pre_syscall.
    unfold shadow_on in Hon. apply andb_true_iff in Hon as [Hl Hs].
    apply negb_true_iff in Hl. rewrite Hl, Hs. simpl.
    destruct sysnum; simpl in Hret; try discriminate; reflexivity. }
  rewrite Hst2. rewrite Hst1. simpl.
  repeat split.
  - intros a Ha. now apply shadow_set_range_in.
  - intros a Ha. now apply shadow_set_range_out.
  - intros a Ha. now apply shadow_set_range_in.
  - intros a Ha. now apply shadow_set_range_out.
Qed.

Lemma signal_frame_lifecycle_witness :
  let st1 := at_signal_handler (event_signal_alloc idle_signal_state 0x7ff0) 0x7fa0 in
  let st2 := client_pre_syscall (full_options 8 2) st1 SYS_rt_sigreturn
               (mk_sysargs 0 None None) 0x7fa0 in
  (forall a, 0x7fa0 <= a < 0x7ff0 -> sig_shadow st1 a = SHADOW_DEFINED)
  /\ (forall a, ~ (0x7fa0 <= a < 0x7ff0) ->
        sig_shadow st1 a = sig_shadow idle_signal_state a)
  /\ sigframe_top (cpt st1) = 0x7ff0
  /\ signal_xsp (cpt st1) = NULL
  /\ (forall a, 0x7fa0 <= a < sigframe_top (cpt st1) ->
        sig_shadow st2 a = SHADOW_UNADDRESSABLE)
  /\ (forall a, ~ (0x7fa0 <= a < sigframe_top (cpt st1)) ->
        sig_shadow st2 a = sig_shadow st1 a).
Proof.
  apply (signal_frame_lifecycle (full_options 8 2) idle_signal_state
           0x7ff0 0x7fa0 0x7fa0 SYS_rt_sigreturn (mk_sysargs 0 None None)).
  - reflexivity.
  - reflexivity.
  - lia.
  - reflexivity.
Defined.

(** ** realloc *)

(** Turns the integer comparisons of the goal into facts. *)
Ltac zcases :=
  repeat match goal with
  | |- context [?x <? ?y] =>
      let E := fresh "E" in destruct (Z.ltb_spec x y) as [E | E]
  | |- context [?x <=? ?y] =>
      let E := fresh "E" in destruct (Z.leb_spec x y) as [E | E]
  | |- context [?x >? ?y] =>
      rewrite (Z.gtb_ltb x y)
  | |- context [?x >=? ?y] =>
      rewrite (Z.geb_leb x y)
  | |- context [?x =? ?y] =>
      let E := fresh "E" in destruct (Z.eqb_spec x y) as [E | E]
  end.

Lemma client_handle_realloc_shrink options s ob os nb ns a :
  shadow_on options = true ->
  ob <= nb -> nb + ns <= ob + os -> 0 <= ns ->
  client_handle_realloc options s ob os nb ns a
  = if (nb <=? a) && (a <? nb + ns) then s (a - nb + ob)
    else if (ob <=? a) && (a <? ob + os) then SHADOW_UNADDRESSABLE
    else s a.
Proof.
  intros Hon Hlo Hhi Hns.
  unfold client_handle_realloc, shadow_set_range, shadow_copy_range.
  rewrite Hon. zcases; simpl; try reflexivity; try lia.
Qed.

(** C5, as the code has it: when the new region lies inside the old
    one, the old prefix [old_base, new_base) and the old suffix
    [new_base+new_size, old_base+old_size) are UNADDRESSABLE afterwards,
    byte [new_base+i] of the surviving middle carries the tag that byte
    [old_base+i] had, and nothing outside the old region changes; when
    the new region is the old one, no tag changes at all. *)
Theorem client_handle_realloc_inside options s ob os nb ns :
  shadow_on options = true ->
  ob <= nb -> nb + ns <= ob + os -> 0 <= ns ->
  let s' := client_handle_realloc options s ob os nb ns in
  (forall a, ob <= a < nb -> s' a = SHADOW_UNADDRESSABLE)
  /\ (forall a, nb + ns <= a < ob + os -> s' a = SHADOW_UNADDRESSABLE)
  /\ (forall i, 0 <= i < ns -> s' (nb + i) = s (ob + i))
  /\ (forall a, ~ (ob <= a < ob + os) -> s' a = s a)
  /\ (nb = ob -> ns = os -> forall a, s' a = s a).
Proof.
  intros Hon Hlo Hhi Hns s'. subst s'.
  repeat split; intros.
  - rewrite client_handle_realloc_shrink by assumption. zcases; simpl; try reflexivity; lia.
  - rewrite client_handle_realloc_shrink by assumption. zcases; simpl; try reflexivity; lia.
  - rewrite client_handle_realloc_shrink by assumption.
    zcases; simpl; try lia. f_equal. lia.
  - rewrite client_handle_realloc_shrink by assumption. zcases; simpl; try reflexivity; lia.
  - rewrite client_handle_realloc_shrink by assumption. subst.
    zcases; simpl; try reflexivity; try lia. f_equal. lia.
Qed.

Lemma client_handle_realloc_inside_witness :
  let s' := client_handle_realloc (full_options 8 2) striped_shadow
              0x1000 0x10 0x1004 4 in
  (forall a, 0x1000 <= a < 0x1004 -> s' a = SHADOW_UNADDRESSABLE)
  /\ (forall a, 0x1004 + 4 <= a < 0x1000 + 0x10 -> s' a = SHADOW_UNADDRESSABLE)
  /\ (forall i, 0 <= i < 4 -> s' (0x1004 + i) = striped_shadow (0x1000 + i))
  /\ (forall a, ~ (0x1000 <= a < 0x1000 + 0x10) -> s' a = striped_shadow a)
  /\ (0x1004 = 0x1000 -> 4 = 0x10 -> forall a, s' a = striped_shadow a).
Proof.
  apply (client_handle_realloc_inside (full_options 8 2) striped_shadow
           0x1000 0x10 0x1004 4).
  - reflexivity.
  - lia.
  - lia.
  - lia.
Defined.

(** C5, as stated, fails: with the old block at [0x1000, 0x1010) and
    the new one at [0x1004, 0x1008), strictly inside it, the byte
    [0x1004] of the surviving middle was UNDEFINED before the call and
    is DEFINED after it. *)
Lemma client_handle_realloc_middle_moved :
  0x1000 < 0x1004 /\ 0x1004 + 4 < 0x1000 + 0x10
  /\ striped_shadow 0x1004 = SHADOW_UNDEFINED
  /\ client_handle_realloc (full_options 8 2) striped_shadow
       0x1000 0x10 0x1004 4 0x1004 = SHADOW_DEFINED.
Proof.
  repeat split.
Qed.

(** ** The rawmemchr exception *)

Lemma ALIGNED_4_spec addr : ALIGNED addr 4 = true <-> addr mod 4 = 0.
Proof.
  unfold ALIGNED. change (4 - 1) with (Z.ones 2).
  rewrite Z.land_ones by lia. change (2 ^ 2) with 4.
  apply Z.eqb_eq.
Qed.

(** C7: at a 4-byte-aligned address [is_rawmemchr_pattern] returns
    false and leaves [now_addressable] alone, whatever the instructions
    are; hence a match implies an unaligned address; and for the load
    [mov (%eax) -> %ecx] followed by [mov $0xfefefeff -> %edx] the
    result is exactly whether the address is unaligned. *)
Theorem is_rawmemchr_pattern_aligned decode readable write pc next_pc addr sz
    inst now_addr :
  (ALIGNED addr 4 = true ->
   is_rawmemchr_pattern decode readable write pc next_pc addr sz inst now_addr
   = (false, now_addr))
  /\ (fst (is_rawmemchr_pattern decode readable write pc next_pc addr sz inst
             now_addr) = true ->
      addr mod 4 <> 0)
  /\ fst (is_rawmemchr_pattern decode_magic all_readable write pc next_pc addr
            sz load_ecx now_addr)
     = negb (ALIGNED addr 4).
Proof.
  split; [|split].
  - intros Hal. unfold is_rawmemchr_pattern.
    destruct (readable next_pc MAX_INSTR_SIZE); [|reflexivity]. simpl.
    destruct (decode next_pc) as [next dpc]. now rewrite Hal.
  - intros Hm Hmod. apply ALIGNED_4_spec in Hmod.
    unfold is_rawmemchr_pattern in Hm.
    destruct (readable next_pc MAX_INSTR_SIZE); [|discriminate]. simpl in Hm.
    destruct (decode next_pc) as [next dpc]. rewrite Hmod in Hm.
    discriminate.
  - unfold is_rawmemchr_pattern. simpl.
    now destruct (ALIGNED addr 4).
Qed.

Lemma is_rawmemchr_pattern_aligned_witness :
  is_rawmemchr_pattern decode_magic all_readable false 0x8000 0x8002 0x1000 4
    load_ecx false = (false, false)
  /\ fst (is_rawmemchr_pattern decode_magic all_readable false 0x8000 0x8002
            0x1001 4 load_ecx false) = true.
Proof.
  split.
  - apply (is_rawmemchr_pattern_aligned decode_magic all_readable false
             0x8000 0x8002 0x1000 4 load_ecx false).
    reflexivity.
  - rewrite (proj2 (proj2 (is_rawmemchr_pattern_aligned decode_magic
               all_readable false 0x8000 0x8002 0x1001 4 load_ecx false))).
    reflexivity.
Defined.

(** ** The delayed-free FIFO *)

Section CircularArray.
Context {A : Type}.
Implicit Types l : list A.

Lemma take_insert_fill l (f : nat) x :
  (f < length l)%nat ->
  take (S f) (<[f := x]> l) = take f l ++ [x].
Proof.
  intros Hf.
  rewrite (take_S_r _ _ x).
  - rewrite take_insert_ge by lia. reflexivity.
  - apply list_lookup_insert_eq. exact Hf.
Qed.

Lemma rotate_insert_head l (h : nat) x :
  (h < length l)%nat ->
  let h' := if (S h <? length l)%nat then S h else O in
  drop h' (<[h := x]> l) ++ take h' (<[h := x]> l)
  = tail (drop h l ++ take h l) ++ [x].
Proof.
  intros Hh h'.
  destruct (lookup_lt_is_Some_2 l h Hh) as [y Hy].
  pose proof (take_drop_middle l h y Hy) as Hsplit.
  assert (Hlen : length (take h l) = h) by (rewrite length_take; lia).
  set (l1 := take h l) in *. set (l2 := drop (S h) l) in *.
  assert (Hd : drop h l = y :: l2).
  { rewrite <- Hsplit at 1. rewrite <- Hlen at 1. now rewrite drop_app_length. }
  rewrite Hd. simpl.
  assert (Hins : <[h := x]> l = l1 ++ x :: l2).
  { rewrite <- Hsplit. rewrite <- Hlen at 1.
    now rewrite insert_app_r_alt, Nat.sub_diag by lia. }
  rewrite Hins.
  assert (Hl : length l = (h + S (length l2))%nat).
  { rewrite <- Hsplit. rewrite length_app. simpl. lia. }
  subst h'. destruct (Nat.ltb_spec (S h) (length l)) as [E | E].
  - replace (S h) with (length (l1 ++ [x])) by (rewrite length_app; simpl; lia).
    replace (l1 ++ x :: l2) with ((l1 ++ [x]) ++ l2) by now rewrite <- app_assoc.
    rewrite drop_app_length, take_app_length. now rewrite <- app_assoc.
  - assert (l2 = []) as -> by (apply length_zero_iff_nil; lia).
    simpl. now rewrite app_nil_r.
Qed.
End CircularArray.

Lemma enqueue_not_full options q base size real_base heap_in :
  dfs_ok options q ->
  delay_free_fill q < delay_frees options ->
  exists t,
    delay_free_enqueue options q base size real_base heap_in
    = (NULL, heap_in,
       mk_dfs (set_slot (delay_free_list q) (delay_free_fill q)
                 (mk_delay_free real_base heap_in))
         (delay_free_head q) (delay_free_fill q + 1) t).
Proof.
  intros Hok Hlt. unfold delay_free_enqueue, DELAY_FREE_FULL.
  destruct (Z.eqb_spec (delay_free_fill q) (delay_frees options)) as [E|E]; [lia|].
  simpl. eexists. reflexivity.
Qed.

Lemma enqueue_full options q base size real_base heap_in :
  delay_free_fill q = delay_frees options ->
  exists t,
    delay_free_enqueue options q base size real_base heap_in
    = (addr (slot (delay_free_list q) (delay_free_head q)),
       heap (slot (delay_free_list q) (delay_free_head q)),
       mk_dfs (set_slot (delay_free_list q) (delay_free_head q)
                 (mk_delay_free real_base heap_in))
         (if delay_free_head q + 1 >=? delay_frees options then 0
          else delay_free_head q + 1)
         (delay_free_fill q) t).
Proof.
  intros Hfull. unfold delay_free_enqueue, DELAY_FREE_FULL.
  rewrite Hfull, Z.eqb_refl. eexists. reflexivity.
Qed.

Lemma fifo_length options q :
  dfs_ok options q -> length (fifo q) = Z.to_nat (delay_free_fill q).
Proof.
  intros (Hn & Hlen & Hh & Hf & Hz). unfold fifo.
  rewrite length_app, length_drop, !length_take. lia.
Qed.

Lemma fifo_enqueue options q base size real_base heap_in p ho q' :
  dfs_ok options q ->
  delay_free_enqueue options q base size real_base heap_in = (p, ho, q') ->
  dfs_ok options q'
  /\ (if delay_free_fill q <? delay_frees options
      then p = NULL /\ fifo q' = fifo q ++ [mk_delay_free real_base heap_in]
      else p = addr (hd (mk_delay_free NULL NULL) (fifo q))
           /\ fifo q' = tail (fifo q) ++ [mk_delay_free real_base heap_in]).
Proof.
  intros Hok Heq. pose proof Hok as (Hn & Hlen & Hh & Hf & Hz).
  destruct (Z.ltb_spec (delay_free_fill q) (delay_frees options)) as [E | E].
  - destruct (enqueue_not_full options q base size real_base heap_in Hok E)
      as [t Ht].
    rewrite Ht in Heq. injection Heq as <- <- <-.
    specialize (Hz E). split.
    + unfold dfs_ok, set_slot. simpl. rewrite length_insert. lia.
    + split; [reflexivity|]. unfold fifo, set_slot. simpl.
      rewrite Hz. simpl. rewrite !app_nil_r.
      replace (Z.to_nat (delay_free_fill q + 1))
        with (S (Z.to_nat (delay_free_fill q))) by lia.
      apply take_insert_fill. lia.
  - assert (Hfull : delay_free_fill q = delay_frees options) by lia.
    destruct (enqueue_full options q base size real_base heap_in Hfull)
      as [t Ht].
    rewrite Ht in Heq. injection Heq as <- <- <-.
    assert (Hhn : (Z.to_nat (delay_free_head q) < length (delay_free_list q))%nat)
      by lia.
    pose proof (rotate_insert_head (delay_free_list q)
                  (Z.to_nat (delay_free_head q))
                  (mk_delay_free real_base heap_in) Hhn) as Hrot.
    simpl in Hrot.
    assert (Hview : fifo q = drop (Z.to_nat (delay_free_head q)) (delay_free_list q)
                             ++ take (Z.to_nat (delay_free_head q)) (delay_free_list q)).
    { unfold fifo. rewrite take_ge by lia. reflexivity. }
    split; [|split].
    + unfold dfs_ok, set_slot. simpl. rewrite length_insert.
      destruct (Z.leb_spec (delay_frees options) (delay_free_head q + 1));
        rewrite Z.geb_leb; destruct (Z.leb_spec (delay_frees options) (delay_free_head q + 1)); lia.
    + rewrite Hview. unfold slot.
      destruct (lookup_lt_is_Some_2 _ _ Hhn) as [y Hy]. rewrite Hy. simpl.
      rewrite (drop_S _ y _ Hy). reflexivity.
    + rewrite Hview, <- Hrot. unfold fifo, set_slot. simpl.
      rewrite take_ge by (rewrite length_insert; lia).
      rewrite Z.geb_leb.
      destruct (Z.leb_spec (delay_frees options) (delay_free_head q + 1)) as [G | G];
        destruct (Nat.ltb_spec (S (Z.to_nat (delay_free_head q)))
                    (length (delay_free_list q))) as [G' | G']; try lia.
      * reflexivity.
      * replace (Z.to_nat (delay_free_head q + 1))
          with (S (Z.to_nat (delay_free_head q))) by lia. reflexivity.
Qed.

Lemma client_handle_free_on options st base size real_base heap_in :
  shadow_on options = true -> 0 < delay_frees options ->
  client_handle_free options st base size real_base heap_in
  = let '(p, ho, q) :=
      delay_free_enqueue options (dfree st) base size real_base heap_in in
    (p, ho, mk_state (shadow_set_range (shadow st) base (base + size)
                        SHADOW_UNADDRESSABLE) q).
Proof.
  intros Hon Hn. unfold client_handle_free. rewrite Hon.
  apply Z.gtb_lt in Hn. rewrite Hn. reflexivity.
Qed.






(** ** Heap destruction *)

Lemma node_eqb_eq m n : node_eqb m n = true <-> m = n.
Proof.
  unfold node_eqb. destruct m, n; simpl. split.
  - intros H. apply andb_true_iff in H as [H H3]. apply andb_true_iff in H as [H1 H2].
    apply Z.eqb_eq in H1, H2, H3. congruence.
  - intros [= -> -> ->]. now rewrite !Z.eqb_refl.
Qed.

Lemma rb_delete_In t n x : In x (rb_delete t n) -> In x t.
Proof.
  induction t as [|m t IH]; simpl; [tauto|].
  destruct (node_eqb m n); simpl; tauto.
Qed.

Lemma rb_delete_keeps t n x : In x t -> x <> n -> In x (rb_delete t n).
Proof.
  intros Hin Hne. induction t as [|m t IH]; simpl in *; [tauto|].
  destruct (node_eqb m n) eqn:E.
  - apply node_eqb_eq in E. subst m. destruct Hin; [congruence | assumption].
  - simpl. tauto.
Qed.

Lemma rb_delete_ok t n : tree_ok t -> tree_ok (rb_delete t n).
Proof.
  intros [Hnd Hsz]. induction t as [|m t IH]; simpl; [split; assumption|].
  simpl in Hnd. apply NoDup_cons in Hnd as [Hm Hnd].
  apply Forall_cons in Hsz as [Hs Hsz].
  destruct (node_eqb m n); [split; assumption|].
  destruct (IH Hnd Hsz) as [IH1 IH2]. split.
  - simpl. apply NoDup_cons. split; [|assumption].
    intros Hin. apply Hm. apply list_elem_of_In in Hin. apply list_elem_of_In.
    apply in_map_iff in Hin as (x & Hx & Hin).
    apply in_map_iff. exists x. split; [assumption|]. eapply rb_delete_In; eassumption.
  - apply Forall_cons. split; assumption.
Qed.

Lemma rb_find_some t a n : rb_find t a = Some n -> In n t /\ base n = a.
Proof.
  unfold rb_find. intros H. apply find_some in H as [Hin Hb].
  apply Z.eqb_eq in Hb. split; assumption.
Qed.

Lemma rb_find_none t a : rb_find t a = None <-> (forall n, In n t -> base n <> a).
Proof.
  unfold rb_find. split.
  - intros H n Hin Hb. apply (find_none _ _ H) in Hin. apply Z.eqb_neq in Hin. tauto.
  - intros H. destruct (List.find _ t) as [n|] eqn:E; [|reflexivity].
    apply find_some in E as [Hin Hb]. apply Z.eqb_eq in Hb. now apply H in Hin.
Qed.

Lemma rb_delete_find_none t a n :
  rb_find t a = None -> rb_find (rb_delete t n) a = None.
Proof.
  rewrite !rb_find_none. intros H x Hin. apply H. eapply rb_delete_In; eassumption.
Qed.

Lemma rb_delete_found t a n :
  tree_ok t -> rb_find t a = Some n -> rb_find (rb_delete t n) a = None.
Proof.
  intros [Hnd _] Hf. apply rb_find_some in Hf as [Hin Hb]. subst a.
  apply rb_find_none. intros x Hx Hbx.
  induction t as [|m t IH]; simpl in *; [tauto|].
  apply NoDup_cons in Hnd as [Hm Hnd].
  destruct (node_eqb m n) eqn:E.
  - apply node_eqb_eq in E. subst m. apply Hm.
    apply list_elem_of_In. apply in_map_iff. exists x. split; assumption.
  - destruct Hin as [-> | Hin].
    + assert (node_eqb n n = true) by now apply node_eqb_eq. congruence.
    + destruct Hx as [-> | Hx].
      * apply Hm. apply list_elem_of_In. apply in_map_iff. exists n. split; [congruence | assumption].
      * now apply IH.
Qed.

Lemma slot_set_slot l i e j :
  0 <= i -> 0 <= j -> (Z.to_nat i < length l)%nat ->
  slot (set_slot l i e) j = if j =? i then e else slot l j.
Proof.
  intros Hi Hj Hlen. unfold slot, set_slot.
  destruct (Z.eqb_spec j i) as [-> | Hne].
  - now rewrite list_lookup_insert_eq.
  - rewrite list_lookup_insert_ne by lia. reflexivity.
Qed.

Lemma heap_destroy_loop_spec h n :
  forall i l t,
    0 <= i -> (Z.to_nat i + n <= length l)%nat -> tree_ok t ->
    let '(l', t') := heap_destroy_loop n i l t h in
    length l' = length l
    /\ (forall j, 0 <= j ->
          slot l' j
          = if (i <=? j) && (j <? i + Z.of_nat n) && (heap (slot l j) =? h)
            then mk_delay_free NULL (heap (slot l j)) else slot l j)
    /\ tree_ok t'
    /\ (forall x, In x t' -> In x t)
    /\ (forall j, i <= j < i + Z.of_nat n -> heap (slot l j) = h ->
          rb_find t' (addr (slot l j)) = None)
    /\ (forall x, In x t ->
          (forall j, i <= j < i + Z.of_nat n -> heap (slot l j) = h ->
             addr (slot l j) <> base x) ->
          In x t').
Proof.
  induction n as [|n IH]; intros i l t Hi Hlen Hok; simpl heap_destroy_loop.
  - split; [reflexivity|]. split; [|split; [assumption|split; [tauto|split]]].
    + intros j Hj.
      destruct (Z.leb_spec i j), (Z.ltb_spec j (i + Z.of_nat 0)); simpl;
        reflexivity || lia.
    + intros j Hj. lia.
    + tauto.
  - destruct (Z.eqb_spec (heap (slot l i)) h) as [Hh | Hh].
    + set (t1 := match rb_find t (addr (slot l i)) with
                 | Some node => rb_delete t node
                 | None => t
                 end).
      set (l1 := set_slot l i (mk_delay_free NULL (heap (slot l i)))).
      assert (Hok1 : tree_ok t1).
      { subst t1. destruct (rb_find t _); [now apply rb_delete_ok | assumption]. }
      assert (Hsub1 : forall x, In x t1 -> In x t).
      { subst t1. destruct (rb_find t _); [apply rb_delete_In | tauto]. }
      assert (Hnone1 : rb_find t1 (addr (slot l i)) = None).
      { subst t1. destruct (rb_find t _) eqn:E; [now apply rb_delete_found | assumption]. }
      assert (Hkeep1 : forall x, In x t -> addr (slot l i) <> base x -> In x t1).
      { subst t1. intros x Hx Hne. destruct (rb_find t _) as [node|] eqn:E; [|assumption].
        apply rb_delete_keeps; [assumption|]. intros ->.
        apply rb_find_some in E as [_ E]. congruence. }
      assert (Hl1 : forall j, 0 <= j ->
                 slot l1 j = if j =? i then mk_delay_free NULL (heap (slot l i))
                             else slot l j).
      { intros j Hj. subst l1. apply slot_set_slot; lia. }
      specialize (IH (i + 1) l1 t1 ltac:(lia)).
      assert (Hlen1 : length l1 = length l) by (subst l1; apply length_insert).
      specialize (IH ltac:(lia) Hok1).
      destruct (heap_destroy_loop n (i + 1) l1 t1 h) as [l' t'].
      destruct IH as (IHlen & IHslot & IHok & IHsub & IHnone & IHkeep).
      split; [congruence|]. split; [|split; [assumption|split; [|split]]].
      * intros j Hj. rewrite (IHslot j Hj), (Hl1 j Hj).
        destruct (Z.eqb_spec j i) as [-> | Hne].
        -- simpl heap. simpl addr. rewrite Hh.
           zcases; simpl; reflexivity || lia.
        -- zcases; simpl; reflexivity || lia.
      * intros x Hx. apply Hsub1, IHsub, Hx.
      * intros j Hj Hjh. destruct (Z.eq_dec j i) as [-> | Hne].
        -- rewrite rb_find_none. intros x Hx. rewrite rb_find_none in Hnone1.
           apply Hnone1, IHsub, Hx.
        -- specialize (IHnone j ltac:(lia)). rewrite (Hl1 j ltac:(lia)) in IHnone.
           destruct (Z.eqb_spec j i); [contradiction|]. now apply IHnone.
      * intros x Hx Hfree. apply IHkeep.
        -- apply Hkeep1; [assumption|]. apply Hfree; [lia | assumption].
        -- intros j Hj Hjh. rewrite (Hl1 j ltac:(lia)) in *.
           destruct (Z.eqb_spec j i); [lia|]. apply Hfree; [lia | assumption].
    + specialize (IH (i + 1) l t ltac:(lia) ltac:(lia) Hok).
      destruct (heap_destroy_loop n (i + 1) l t h) as [l' t'].
      destruct IH as (IHlen & IHslot & IHok & IHsub & IHnone & IHkeep).
      split; [assumption|]. split; [|split; [assumption|split; [assumption|split]]].
      * intros j Hj. rewrite (IHslot j Hj).
        destruct (Z.eq_dec j i) as [-> | Hne].
        -- zcases; simpl; reflexivity || lia || contradiction.
        -- zcases; simpl; reflexivity || lia.
      * intros j Hj Hjh. destruct (Z.eq_dec j i) as [-> | Hne]; [contradiction|].
        apply IHnone; [lia | assumption].
      * intros x Hx Hfree. apply IHkeep; [assumption|].
        intros j Hj Hjh. apply Hfree; [lia | assumption].
Qed.

Lemma rb_place_perm x t : Permutation (rb_place x t) (x :: t).
Proof.
  induction t as [|m t IH]; simpl; [reflexivity|].
  destruct (base x <? base m); [reflexivity|].
  rewrite IH. apply perm_swap.
Qed.

Lemma rb_insert_ok t b s c :
  tree_ok t -> 0 <= s -> tree_ok (snd (rb_insert t b s c)).
Proof.
  intros [Hnd Hsz] Hs. unfold rb_insert.
  destruct (List.find (conflicts b s) t) as [n|] eqn:E; simpl; [split; assumption|].
  split.
  - rewrite (rb_place_perm _ t). simpl. apply NoDup_cons. split; [|assumption].
    intros Hin. apply list_elem_of_In, in_map_iff in Hin as (n & Hb & Hin).
    pose proof (find_none _ _ E n Hin) as Hc. unfold conflicts in Hc.
    rewrite Forall_forall in Hsz. apply list_elem_of_In, Hsz in Hin.
    rewrite Hb in Hc.
    destruct (Z.leb_spec b (b + s)), (Z.leb_spec b (b + size n));
      simpl in Hc; discriminate || lia.
  - rewrite (rb_place_perm _ t). apply Forall_cons. split; assumption.
Qed.

Lemma delay_free_enqueue_tree_ok options q base size real_base heap_in :
  tree_ok (delay_free_tree q) -> 0 <= size -> 0 <= redzone_size options ->
  tree_ok (delay_free_tree
             (snd (delay_free_enqueue options q base size real_base heap_in))).
Proof.
  intros Hok Hs Hrz. unfold delay_free_enqueue.
  set (real_size := if negb (base =? real_base) then _ else _).
  assert (Hrs : 0 <= real_size) by (subst real_size; destruct (negb _); lia).
  pose proof (rb_insert_ok _ real_base real_size (Z.b2z (base =? real_base)) Hok Hrs)
    as Hok1.
  destruct (DELAY_FREE_FULL options q); simpl.
  - match goal with |- tree_ok (if ?c then _ else _) => destruct c end;
      [|exact Hok1].
    destruct (rb_find _ _); [now apply rb_delete_ok | exact Hok1].
  - exact Hok1.
Qed.

(** C8: [client_handle_heap_destroy] leaves [head], [fill] and the
    length of the array alone; every slot below [fill] whose heap is
    [h] gets the address NULL, and no node of the tree starts at the
    address it held; every other slot is unchanged; the sweep only
    removes nodes, and only nodes that start at the address of a swept
    slot; and a free that then evicts a swept slot returns NULL. *)
Theorem client_handle_heap_destroy_sweep q h :
  tree_ok (delay_free_tree q) ->
  0 <= delay_free_fill q <= Z.of_nat (length (delay_free_list q)) ->
  let q' := client_handle_heap_destroy q h in
  let l := delay_free_list q in
  let l' := delay_free_list q' in
  delay_free_head q' = delay_free_head q
  /\ delay_free_fill q' = delay_free_fill q
  /\ length l' = length l
  /\ (forall i, 0 <= i < delay_free_fill q -> heap (slot l i) = h ->
        slot l' i = mk_delay_free NULL h
        /\ rb_find (delay_free_tree q') (addr (slot l i)) = None)
  /\ (forall i, 0 <= i -> delay_free_fill q <= i \/ heap (slot l i) <> h ->
        slot l' i = slot l i)
  /\ (forall n, In n (delay_free_tree q') -> In n (delay_free_tree q))
  /\ (forall n, In n (delay_free_tree q) ->
        (forall i, 0 <= i < delay_free_fill q -> heap (slot l i) = h ->
           addr (slot l i) <> base n) ->
        In n (delay_free_tree q'))
  /\ (forall options sh base size real_base heap_in,
        shadow_on options = true ->
        delay_free_fill q = delay_frees options ->
        0 <= delay_free_head q < delay_free_fill q ->
        heap (slot l (delay_free_head q)) = h ->
        fst (fst (client_handle_free options (mk_state sh q')
                    base size real_base heap_in)) = NULL).
Proof.
  intros Hok Hfill q' l l'.
  pose proof (heap_destroy_loop_spec h (Z.to_nat (delay_free_fill q)) 0
                (delay_free_list q) (delay_free_tree q)
                ltac:(lia) ltac:(lia) Hok) as Hspec.
  subst q' l l'. unfold client_handle_heap_destroy.
  destruct (heap_destroy_loop _ 0 _ _ h) as [l' t'].
  destruct Hspec as (Hlen & Hslot & Hok' & Hsub & Hnone & Hkeep). simpl.
  assert (Hinv : forall i, 0 <= i < delay_free_fill q ->
            heap (slot (delay_free_list q) i) = h ->
            slot l' i = mk_delay_free NULL h).
  { intros i Hi Hh. rewrite (Hslot i ltac:(lia)), Hh.
    zcases; simpl; reflexivity || lia. }
  split; [reflexivity|]. split; [reflexivity|]. split; [assumption|].
  split; [|split; [|split; [assumption|split]]].
  - intros i Hi Hh. split; [now apply Hinv|]. apply Hnone; [lia | assumption].
  - intros i Hi Hout. rewrite (Hslot i Hi).
    zcases; simpl; try reflexivity. destruct Hout; [lia | contradiction].
  - intros n Hn Hfree. apply Hkeep; [assumption|].
    intros j Hj. apply Hfree. lia.
  - intros options sh base size real_base heap_in Hon Hfull Hhead Hh.
    unfold client_handle_free. rewrite Hon. simpl.
    replace (delay_frees options >? 0) with true
      by (symmetry; apply Z.gtb_lt; lia).
    unfold delay_free_enqueue, DELAY_FREE_FULL. simpl.
    rewrite Hfull, Z.eqb_refl. rewrite <- Hfull. simpl.
    rewrite (Hinv _ Hhead Hh). reflexivity.
Qed.

Lemma two_heap_quarantine_run :
  dfree (snd (run_frees (full_options 0 2) (empty_state 2)
                [mk_free 0x1000 0x20 0x1000 7; mk_free 0x2000 0x30 0x2000 9]))
  = two_heap_quarantine.
Proof. reflexivity. Qed.

Lemma two_heap_quarantine_ok : tree_ok (delay_free_tree two_heap_quarantine).
Proof.
  split.
  - simpl. apply NoDup_cons. split; [|apply NoDup_singleton].
    intros Hin. apply list_elem_of_In in Hin. simpl in Hin.
    destruct Hin as [Hin | []]. discriminate.
  - repeat constructor; simpl; lia.
Qed.

Lemma client_handle_heap_destroy_sweep_witness :
  let q' := client_handle_heap_destroy two_heap_quarantine 7 in
  slot (delay_free_list q') 0 = mk_delay_free NULL 7
  /\ rb_find (delay_free_tree q') 0x1000 = None
  /\ slot (delay_free_list q') 1 = mk_delay_free 0x2000 9
  /\ fst (fst (client_handle_free (full_options 0 2)
                 (mk_state all_unaddressable q') 0x3000 0x40 0x3000 9)) = NULL.
Proof.
  assert (Hfill : 0 <= delay_free_fill two_heap_quarantine
                  <= Z.of_nat (length (delay_free_list two_heap_quarantine)))
    by (simpl; lia).
  destruct (client_handle_heap_destroy_sweep two_heap_quarantine 7
              two_heap_quarantine_ok Hfill)
    as (_ & _ & _ & Hswept & Hkept & _ & _ & Hevict).
  split; [|split; [|split]].
  - apply (Hswept 0); [simpl; lia | reflexivity].
  - apply (Hswept 0); [simpl; lia | reflexivity].
  - apply (Hkept 1); [lia | right; discriminate].
  - apply Hevict; [reflexivity | reflexivity | simpl; lia | reflexivity].
Defined.

(** ** The overlap query of the quarantine *)

Lemma enqueue_not_full_tree options q base size real_base heap_in :
  delay_free_fill q <> delay_frees options ->
  delay_free_tree (snd (delay_free_enqueue options q base size real_base heap_in))
  = snd (rb_insert (delay_free_tree q) real_base
           (if negb (base =? real_base) then size + 2 * redzone_size options
            else size)
           (Z.b2z (base =? real_base))).
Proof.
  intros Hne. unfold delay_free_enqueue, DELAY_FREE_FULL.
  destruct (Z.eqb_spec (delay_free_fill q) (delay_frees options));
    [contradiction | reflexivity].
Qed.

(** What the query answers for a block freed with redzones into an
    empty quarantine: the node carries the payload [base == real_base],
    which is 0 for such a block, so the test on the body is skipped and
    every range that overlaps the real range, redzones included, is a
    hit. *)
Lemma overlaps_delayed_free_real_range options sh slots base size real_base
    heap_in start end_ :
  shadow_on options = true ->
  0 < delay_frees options ->
  base <> real_base ->
  let q := dfree (snd (client_handle_free options
                         (mk_state sh (delay_free_init slots))
                         base size real_base heap_in)) in
  overlaps_delayed_free options q start end_
  = if (real_base <? end_)
       && (start <? real_base + (size + 2 * redzone_size options))
    then Some (real_base + redzone_size options,
               real_base + size + redzone_size options)
    else None.
Proof.
  intros Hon Hn Hne q.
  assert (Ht : delay_free_tree q
               = [mk_node real_base (size + 2 * redzone_size options) 0]).
  { subst q. rewrite client_handle_free_on by assumption.
    pose proof (enqueue_not_full_tree options (delay_free_init slots)
                  base size real_base heap_in) as Hq.
    destruct (delay_free_enqueue _ _ _ _ _ _) as [[p ho] q]. simpl in *.
    rewrite Hq by lia.
    destruct (Z.eqb_spec base real_base); [contradiction | reflexivity]. }
  unfold overlaps_delayed_free, rb_overlaps_node. rewrite Ht. simpl.
  unfold overlaps. simpl.
  destruct ((real_base <? end_) && _); [|reflexivity]. simpl.
  do 2 f_equal. lia.
Qed.

(** The other side of the same payload: a block freed without redzones
    ([base = real_base]) is read back as having them, so with
    [redzone_size = 8] an access to its first bytes is no hit, and a
    hit reports bounds shrunk by a redzone at each end. *)
Lemma overlaps_delayed_free_no_redzone_miss :
  let options := full_options 8 2 in
  let q := dfree (snd (client_handle_free options (empty_state 2)
                         0x5000 0x20 0x5000 0)) in
  delay_free_tree q = [mk_node 0x5000 0x20 1]
  /\ overlaps_delayed_free options q 0x5000 0x5004 = None
  /\ overlaps_delayed_free options q 0x5008 0x5010 = Some (0x5008, 0x5018).
Proof.
  repeat split.
Qed.

(** C2, at the input where the code departs from it: with
    [redzone_size = 8], the block of real range [0x4000, 0x4030) freed
    with redzones is in the tree with payload 0; the query for
    [0x4000, 0x4008), which lies in the leading redzone, returns the
    body bounds [(0x4008, 0x4028)] instead of no hit; the query for
    [0x4010, 0x4018) returns the body bounds as well. *)
Theorem overlaps_delayed_free_redzone_hit :
  let options := full_options 8 2 in
  let q := dfree (snd (client_handle_free options (empty_state 2)
                         0x4008 0x20 0x4000 0)) in
  delay_free_tree q = [mk_node 0x4000 0x30 0]
  /\ overlaps_delayed_free options q 0x4000 0x4008 = Some (0x4008, 0x4028)
  /\ overlaps_delayed_free options q 0x4010 0x4018 = Some (0x4008, 0x4028).
Proof.
  repeat split.
Qed.

(** ** The anonymous-mmap table *)

Lemma mmap_tree_add_disjoint t base size :
  List.find (conflicts base size) t = None ->
  mmap_tree_add t base size = rb_place (mk_node base size NULL) t.
Proof.
  intros H. unfold mmap_tree_add, rb_insert. now rewrite H.
Qed.

Lemma mmap_tree_add_merge t base size n :
  List.find (conflicts base size) t = Some n ->
  let lo := Z.min base (RB.base n) in
  let hi := Z.max (base + size) (RB.base n + RB.size n) in
  List.find (conflicts lo (hi - lo)) (rb_delete t n) = None ->
  mmap_tree_add t base size = rb_place (mk_node lo (hi - lo) NULL) (rb_delete t n).
Proof.
  intros Hf lo hi Hfree. unfold mmap_tree_add.
  unfold rb_insert at 1. rewrite Hf. unfold rb_node_fields. cbv zeta.
  match goal with
  | |- snd (rb_insert _ ?b (?e - _) _) = _ =>
      assert (Hlo : b = lo) by (subst lo; zcases; lia);
      assert (Hhi : e = hi) by (subst hi; zcases; lia);
      rewrite Hlo, Hhi
  end.
  unfold rb_insert. now rewrite Hfree.
Qed.

Lemma rb_place_filter p x t :
  p x = false -> List.filter p (rb_place x t) = List.filter p t.
Proof.
  intros Hx. induction t as [|m t IH]; simpl.
  - now rewrite Hx.
  - destruct (base x <? base m); simpl.
    + now rewrite Hx.
    + now rewrite IH.
Qed.

Lemma rb_insert_filter p t b s c :
  p (mk_node b s c) = false ->
  List.filter p (snd (rb_insert t b s c)) = List.filter p t.
Proof.
  intros Hx. unfold rb_insert. destruct (List.find _ t); simpl; [reflexivity|].
  now apply rb_place_filter.
Qed.

Lemma rb_delete_filter p t n :
  List.find p t = Some n ->
  S (length (List.filter p (rb_delete t n))) = length (List.filter p t).
Proof.
  induction t as [|m t IH]; simpl; [discriminate|].
  destruct (p m) eqn:Hm.
  - intros [= ->]. now rewrite (proj2 (node_eqb_eq n n) eq_refl).
  - intros Hf. destruct (node_eqb m n) eqn:E.
    + apply node_eqb_eq in E. subst m. apply find_some in Hf as [_ Hf]. congruence.
    + simpl. rewrite Hm. now apply IH.
Qed.

Lemma mmap_tree_remove_loop_total base size fuel :
  forall t res,
    Nat.le (length (List.filter (overlaps base (base + size)) t)) fuel ->
    exists t',
      mmap_tree_remove_loop fuel t base size res
      = Some (res || bool_decide (rb_overlaps_node t base (base + size) <> None), t')
      /\ rb_overlaps_node t' base (base + size) = None.
Proof.
  induction fuel as [|fuel IH]; intros t res Hfuel.
  - unfold mmap_tree_remove_loop.
    destruct (rb_overlaps_node t base (base + size)) as [node|] eqn:E.
    + unfold rb_overlaps_node in E. apply rb_delete_filter in E. lia.
    + exists t. rewrite bool_decide_eq_false_2 by (intros H; now apply H).
      now rewrite orb_false_r.
  - simpl. destruct (rb_overlaps_node t base (base + size)) as [node|] eqn:E.
    + set (t1 := rb_delete t node).
      set (t2 := if RB.base node <? base
                 then snd (rb_insert t1 (RB.base node) (base - RB.base node) NULL)
                 else t1).
      set (t3 := if RB.base node + RB.size node >? base + size
                 then snd (rb_insert t2 (base + size)
                             (RB.base node + RB.size node - (base + size)) NULL)
                 else t2).
      assert (H1 : S (length (List.filter (overlaps base (base + size)) t1))
                   = length (List.filter (overlaps base (base + size)) t))
        by now apply rb_delete_filter.
      assert (H2 : List.filter (overlaps base (base + size)) t2
                   = List.filter (overlaps base (base + size)) t1).
      { subst t2. destruct (RB.base node <? base); [|reflexivity].
        apply rb_insert_filter. unfold overlaps. simpl.
        apply andb_false_iff. right. apply Z.ltb_ge. lia. }
      assert (H3 : List.filter (overlaps base (base + size)) t3
                   = List.filter (overlaps base (base + size)) t2).
      { subst t3. destruct (_ >? _); [|reflexivity].
        apply rb_insert_filter. unfold overlaps. simpl.
        apply andb_false_iff. left. apply Z.ltb_ge. lia. }
      destruct (IH t3 true) as (t' & Hrun & Hnone).
      { rewrite H3, H2. lia. }
      exists t'. split; [|assumption]. rewrite Hrun.
      rewrite (bool_decide_eq_true_2 (Some node <> None)) by done.
      now rewrite orb_true_r.
    + exists t. rewrite bool_decide_eq_false_2 by (intros H; now apply H).
      rewrite orb_false_r. split; [reflexivity | assumption].
Qed.

Lemma mmap_tree_remove_total t base size :
  exists t',
    mmap_tree_remove t base size
    = Some (bool_decide (rb_overlaps_node t base (base + size) <> None), t')
    /\ rb_overlaps_node t' base (base + size) = None.
Proof.
  unfold mmap_tree_remove.
  apply (mmap_tree_remove_loop_total base size (length t) t false).
  apply filter_length_le.
Qed.

(** The scenario of two adjacent mappings: they are merged into one
    interval, and unmapping the second half of the first splits it. *)
Lemma mmap_scenario_merge_then_split :
  let t := mmap_tree_add (mmap_tree_add rb_tree_create 0x10000 0x1000)
             0x11000 0x1000 in
  intervals t = [(0x10000, 0x2000)]
  /\ option_map (fun r => (fst r, intervals (snd r)))
       (mmap_tree_remove t 0x10800 0x800)
     = Some (true, [(0x10000, 0x800); (0x11000, 0x1000)]).
Proof.
  repeat split.
Qed.

(** A mapping that fills the gap between two tracked mappings touches
    both: the first is unlinked, the union is refused because of the
    second, and only the second stays. *)
Lemma mmap_tree_add_fills_gap :
  let t := mmap_tree_add (mmap_tree_add rb_tree_create 0x10000 0x1000)
             0x12000 0x1000 in
  intervals (mmap_tree_add t 0x11000 0x1000) = [(0x12000, 0x1000)].
Proof.
  reflexivity.
Qed.

(** C3, at the input where the code departs from it: with the
    intervals [(0x10000, 0x1000)] and [(0x12000, 0x1000)] in the tree,
    adding [(0x10800, 0x2000)], which overlaps both, unlinks the first,
    fails to insert the union because the second is in the way, and
    leaves [(0x12000, 0x1000)] alone in the tree: no single node spans
    the union, and the lookup of [0x10800] finds nothing. *)
Theorem mmap_tree_add_two_overlaps :
  let t := mmap_tree_add (mmap_tree_add rb_tree_create 0x10000 0x1000)
             0x12000 0x1000 in
  intervals t = [(0x10000, 0x1000); (0x12000, 0x1000)]
  /\ intervals (mmap_tree_add t 0x10800 0x2000) = [(0x12000, 0x1000)]
  /\ mmap_anon_lookup (mmap_tree_add t 0x10800 0x2000) 0x10800 = None.
Proof.
  repeat split.
Qed.

(** ** The shared-callstack table *)

Lemma map_inj_In {A B : Type} (f : A -> B) (l : list A) x y :
  NoDup (map f l) -> In x l -> In y l -> f x = f y -> x = y.
Proof.
  induction l as [|a l IH]; simpl; [tauto|].
  intros Hnd Hx Hy Hf. apply NoDup_cons in Hnd as [Ha Hnd].
  assert (Hnot : forall z, In z l -> f a <> f z).
  { intros z Hz Heq. apply Ha. rewrite Heq.
    apply list_elem_of_In, in_map, Hz. }
  destruct Hx as [-> | Hx], Hy as [-> | Hy].
  - reflexivity.
  - now apply Hnot in Hy.
  - symmetry in Hf. now apply Hnot in Hx.
  - now apply IH.
Qed.

Lemma hashtable_lookup_some hp tb k p :
  hashtable_lookup hp tb k = Some p ->
  exists e, In e tb /\ snd e = p /\ frames_at hp (fst e) = frames_at hp k.
Proof.
  unfold hashtable_lookup. destruct (List.find _ tb) as [e|] eqn:E; [|discriminate].
  intros [= <-]. apply find_some in E as [Hin Hc].
  exists e. repeat split; [assumption|].
  unfold packed_callstack_cmp in Hc. now apply bool_decide_eq_true in Hc.
Qed.

Lemma hashtable_lookup_none hp tb k e :
  hashtable_lookup hp tb k = None -> In e tb ->
  frames_at hp (fst e) <> frames_at hp k.
Proof.
  unfold hashtable_lookup. destruct (List.find _ tb) as [e'|] eqn:E; [discriminate|].
  intros _ Hin. apply (find_none _ _ E) in Hin.
  unfold packed_callstack_cmp in Hin. now apply bool_decide_eq_false in Hin.
Qed.

Lemma hashtable_lookup_ext hp hp' tb k :
  (forall q, frames_at hp' q = frames_at hp q) ->
  hashtable_lookup hp' tb k = hashtable_lookup hp tb k.
Proof.
  intros Hext. unfold hashtable_lookup. f_equal.
  induction tb as [|e tb IH]; simpl; [reflexivity|].
  unfold packed_callstack_cmp at 1 3. rewrite !Hext. now rewrite IH.
Qed.

Lemma table_unlink_ext hp hp' tb k :
  (forall q, frames_at hp' q = frames_at hp q) ->
  table_unlink hp' tb k = table_unlink hp tb k.
Proof.
  intros Hext. induction tb as [|e tb IH]; simpl; [reflexivity|].
  unfold packed_callstack_cmp at 1 2. rewrite !Hext. now rewrite IH.
Qed.

Lemma hashtable_lookup_held hp tb d :
  NoDup (map (fun e => frames_at hp (fst e)) tb) ->
  In (d, d) tb ->
  hashtable_lookup hp tb d = Some d.
Proof.
  intros Hnd Hin.
  destruct (hashtable_lookup hp tb d) as [p|] eqn:E.
  - apply hashtable_lookup_some in E as (e & He & Hp & Hf).
    assert (e = (d, d)) as ->
      by (apply (map_inj_In _ _ _ _ Hnd He Hin); exact Hf).
    simpl in Hp. now subst.
  - exfalso. now apply (hashtable_lookup_none _ _ _ _ E Hin).
Qed.

Lemma table_unlink_In hp tb k e :
  In e (table_unlink hp tb k) -> In e tb.
Proof.
  induction tb as [|a tb IH]; simpl; [tauto|].
  destruct (packed_callstack_cmp hp (fst a) k); simpl; tauto.
Qed.

Lemma table_unlink_sublist hp tb k : sublist (table_unlink hp tb k) tb.
Proof.
  induction tb as [|a tb IH]; simpl; [constructor|].
  destruct (packed_callstack_cmp hp (fst a) k).
  - now apply sublist_cons.
  - now apply sublist_skip.
Qed.

Lemma table_unlink_held hp tb d e :
  NoDup (map (fun e => frames_at hp (fst e)) tb) ->
  In (d, d) tb ->
  In e (table_unlink hp tb d) <-> In e tb /\ e <> (d, d).
Proof.
  intros Hnd Hd. induction tb as [|a tb IH]; simpl; [tauto|].
  simpl in Hnd. pose proof Hnd as Hnd0. apply NoDup_cons in Hnd as [Ha Hnd].
  destruct (packed_callstack_cmp hp (fst a) d) eqn:Hc.
  - apply bool_decide_eq_true in Hc.
    assert (a = (d, d)) as ->.
    { apply (map_inj_In (fun e => frames_at hp (fst e)) (a :: tb) _ _ Hnd0);
        [now left | exact Hd | exact Hc]. }
    split.
    + intros Hin. split; [now right|]. intros ->. apply Ha.
      apply list_elem_of_In. apply (in_map (fun e => frames_at hp (fst e))) in Hin.
      exact Hin.
    + intros [[<- | Hin] Hne]; [contradiction | assumption].
  - apply bool_decide_eq_false in Hc.
    destruct Hd as [-> | Hd]; [now simpl in Hc|].
    specialize (IH Hnd Hd). simpl. rewrite IH. split.
    + intros [<- | [Hin Hne]].
      * split; [now left|]. intros ->. now simpl in Hc.
      * split; [now right | assumption].
    + intros [[<- | Hin] Hne]; [now left | right; now split].
Qed.

Lemma count_remove_one d l x :
  count_occ Z.eq_dec (remove_one d l) x
  = if Z.eq_dec x d then Nat.pred (count_occ Z.eq_dec l x)
    else count_occ Z.eq_dec l x.
Proof.
  induction l as [|a l IH]; simpl.
  - now destruct (Z.eq_dec x d).
  - destruct (Z.eqb_spec a d) as [-> | Hne].
    + destruct (Z.eq_dec d x) as [-> | Hdx].
      * now destruct (Z.eq_dec x x).
      * destruct (Z.eq_dec x d); [congruence | reflexivity].
    + simpl. destruct (Z.eq_dec a x) as [-> | Hax].
      * destruct (Z.eq_dec x d); [congruence|]. now rewrite IH; destruct (Z.eq_dec x d).
      * exact IH.
Qed.

Lemma remove_one_In d l x : In x (remove_one d l) -> In x l.
Proof.
  induction l as [|a l IH]; simpl; [tauto|].
  destruct (a =? d); simpl; tauto.
Qed.

Lemma holders_cons st rs d p :
  holders (mk_world st (d :: rs)) p
  = holders (mk_world st rs) p + (if Z.eq_dec d p then 1 else 0).
Proof.
  unfold holders. simpl. destruct (Z.eq_dec d p); lia.
Qed.

Lemma table_inv_held w (d : Z) :
  table_inv w -> In d (records w) ->
  In (d, d) (alloc_stack_table (astack w))
  /\ d <> NULL
  /\ exists pcs, pcs_heap (astack w) !! d = Some pcs
                 /\ refcount pcs = 1 + holders w d
                 /\ 1 <= holders w d.
Proof.
  intros (Hnull & Hnd & Hent & Hrec) Hd.
  rewrite Forall_forall in Hrec. rewrite Forall_forall in Hent.
  assert (Hin : In (d, d) (alloc_stack_table (astack w)))
    by (apply Hrec, list_elem_of_In, Hd).
  destruct (Hent (d, d) (proj2 (list_elem_of_In _ _) Hin)) as (_ & pcs & Hp & Hr).
  simpl in Hp, Hr. split; [assumption|].
  split; [intros ->; congruence|].
  exists pcs. repeat split; try assumption.
  unfold holders. apply (count_occ_In Z.eq_dec) in Hd. lia.
Qed.

Lemma table_inv_add_ref w (p : Z) pcs hp' :
  table_inv w ->
  In (p, p) (alloc_stack_table (astack w)) ->
  pcs_heap (astack w) !! p = Some pcs ->
  (forall q, hp' !! q
             = if Z.eq_dec q p then Some (mk_pcs (frames pcs) (refcount pcs + 1))
               else pcs_heap (astack w) !! q) ->
  table_inv (mk_world (mk_astack hp' (alloc_stack_table (astack w)))
               (p :: records w)).
Proof.
  intros (Hnull & Hnd & Hent & Hrec) Hin Hp Hhp'.
  assert (Hfr : forall q, frames_at hp' q = frames_at (pcs_heap (astack w)) q).
  { intros q. unfold frames_at. rewrite Hhp'.
    destruct (Z.eq_dec q p) as [-> | _]; [|reflexivity]. now rewrite Hp. }
  unfold table_inv. simpl. split; [|split; [|split]].
  - rewrite Hhp'. destruct (Z.eq_dec NULL p) as [<- | _]; [congruence | assumption].
  - erewrite map_ext; [exact Hnd|]. intros e. apply Hfr.
  - rewrite Forall_forall in *. intros e He. destruct (Hent e He) as (Hk & pe & Hpe & Hr).
    split; [assumption|]. unfold entry_ok. simpl. rewrite Hhp'.
    rewrite holders_cons.
    destruct (Z.eq_dec (fst e) p) as [Heq | Hne].
    + eexists. split; [reflexivity|]. simpl.
      destruct (Z.eq_dec p (fst e)); [|congruence].
      rewrite Heq in *. assert (pe = pcs) as -> by congruence.
      rewrite Hr. unfold holders. simpl. lia.
    + exists pe. split; [assumption|].
      destruct (Z.eq_dec p (fst e)); [congruence|].
      rewrite Hr. unfold holders. simpl. lia.
  - apply Forall_cons. split; assumption.
Qed.

Lemma table_inv_new_entry w (fresh : Z) fr hp' :
  table_inv w ->
  fresh <> NULL ->
  pcs_heap (astack w) !! fresh = None ->
  (forall e, In e (alloc_stack_table (astack w)) ->
             frames_at (pcs_heap (astack w)) (fst e) <> Some fr) ->
  (forall q, hp' !! q
             = if Z.eq_dec q fresh then Some (mk_pcs fr 2)
               else pcs_heap (astack w) !! q) ->
  table_inv (mk_world (mk_astack hp' ((fresh, fresh) :: alloc_stack_table (astack w)))
               (fresh :: records w)).
Proof.
  intros Hinv Hnn Hfresh Hnew Hhp'.
  pose proof Hinv as (Hnull & Hnd & Hent & Hrec).
  assert (Hkeys : forall e, In e (alloc_stack_table (astack w)) -> fst e <> fresh).
  { intros e He Heq. rewrite Forall_forall in Hent.
    destruct (Hent e (proj2 (list_elem_of_In _ _) He)) as (_ & pe & Hpe & _).
    congruence. }
  assert (Hfr : forall e, In e (alloc_stack_table (astack w)) ->
                  frames_at hp' (fst e) = frames_at (pcs_heap (astack w)) (fst e)).
  { intros e He. unfold frames_at. rewrite Hhp'.
    destruct (Z.eq_dec (fst e) fresh) as [Heq | _]; [|reflexivity].
    now apply Hkeys in He. }
  assert (Hnot : ~ In fresh (records w)).
  { intros Hd. destruct (table_inv_held w fresh Hinv Hd) as (_ & _ & pcs & Hp & _).
    congruence. }
  unfold table_inv. simpl. split; [|split; [|split]].
  - rewrite Hhp'. destruct (Z.eq_dec NULL fresh); [congruence | assumption].
  - apply NoDup_cons. split.
    + intros Hin. apply list_elem_of_In, in_map_iff in Hin as (e & Hf & He).
      rewrite (Hfr e He) in Hf. apply (Hnew e He). rewrite Hf.
      unfold frames_at. rewrite Hhp'. now destruct (Z.eq_dec fresh fresh).
    + erewrite map_ext_in; [exact Hnd|]. intros e He. now apply Hfr.
  - apply Forall_cons. split.
    + split; [reflexivity|]. simpl. rewrite Hhp'.
      destruct (Z.eq_dec fresh fresh); [|congruence].
      eexists. split; [reflexivity|]. simpl. rewrite holders_cons.
      destruct (Z.eq_dec fresh fresh); [|congruence].
      unfold holders. simpl.
      rewrite (proj1 (count_occ_not_In Z.eq_dec _ _) Hnot). lia.
    + rewrite Forall_forall in *. intros e He.
      destruct (Hent e He) as (Hk & pe & Hpe & Hr).
      apply list_elem_of_In in He.
      split; [assumption|]. simpl. rewrite Hhp'.
      destruct (Z.eq_dec (fst e) fresh) as [Heq | _]; [now apply Hkeys in He|].
      exists pe. split; [assumption|]. rewrite holders_cons.
      destruct (Z.eq_dec fresh (fst e)) as [Heq | _];
        [symmetry in Heq; now apply Hkeys in He|].
      rewrite Hr. unfold holders. simpl. lia.
  - apply Forall_cons. split; [now left|].
    rewrite Forall_forall in *. intros d Hd. right. now apply Hrec.
Qed.

Lemma holders_remove_one st rs (d p : Z) :
  holders (mk_world st (remove_one d rs)) p
  = holders (mk_world st rs) p
    - (if Z.eq_dec p d then Z.min 1 (holders (mk_world st rs) p) else 0).
Proof.
  unfold holders. simpl. rewrite count_remove_one.
  destruct (Z.eq_dec p d); lia.
Qed.

Lemma table_inv_release w (d : Z) pcs hp' :
  table_inv w ->
  In d (records w) ->
  pcs_heap (astack w) !! d = Some pcs ->
  (forall q, hp' !! q
             = if Z.eq_dec q d then Some (mk_pcs (frames pcs) (refcount pcs - 1))
               else pcs_heap (astack w) !! q) ->
  table_inv (mk_world (mk_astack hp' (alloc_stack_table (astack w)))
               (remove_one d (records w))).
Proof.
  intros Hinv Hd Hp Hhp'.
  destruct (table_inv_held w d Hinv Hd) as (Hin & Hnn & pcs' & Hp' & Hr & Hh).
  assert (pcs' = pcs) as -> by congruence.
  destruct Hinv as (Hnull & Hnd & Hent & Hrec).
  assert (Hfr : forall q, frames_at hp' q = frames_at (pcs_heap (astack w)) q).
  { intros q. unfold frames_at. rewrite Hhp'.
    destruct (Z.eq_dec q d) as [-> | _]; [|reflexivity]. now rewrite Hp. }
  unfold table_inv. simpl. split; [|split; [|split]].
  - rewrite Hhp'. destruct (Z.eq_dec NULL d); [congruence | assumption].
  - erewrite map_ext; [exact Hnd|]. intros e. apply Hfr.
  - rewrite Forall_forall in *. intros e He.
    destruct (Hent e He) as (Hk & pe & Hpe & Hre).
    split; [assumption|]. simpl. rewrite Hhp', holders_remove_one.
    destruct (Z.eq_dec (fst e) d) as [Heq | Hne].
    + eexists. split; [reflexivity|]. simpl. rewrite Heq.
      unfold holders in *. simpl. lia.
    + exists pe. split; [assumption|]. rewrite Hre. unfold holders. simpl. lia.
  - rewrite Forall_forall in *. intros x Hx.
    apply Hrec. apply list_elem_of_In. apply list_elem_of_In in Hx.
    eapply remove_one_In; eassumption.
Qed.

Lemma table_inv_release_last w (d : Z) pcs hp' :
  table_inv w ->
  In d (records w) ->
  pcs_heap (astack w) !! d = Some pcs ->
  refcount pcs = 2 ->
  (forall q, hp' !! q = if Z.eq_dec q d then None else pcs_heap (astack w) !! q) ->
  table_inv (mk_world
               (mk_astack hp'
                  (table_unlink (pcs_heap (astack w))
                     (alloc_stack_table (astack w)) d))
               (remove_one d (records w))).
Proof.
  intros Hinv Hd Hp Hr2 Hhp'.
  destruct (table_inv_held w d Hinv Hd) as (Hin & Hnn & pcs' & Hp' & Hr & Hh).
  assert (pcs' = pcs) as -> by congruence.
  destruct Hinv as (Hnull & Hnd & Hent & Hrec).
  assert (Hone : holders w d = 1) by lia.
  pose proof (fun e => table_unlink_held (pcs_heap (astack w))
                        (alloc_stack_table (astack w)) d e Hnd Hin) as Hunl.
  assert (Hkeys : forall e,
             In e (table_unlink (pcs_heap (astack w))
                     (alloc_stack_table (astack w)) d) ->
             In e (alloc_stack_table (astack w)) /\ fst e <> d).
  { intros e He. apply (Hunl e) in He as [He Hne].
    split; [assumption|]. intros Heq. apply Hne.
    rewrite Forall_forall in Hent.
    destruct (Hent e (proj2 (list_elem_of_In _ _) He)) as (Hk & _).
    destruct e as [k p]. simpl in *. congruence. }
  unfold table_inv. simpl. split; [|split; [|split]].
  - rewrite Hhp'. destruct (Z.eq_dec NULL d); [reflexivity | assumption].
  - erewrite map_ext_in.
    + apply (sublist_NoDup _ _ Hnd).
      apply (fmap_sublist (fun e : Z * Z => frames_at (pcs_heap (astack w)) (fst e))).
      apply table_unlink_sublist.
    + intros e He. apply Hkeys in He as [_ Hne]. unfold frames_at.
      rewrite Hhp'. destruct (Z.eq_dec (fst e) d); [contradiction | reflexivity].
  - rewrite Forall_forall in *. intros e He. apply list_elem_of_In in He.
    apply Hkeys in He as [He Hne].
    destruct (Hent e (proj2 (list_elem_of_In _ _) He)) as (Hk & pe & Hpe & Hre).
    split; [assumption|]. simpl. rewrite Hhp', holders_remove_one.
    destruct (Z.eq_dec (fst e) d); [contradiction|].
    exists pe. split; [assumption|]. rewrite Hre. unfold holders. simpl. lia.
  - rewrite Forall_forall in *. intros x Hx. apply list_elem_of_In in Hx.
    assert (Hxd : x <> d).
    { intros ->. apply (count_occ_In Z.eq_dec) in Hx.
      rewrite count_remove_one in Hx. destruct (Z.eq_dec d d); [|congruence].
      unfold holders in Hone. lia. }
    apply Hunl. split.
    + apply Hrec, list_elem_of_In. eapply remove_one_In; eassumption.
    + congruence.
Qed.

Lemma client_malloc_data_free_spec w (d : Z) :
  table_inv w ->
  In d (records w) ->
  exists pcs hp',
    pcs_heap (astack w) !! d = Some pcs
    /\ client_malloc_data_free (astack w) d
       = mk_astack hp'
           (if refcount pcs =? 2
            then table_unlink (pcs_heap (astack w)) (alloc_stack_table (astack w)) d
            else alloc_stack_table (astack w))
    /\ (forall q, hp' !! q
                  = if Z.eq_dec q d
                    then (if refcount pcs =? 2 then None
                          else Some (mk_pcs (frames pcs) (refcount pcs - 1)))
                    else pcs_heap (astack w) !! q).
Proof.
  intros Hinv Hd.
  destruct (table_inv_held w d Hinv Hd) as (Hin & Hnn & pcs & Hp & Hr & Hh).
  destruct Hinv as (Hnull & Hnd & Hent & Hrec).
  exists pcs. unfold client_malloc_data_free, packed_callstack_free. rewrite Hp.
  destruct (Z.eqb_spec (refcount pcs - 1) 0) as [E0 | _]; [lia|].
  set (hp1 := <[d := mk_pcs (frames pcs) (refcount pcs - 1)]> (pcs_heap (astack w))).
  assert (Hfr : forall q, frames_at hp1 q = frames_at (pcs_heap (astack w)) q).
  { intros q. unfold frames_at. subst hp1.
    destruct (Z.eq_dec q d) as [-> | Hne].
    - now rewrite lookup_insert_eq, Hp.
    - now rewrite lookup_insert_ne by congruence. }
  destruct (Z.eqb_spec (refcount pcs - 1) 1) as [E1 | E1].
  - destruct (Z.eqb_spec (refcount pcs) 2) as [_ | ?]; [|lia].
    unfold hashtable_remove. simpl.
    rewrite (hashtable_lookup_ext _ _ _ _ Hfr),
      (hashtable_lookup_held _ _ _ Hnd Hin).
    rewrite (table_unlink_ext _ _ _ _ Hfr).
    unfold alloc_callstack_free, packed_callstack_free. subst hp1.
    rewrite lookup_insert_eq. simpl.
    destruct (Z.eqb_spec (refcount pcs - 1 - 1) 0) as [_ | ?]; [|lia]. simpl.
    eexists. split; [reflexivity|]. split; [reflexivity|].
    intros q. destruct (Z.eq_dec q d) as [-> | Hne].
    + apply lookup_delete_eq.
    + rewrite lookup_delete_ne, lookup_insert_ne by congruence. reflexivity.
  - destruct (Z.eqb_spec (refcount pcs) 2) as [? | _]; [lia|].
    exists hp1. split; [reflexivity|]. split; [reflexivity|].
    intros q. subst hp1. destruct (Z.eq_dec q d) as [-> | Hne].
    + apply lookup_insert_eq.
    + apply lookup_insert_ne. congruence.
Qed.

Lemma table_inv_free w (d : Z) :
  table_inv w -> In d (records w) -> table_inv (handle_event w (EvFree d)).
Proof.
  intros Hinv Hd.
  destruct (client_malloc_data_free_spec w d Hinv Hd)
    as (pcs & hp' & Hp & Hfree & Hhp').
  unfold handle_event. rewrite Hfree.
  destruct (Z.eqb_spec (refcount pcs) 2) as [E | E].
  - now apply (table_inv_release_last w d pcs hp').
  - now apply (table_inv_release w d pcs hp').
Qed.

Lemma table_inv_malloc_existing w (d : Z) :
  table_inv w -> In d (records w) ->
  table_inv (handle_event w (EvMallocExisting d)).
Proof.
  intros Hinv Hd.
  destruct (table_inv_held w d Hinv Hd) as (Hin & Hnn & pcs & Hp & Hr & Hh).
  pose proof Hinv as (Hnull & Hnd & Hent & Hrec).
  unfold handle_event, client_add_malloc_pre.
  destruct (Z.eqb_spec d NULL) as [? | _]; [contradiction|]. simpl negb.
  cbv iota. unfold hashtable_add.
  rewrite (hashtable_lookup_held _ _ _ Hnd Hin). simpl.
  rewrite (hashtable_lookup_held _ _ _ Hnd Hin). simpl.
  unfold packed_callstack_add_ref. rewrite Hp.
  apply (table_inv_add_ref w d pcs); try assumption.
  intros q. destruct (Z.eq_dec q d) as [-> | Hne].
  - apply lookup_insert_eq.
  - apply lookup_insert_ne. congruence.
Qed.

Lemma table_inv_malloc w (fresh : Z) fr :
  table_inv w -> fresh <> NULL -> pcs_heap (astack w) !! fresh = None ->
  table_inv (handle_event w (EvMalloc fresh fr)).
Proof.
  intros Hinv Hnn Hfresh.
  pose proof Hinv as (Hnull & Hnd & Hent & Hrec).
  unfold handle_event, client_add_malloc_pre.
  rewrite Z.eqb_refl. simpl negb. cbv iota.
  unfold packed_callstack_record.
  set (hp0 := <[fresh := mk_pcs fr 1]> (pcs_heap (astack w))).
  assert (Hkeys : forall e, In e (alloc_stack_table (astack w)) ->
                    fst e <> fresh /\ snd e = fst e
                    /\ exists pe, pcs_heap (astack w) !! fst e = Some pe).
  { intros e He. rewrite Forall_forall in Hent.
    destruct (Hent e (proj2 (list_elem_of_In _ _) He)) as (Hk & pe & Hpe & _).
    split; [congruence|]. split; [assumption|]. now exists pe. }
  assert (Hfr0 : frames_at hp0 fresh = Some fr).
  { unfold frames_at. subst hp0. now rewrite lookup_insert_eq. }
  assert (Hfr : forall e, In e (alloc_stack_table (astack w)) ->
                  frames_at hp0 (fst e) = frames_at (pcs_heap (astack w)) (fst e)).
  { intros e He. apply Hkeys in He as [Hne _]. unfold frames_at. subst hp0.
    now rewrite lookup_insert_ne by congruence. }
  unfold hashtable_add.
  destruct (hashtable_lookup hp0 (alloc_stack_table (astack w)) fresh)
    as [p|] eqn:Hlk.
  - pose proof Hlk as Hlk0.
    apply hashtable_lookup_some in Hlk as (e & He & Hsnd & Hsame).
    destruct (Hkeys e He) as (Hne & Hk & pe & Hpe).
    assert (Hpk : p = fst e) by congruence.
    assert (Hin : In (p, p) (alloc_stack_table (astack w))).
    { destruct e as [k v]. simpl in *. now subst. }
    pose proof Hlk0 as Hlk1. cbv beta iota zeta. rewrite Hlk1.
    simpl. unfold packed_callstack_free. subst hp0.
    rewrite lookup_insert_eq. simpl.
    unfold packed_callstack_add_ref.
    rewrite lookup_delete_ne, lookup_insert_ne by congruence.
    rewrite Hpk at 1. rewrite Hpe.
    apply (table_inv_add_ref w p pe); try assumption; [congruence|].
    intros q. destruct (Z.eq_dec q p) as [-> | Hqp].
    + rewrite Hpk. apply lookup_insert_eq.
    + rewrite lookup_insert_ne by congruence.
      destruct (Z.eq_dec q fresh) as [-> | Hqf].
      * now rewrite lookup_delete_eq.
      * now rewrite lookup_delete_ne, lookup_insert_ne by congruence.
  - simpl. unfold packed_callstack_add_ref. subst hp0.
    rewrite lookup_insert_eq. simpl.
    apply (table_inv_new_entry w fresh fr); try assumption.
    + intros e He Hc.
      apply (hashtable_lookup_none _ _ _ e Hlk He).
      rewrite (Hfr e He), Hc. symmetry. exact Hfr0.
    + intros q. destruct (Z.eq_dec q fresh) as [-> | Hqf].
      * apply lookup_insert_eq.
      * now rewrite !lookup_insert_ne by congruence.
Qed.

Lemma table_inv_init : table_inv world_init.
Proof.
  unfold table_inv, world_init. simpl. repeat split.
  - apply NoDup_nil_2.
  - constructor.
  - constructor.
Qed.

Lemma reachable_inv w : reachable w -> table_inv w.
Proof.
  induction 1 as [|w ev Hreach IH Hok].
  - apply table_inv_init.
  - destruct ev as [fresh fr | d | d]; simpl in Hok.
    + destruct Hok. now apply table_inv_malloc.
    + now apply table_inv_malloc_existing.
    + now apply table_inv_free.
Qed.

(** C4: in every state reached by malloc-record and free-record
    events, no two entries of the callstack table have equal contents;
    every entry is live with a reference count of 1 plus the number of
    records that hold it; and releasing the data of a record drops the
    count by one, and when that leaves 1 (the count was 2) the entry is
    removed from the table, all other entries stay, and the storage of
    the callstack is freed. *)
Theorem callstack_table_invariant w :
  reachable w ->
  let hp := pcs_heap (astack w) in
  let tb := alloc_stack_table (astack w) in
  NoDup (map (fun e => frames_at hp (fst e)) tb)
  /\ (forall e, In e tb ->
        exists pcs, hp !! snd e = Some pcs
                    /\ refcount pcs = 1 + holders w (snd e))
  /\ (forall d, In d (records w) ->
        exists pcs, hp !! d = Some pcs
          /\ 2 <= refcount pcs
          /\ let st' := client_malloc_data_free (astack w) d in
             if refcount pcs =? 2 then
               (forall e, In e (alloc_stack_table st') -> snd e <> d)
               /\ (forall e, In e tb -> snd e <> d ->
                     In e (alloc_stack_table st'))
               /\ pcs_heap st' !! d = None
             else
               alloc_stack_table st' = tb
               /\ pcs_heap st' !! d
                  = Some (mk_pcs (frames pcs) (refcount pcs - 1))).
Proof.
  intros Hreach hp tb. pose proof (reachable_inv w Hreach) as Hinv.
  pose proof Hinv as (Hnull & Hnd & Hent & Hrec).
  split; [exact Hnd|]. split.
  - intros e He. rewrite Forall_forall in Hent.
    destruct (Hent e (proj2 (list_elem_of_In _ _) He)) as (Hk & pcs & Hp & Hr).
    exists pcs. rewrite Hk. split; assumption.
  - intros d Hd.
    destruct (table_inv_held w d Hinv Hd) as (Hin & Hnn & pcs0 & Hp0 & Hr0 & Hh0).
    destruct (client_malloc_data_free_spec w d Hinv Hd)
      as (pcs & hp' & Hp & Hfree & Hhp').
    assert (pcs0 = pcs) as -> by congruence.
    exists pcs. split; [assumption|]. split; [lia|].
    cbv zeta. rewrite Hfree. simpl.
    destruct (Z.eqb_spec (refcount pcs) 2) as [E | E].
    + split; [|split].
      * intros e He. apply (table_unlink_held _ _ d e Hnd Hin) in He as [He Hne].
        intros Hs. apply Hne. rewrite Forall_forall in Hent.
        destruct (Hent e (proj2 (list_elem_of_In _ _) He)) as (Hk & _).
        destruct e as [k p]. simpl in *. congruence.
      * intros e He Hne. apply (table_unlink_held _ _ d e Hnd Hin).
        split; [assumption|]. intros ->. now apply Hne.
      * rewrite Hhp'. now destruct (Z.eq_dec d d).
    + split; [reflexivity|]. rewrite Hhp'. now destruct (Z.eq_dec d d).
Qed.

Lemma scenario_world_reachable : reachable scenario_world.
Proof.
  unfold scenario_world.
  repeat (apply reach_step; [|split; [discriminate | vm_compute; reflexivity]]).
  apply reach_init.
Defined.

(** The scenario: two entries, the first callstack counted four times;
    three releases later it is gone from the table and from the heap. *)
Lemma scenario_table :
  let w3 := handle_event
              (handle_event (handle_event scenario_world (EvFree 100))
                 (EvFree 100))
              (EvFree 100) in
  alloc_stack_table (astack scenario_world) = [(400, 400); (100, 100)]
  /\ records scenario_world = [400; 100; 100; 100]
  /\ refcount <$> pcs_heap (astack scenario_world) !! 100 = Some 4
  /\ pcs_heap (astack scenario_world) !! 200 = None
  /\ alloc_stack_table (astack w3) = [(400, 400)]
  /\ pcs_heap (astack w3) !! 100 = None.
Proof. vm_compute. repeat split. Qed.

Lemma callstack_table_invariant_witness :
  exists pcs, pcs_heap (astack scenario_world) !! 100 = Some pcs
              /\ refcount pcs = 1 + holders scenario_world 100.
Proof.
  destruct (callstack_table_invariant scenario_world scenario_world_reachable)
    as (_ & Hcount & _).
  apply (Hcount (100, 100)). vm_compute. right. left. reflexivity.
Defined.

(** * Further properties *)

(** ** More on realloc *)

(** The shadow after [client_handle_realloc], byte by byte, for any
    placement of the two regions: a byte of the new region carries the
    tag of the byte at the same offset of the old region, or UNDEFINED
    beyond the old size; a byte of the old region that is not in the new
    one is UNADDRESSABLE; every other byte keeps its tag. *)
Theorem client_handle_realloc_bytes options s ob os nb ns a :
  shadow_on options = true ->
  0 <= os -> 0 <= ns ->
  client_handle_realloc options s ob os nb ns a
  = if (nb <=? a) && (a <? nb + ns) then
      if a - nb <? os then s (a - nb + ob) else SHADOW_UNDEFINED
    else if (ob <=? a) && (a <? ob + os) then SHADOW_UNADDRESSABLE
    else s a.
Proof.
  intros Hon Hos Hns.
  unfold client_handle_realloc, shadow_set_range, shadow_copy_range.
  rewrite Hon. zcases; simpl; try reflexivity; try lia.
Qed.

Lemma client_handle_realloc_bytes_witness :
  client_handle_realloc (full_options 8 2) striped_shadow 0x1000 8 0x2000 0x10
    0x2009
  = SHADOW_UNDEFINED.
Proof.
  rewrite (client_handle_realloc_bytes (full_options 8 2) striped_shadow
             0x1000 8 0x2000 0x10 0x2009 eq_refl); [reflexivity | lia | lia].
Defined.

(** ** More on the delayed-free FIFO *)

Lemma run_frees_cons options st e evs :
  run_frees options st (e :: evs)
  = let '(p, _, st1) := client_handle_free options st (fe_base e) (fe_size e)
                          (fe_real_base e) (fe_heap e) in
    let '(ps, st2) := run_frees options st1 evs in
    (p :: ps, st2).
Proof. reflexivity. Qed.



(** A run of frees only ever takes addressability away: every byte of
    every freed block is UNADDRESSABLE at the end, and any byte that is
    not ends with the tag it had. *)
Theorem run_frees_shadow options evs :
  shadow_on options = true ->
  forall st a,
    let sh := shadow (snd (run_frees options st evs)) in
    (sh a = SHADOW_UNADDRESSABLE \/ sh a = shadow st a)
    /\ ((exists e, In e evs /\ fe_base e <= a < fe_base e + fe_size e) ->
        sh a = SHADOW_UNADDRESSABLE).
Proof.
  intros Hon. induction evs as [|e evs IH]; intros st a sh.
  - subst sh. simpl. split; [now right|]. intros (e & [] & _).
  - subst sh. rewrite run_frees_cons.
    destruct (client_handle_free options st (fe_base e) (fe_size e)
                (fe_real_base e) (fe_heap e)) as [[p ho] st1] eqn:Hfree.
    assert (Hsh1 : shadow st1
                   = shadow_set_range (shadow st) (fe_base e)
                       (fe_base e + fe_size e) SHADOW_UNADDRESSABLE).
    { unfold client_handle_free in Hfree. rewrite Hon in Hfree.
      destruct (true && (delay_frees options >? 0)).
      - destruct (delay_free_enqueue _ _ _ _ _ _) as [[p' ho'] q'].
        injection Hfree as _ _ <-. reflexivity.
      - injection Hfree as _ _ <-. reflexivity. }
    specialize (IH st1 a). cbv zeta in IH.
    destruct (run_frees options st1 evs) as [ps st2]. simpl in *.
    destruct IH as [IHa IHb].
    assert (Hstep : shadow st1 a = SHADOW_UNADDRESSABLE
                    \/ (shadow st1 a = shadow st a
                        /\ ~ (fe_base e <= a < fe_base e + fe_size e))).
    { rewrite Hsh1. unfold shadow_set_range.
      zcases; simpl; try (now left); right; (split; [reflexivity | lia]). }
    split.
    + destruct IHa as [-> | ->]; [now left|]. destruct Hstep as [-> | [-> _]]; auto.
    + intros (e' & [<- | Hin] & Ha).
      * destruct IHa as [-> | ->]; [reflexivity|].
        destruct Hstep as [-> | [_ Hno]]; [reflexivity | contradiction].
      * apply IHb. now exists e'.
Qed.

Lemma run_frees_shadow_witness :
  shadow (snd (run_frees (full_options 0 2)
                 (mk_state striped_shadow (delay_free_init
                    (repeat (mk_delay_free NULL NULL) 2)))
                 [mk_free 0x1000 0x20 0x1000 0; mk_free 0x3000 0x40 0x3000 0]))
    0x1010
  = SHADOW_UNADDRESSABLE.
Proof.
  apply (run_frees_shadow (full_options 0 2)
           [mk_free 0x1000 0x20 0x1000 0; mk_free 0x3000 0x40 0x3000 0]
           eq_refl).
  exists (mk_free 0x1000 0x20 0x1000 0). split; [now left | simpl; lia].
Defined.

(** ** The quarantine and its tree *)

Lemma rb_delete_perm t n : In n t -> Permutation t (n :: rb_delete t n).
Proof.
  induction t as [|m t IH]; intros Hin; [contradiction|].
  simpl. destruct (node_eqb m n) eqn:E.
  - apply node_eqb_eq in E. now subst.
  - destruct Hin as [-> | Hin].
    + assert (node_eqb n n = true) by now apply node_eqb_eq. congruence.
    + rewrite perm_swap. constructor. now apply IH.
Qed.

Lemma rb_find_base t a : rb_find t a <> None <-> In a (map base t).
Proof.
  split.
  - intros H. destruct (rb_find t a) as [n|] eqn:E; [|contradiction].
    apply rb_find_some in E as [Hin <-]. now apply in_map.
  - intros Hin H. apply in_map_iff in Hin as (n & Hb & Hin).
    rewrite rb_find_none in H. exact (H n Hin Hb).
Qed.

Lemma quarantine_ok_init options slots :
  0 < delay_frees options ->
  length slots = Z.to_nat (delay_frees options) ->
  quarantine_ok options (delay_free_init slots).
Proof.
  intros Hn Hlen. unfold quarantine_ok, delay_free_init, dfs_ok, tree_ok, fifo.
  simpl.
  repeat split; try assumption; try lia; try constructor; auto.
Qed.

(** The tree of the quarantine mirrors its FIFO.  When the tree takes
    the freed block (no node overlaps or touches its real range) and
    the block is not at NULL, [client_handle_free]'s quarantine step
    keeps the invariant that the nodes of the tree start at exactly
    the addresses the FIFO holds, the block it evicts included; so a
    node is found at an address exactly when a quarantined block
    starts there. *)
Theorem quarantine_tree_mirrors_fifo options q base size real_base heap_in :
  quarantine_ok options q ->
  0 <= size -> 0 <= redzone_size options ->
  real_base <> NULL ->
  Forall (fun n =>
            conflicts real_base
              (if negb (base =? real_base)
               then size + 2 * redzone_size options else size) n = false)
    (delay_free_tree q) ->
  let q' := snd (delay_free_enqueue options q base size real_base heap_in) in
  quarantine_ok options q'
  /\ forall a, rb_find (delay_free_tree q') a <> None
               <-> In a (map addr (fifo q')).
Proof.
  intros (Hdfs & Htree & Hnull & Hperm) Hsize Hrz Hrb Hfree q'.
  assert (Hok : quarantine_ok options q');
    [|split; [exact Hok|];
      intros a; rewrite rb_find_base;
      destruct Hok as (_ & _ & _ & Hp);
      split; apply Permutation_in; [exact Hp | symmetry; exact Hp]].
  set (real_size := if negb (base =? real_base)
                    then size + 2 * redzone_size options else size) in *.
  assert (Hfind : List.find (conflicts real_base real_size) (delay_free_tree q)
                  = None).
  { destruct (List.find (conflicts real_base real_size) (delay_free_tree q))
      as [m|] eqn:E; [|reflexivity].
    apply find_some in E as [Hin Hc]. rewrite Forall_forall in Hfree.
    apply list_elem_of_In in Hin. apply Hfree in Hin. congruence. }
  set (x := mk_node real_base real_size (Z.b2z (base =? real_base))).
  assert (Hx : snd (rb_insert (delay_free_tree q) real_base real_size
                      (Z.b2z (base =? real_base)))
               = rb_place x (delay_free_tree q)).
  { unfold rb_insert. now rewrite Hfind. }
  assert (Hp1 : Permutation (map RB.base (rb_place x (delay_free_tree q)))
                  (real_base :: map RB.base (delay_free_tree q))).
  { change (real_base :: map RB.base (delay_free_tree q))
      with (map RB.base (x :: delay_free_tree q)).
    apply Permutation_map, rb_place_perm. }
  pose proof (delay_free_enqueue_tree_ok options q base size real_base heap_in
                Htree Hsize Hrz) as Htree'.
  destruct (delay_free_enqueue options q base size real_base heap_in)
    as [[p ho] q1] eqn:Hrun.
  pose proof (fifo_enqueue options q base size real_base heap_in p ho q1
                Hdfs Hrun) as [Hdfs' Hfifo].
  subst q'. cbn [snd] in *.
  split; [exact Hdfs'|]. split; [exact Htree'|].
  destruct (Z.ltb_spec (delay_free_fill q) (delay_frees options)) as [Hlt | Hge].
  - destruct Hfifo as [_ Hfifo]. rewrite Hfifo, map_app. simpl.
    assert (Ht : delay_free_tree q1 = rb_place x (delay_free_tree q)).
    { pose proof (enqueue_not_full_tree options q base size real_base heap_in
                    ltac:(lia)) as H.
      rewrite Hrun in H. cbn [snd] in H. rewrite H. exact Hx. }
    split.
    + rewrite in_app_iff. intros [H | [H | []]]; [now apply Hnull | congruence].
    + rewrite Ht, Hp1, Hperm. apply Permutation_cons_append.
  - destruct Hfifo as [Hp Hfifo].
    assert (Hfill : delay_free_fill q = delay_frees options)
      by (destruct Hdfs as (_ & _ & _ & ? & _); lia).
    pose proof (fifo_length options q Hdfs) as Hlen.
    destruct (fifo q) as [|f F] eqn:EF.
    { simpl in Hlen. destruct Hdfs as (? & _). lia. }
    simpl in Hp, Hfifo, Hnull, Hperm.
    assert (Hpn : p <> NULL) by (intros E; apply Hnull; left; congruence).
    assert (Ht : delay_free_tree q1
                 = match rb_find (rb_place x (delay_free_tree q)) p with
                   | Some node => rb_delete (rb_place x (delay_free_tree q)) node
                   | None => rb_place x (delay_free_tree q)
                   end).
    { unfold delay_free_enqueue in Hrun. fold real_size in Hrun.
      rewrite Hx in Hrun. unfold DELAY_FREE_FULL in Hrun.
      apply Z.eqb_eq in Hfill. rewrite Hfill in Hrun. cbv zeta in Hrun.
      cbn [fst snd] in Hrun.
      injection Hrun as Hp' _ Hq. rewrite <- Hq. cbn [delay_free_tree].
      rewrite Hp'. apply Z.eqb_neq in Hpn. now rewrite Hpn. }
    assert (Hin : In p (map RB.base (rb_place x (delay_free_tree q)))).
    { eapply Permutation_in; [symmetry; exact Hp1|]. right.
      eapply Permutation_in; [symmetry; exact Hperm|]. left. now rewrite Hp. }
    apply rb_find_base in Hin.
    destruct (rb_find (rb_place x (delay_free_tree q)) p) as [node|] eqn:Ef;
      [|contradiction].
    apply rb_find_some in Ef as [Hnode Hbase].
    rewrite Hfifo, map_app. simpl. split.
    + rewrite in_app_iff. intros [H | [H | []]]; [|congruence].
      apply Hnull. now right.
    + rewrite Ht.
      pose proof (Permutation_map RB.base (rb_delete_perm _ _ Hnode)) as Hd.
      simpl in Hd. rewrite Hbase, Hp in Hd.
      rewrite Hd in Hp1. rewrite Hperm in Hp1.
      rewrite perm_swap in Hp1. apply Permutation_cons_inv in Hp1.
      rewrite Hp1. apply Permutation_cons_append.
Qed.

Lemma quarantine_tree_mirrors_fifo_witness :
  quarantine_ok (full_options 8 2)
    (snd (delay_free_enqueue (full_options 8 2)
            (delay_free_init (repeat (mk_delay_free NULL NULL) 2))
            0x4008 0x20 0x4000 0)).
Proof.
  apply (quarantine_tree_mirrors_fifo (full_options 8 2)
           (delay_free_init (repeat (mk_delay_free NULL NULL) 2))
           0x4008 0x20 0x4000 0).
  - apply quarantine_ok_init; [simpl; lia | reflexivity].
  - lia.
  - simpl; lia.
  - discriminate.
  - constructor.
Defined.

(** ** More on the anonymous-mmap table *)

Lemma apart_sym m n : apart m n -> apart n m.
Proof.
  unfold apart, conflicts. intros H. rewrite andb_comm. exact H.
Qed.

Lemma In_rb_place x t m : In m (rb_place x t) <-> m = x \/ In m t.
Proof.
  induction t as [|y t IH]; simpl; [intuition|].
  destruct (base x <? base y); simpl; [intuition|]. rewrite IH. intuition.
Qed.

Lemma tracked_rb_place x t a :
  tracked (rb_place x t) a <-> base x <= a < base x + size x \/ tracked t a.
Proof.
  unfold tracked. split.
  - intros (n & Hin & Ha). apply In_rb_place in Hin as [-> | Hin]; [now left|].
    right. now exists n.
  - intros [Ha | (n & Hin & Ha)].
    + exists x. split; [apply In_rb_place; now left | assumption].
    + exists n. split; [apply In_rb_place; now right | assumption].
Qed.

Lemma tracked_rb_delete t n a :
  In n t ->
  tracked t a <-> base n <= a < base n + size n \/ tracked (rb_delete t n) a.
Proof.
  intros Hn. unfold tracked. split.
  - intros (m & Hin & Ha).
    destruct (node_eqb m n) eqn:E.
    + apply node_eqb_eq in E. subst m. now left.
    + right. exists m. split; [|assumption].
      apply rb_delete_keeps; [assumption|]. intros ->.
      rewrite (proj2 (node_eqb_eq n n) eq_refl) in E. discriminate.
  - intros [Ha | (m & Hin & Ha)].
    + now exists n.
    + exists m. split; [eapply rb_delete_In; eassumption | assumption].
Qed.

Lemma rb_insert_free t b s c :
  Forall (apart (mk_node b s c)) t ->
  rb_insert t b s c = (None, rb_place (mk_node b s c) t).
Proof.
  intros Hfree. unfold rb_insert.
  destruct (List.find (conflicts b s) t) as [n|] eqn:E; [|reflexivity].
  apply find_some in E as [Hin Hc]. rewrite Forall_forall in Hfree.
  apply list_elem_of_In, Hfree in Hin. unfold apart in Hin. simpl in Hin.
  congruence.
Qed.

Lemma find_conflicts_none t b s c :
  List.find (conflicts b s) t = None -> Forall (apart (mk_node b s c)) t.
Proof.
  intros E. apply Forall_forall. intros n Hin. apply list_elem_of_In in Hin.
  exact (find_none _ _ E n Hin).
Qed.

Lemma separated_rb_place x t :
  Forall (apart x) t -> separated t -> separated (rb_place x t).
Proof.
  intros Hx Hsep. induction Hsep as [|y t Hy Hsep IH]; simpl.
  - constructor; constructor.
  - apply Forall_cons in Hx as [Hxy Hx].
    destruct (base x <? base y).
    + constructor; [constructor; assumption|]. now constructor.
    + constructor; [|now apply IH].
      apply Forall_forall. intros m Hm. apply list_elem_of_In, In_rb_place in Hm.
      destruct Hm as [-> | Hm]; [now apply apart_sym|].
      rewrite Forall_forall in Hy. now apply Hy, list_elem_of_In.
Qed.

Lemma separated_rb_delete t n : separated t -> separated (rb_delete t n).
Proof.
  intros Hsep. induction Hsep as [|y t Hy Hsep IH]; simpl; [constructor|].
  destruct (node_eqb y n); [assumption|].
  constructor; [|assumption].
  apply Forall_forall. intros m Hm. rewrite Forall_forall in Hy.
  apply Hy. apply list_elem_of_In. apply list_elem_of_In in Hm.
  eapply rb_delete_In; eassumption.
Qed.

Lemma separated_rest t n m :
  separated t -> In n t -> In m (rb_delete t n) -> apart n m.
Proof.
  intros Hsep. induction Hsep as [|y t Hy Hsep IH]; simpl; [tauto|].
  intros Hn Hm. rewrite Forall_forall in Hy.
  destruct (node_eqb y n) eqn:E.
  - apply node_eqb_eq in E. subst y. now apply Hy, list_elem_of_In.
  - destruct Hn as [-> | Hn].
    { rewrite (proj2 (node_eqb_eq n n) eq_refl) in E. discriminate. }
    destruct Hm as [<- | Hm].
    + apply apart_sym. now apply Hy, list_elem_of_In.
    + now apply IH.
Qed.

Lemma mmap_ok_rb_delete t n : mmap_ok t -> mmap_ok (rb_delete t n).
Proof.
  intros [Hsep Hsz]. split; [now apply separated_rb_delete|].
  apply Forall_forall. intros m Hm. rewrite Forall_forall in Hsz.
  apply Hsz, list_elem_of_In. apply list_elem_of_In in Hm.
  eapply rb_delete_In; eassumption.
Qed.

Lemma mmap_ok_rb_insert t b s c :
  mmap_ok t -> 0 <= s -> mmap_ok (snd (rb_insert t b s c)).
Proof.
  intros [Hsep Hsz] Hs. unfold rb_insert.
  destruct (List.find (conflicts b s) t) as [n|] eqn:E; simpl; [now split|].
  split.
  - apply separated_rb_place; [|assumption]. now apply find_conflicts_none.
  - rewrite (rb_place_perm _ t). now constructor.
Qed.

Lemma mmap_ok_add t base size :
  mmap_ok t -> 0 <= size -> mmap_ok (mmap_tree_add t base size).
Proof.
  intros Hok Hs. unfold mmap_tree_add, rb_insert at 1.
  destruct (List.find (conflicts base size) t) as [n|] eqn:E.
  - unfold rb_node_fields. cbv zeta.
    apply mmap_ok_rb_insert; [now apply mmap_ok_rb_delete|].
    zcases; lia.
  - simpl. pose proof (mmap_ok_rb_insert t base size NULL Hok Hs) as H.
    unfold rb_insert in H. now rewrite E in H.
Qed.

Lemma mmap_ok_remove_loop base size fuel :
  forall t res r t',
    mmap_ok t ->
    mmap_tree_remove_loop fuel t base size res = Some (r, t') ->
    mmap_ok t'.
Proof.
  induction fuel as [|fuel IH]; intros t res r t' Hok; simpl.
  - destruct (rb_overlaps_node t base (base + size)); [discriminate|].
    now intros [= _ <-].
  - destruct (rb_overlaps_node t base (base + size)) as [node|] eqn:E;
      [|now intros [= _ <-]].
    apply IH.
    apply find_some in E as [_ Hov]. unfold overlaps in Hov.
    apply andb_true_iff in Hov as [H1 H2].
    apply Z.ltb_lt in H1, H2.
    assert (Hok2 : mmap_ok (if RB.base node <? base
                            then snd (rb_insert (rb_delete t node) (RB.base node)
                                        (base - RB.base node) NULL)
                            else rb_delete t node)).
    { destruct (Z.ltb_spec (RB.base node) base).
      - apply mmap_ok_rb_insert; [now apply mmap_ok_rb_delete | lia].
      - now apply mmap_ok_rb_delete. }
    destruct (RB.base node + RB.size node >? base + size) eqn:G;
      [|exact Hok2].
    apply mmap_ok_rb_insert; [exact Hok2|].
    apply Z.gtb_lt in G. lia.
Qed.

(** The mmap tree keeps its invariant under every operation of the
    table: after [mmap_tree_add] of a range of non-negative size and
    after [mmap_tree_remove] of any range the nodes are still pairwise
    apart with non-negative sizes, so that an address lies in at most
    one interval. *)
Theorem mmap_tree_invariant t base size :
  mmap_ok t ->
  (0 <= size -> mmap_ok (mmap_tree_add t base size))
  /\ (forall r t', mmap_tree_remove t base size = Some (r, t') -> mmap_ok t')
  /\ (forall m n a, In m t -> In n t ->
        RB.base m <= a < RB.base m + RB.size m ->
        RB.base n <= a < RB.base n + RB.size n ->
        RB.base m = RB.base n /\ RB.size m = RB.size n).
Proof.
  intros Hok. split; [now apply mmap_ok_add|]. split.
  - intros r t' Hrem. unfold mmap_tree_remove in Hrem.
    eapply mmap_ok_remove_loop; eassumption.
  - intros m n a Hm Hn Ham Han.
    destruct (node_eqb m n) eqn:E.
    + apply node_eqb_eq in E. now subst.
    + exfalso. destruct Hok as [Hsep _].
      assert (Hin : In n (rb_delete t m)).
      { apply rb_delete_keeps; [assumption|]. intros ->.
        rewrite (proj2 (node_eqb_eq m m) eq_refl) in E. discriminate. }
      pose proof (separated_rest t m n Hsep Hm Hin) as Hap.
      unfold apart, conflicts in Hap.
      apply andb_false_iff in Hap as [H | H]; apply Z.leb_gt in H; lia.
Qed.

Lemma mmap_ok_nil : mmap_ok rb_tree_create.
Proof. split; constructor. Qed.

Lemma mmap_tree_invariant_witness :
  mmap_ok (mmap_tree_add (mmap_tree_add rb_tree_create 0x10000 0x1000)
             0x12000 0x1000).
Proof.
  apply (mmap_tree_invariant (mmap_tree_add rb_tree_create 0x10000 0x1000)
           0x12000 0x1000).
  - apply mmap_ok_add; [apply mmap_ok_nil | lia].
  - lia.
Defined.

(** What [mmap_tree_add] tracks when at most one node is in the way of
    the new range: exactly the addresses tracked before together with
    those of the new range. *)
Theorem mmap_tree_add_tracked t base size :
  mmap_ok t ->
  0 <= size ->
  (forall m n, In m t -> In n t ->
     conflicts base size m = true -> conflicts base size n = true -> m = n) ->
  forall a,
    tracked (mmap_tree_add t base size) a
    <-> tracked t a \/ base <= a < base + size.
Proof.
  intros [Hsep Hsz] Hs Hone a. unfold mmap_tree_add, rb_insert at 1.
  destruct (List.find (conflicts base size) t) as [node|] eqn:E.
  - unfold rb_node_fields. cbv zeta.
    pose proof (find_some _ _ E) as [Hin Hc].
    match goal with
    | |- tracked (snd (rb_insert _ ?b (?e - _) _)) _ <-> _ =>
        set (lo := b); set (hi := e)
    end.
    rewrite Forall_forall in Hsz.
    pose proof (Hsz node (proj2 (list_elem_of_In _ _) Hin)) as Hnsz.
    unfold conflicts in Hc. apply andb_true_iff in Hc as [Hc1 Hc2].
    apply Z.leb_le in Hc1, Hc2.
    assert (Hlo : lo = Z.min base (RB.base node)) by (subst lo; zcases; lia).
    assert (Hhi : hi = Z.max (base + size) (RB.base node + RB.size node))
      by (subst hi; zcases; lia).
    assert (Hfree : Forall (apart (mk_node lo (hi - lo) NULL)) (rb_delete t node)).
    { apply Forall_forall. intros m Hm. apply list_elem_of_In in Hm.
      pose proof (separated_rest t node m Hsep Hin Hm) as Hap.
      pose proof (Hsz m (proj2 (list_elem_of_In _ _)
                           (rb_delete_In _ _ _ Hm))) as Hmsz.
      assert (Hmn : m <> node).
      { intros ->. unfold apart, conflicts in Hap.
        apply andb_false_iff in Hap as [H | H]; apply Z.leb_gt in H; lia. }
      assert (Hnew : conflicts base size m = false).
      { destruct (conflicts base size m) eqn:Hcm; [|reflexivity].
        exfalso. apply Hmn. apply Hone; try assumption.
        - eapply rb_delete_In; eassumption.
        - unfold conflicts. apply andb_true_iff. split; now apply Z.leb_le. }
      unfold apart, conflicts in *. simpl.
      apply andb_false_iff in Hap as [H | H]; apply Z.leb_gt in H;
        apply andb_false_iff in Hnew as [H' | H']; apply Z.leb_gt in H';
        apply andb_false_iff; rewrite !Z.leb_gt; lia. }
    rewrite (rb_insert_free _ _ _ _ Hfree). simpl.
    rewrite tracked_rb_place. simpl.
    rewrite (tracked_rb_delete t node a Hin). split.
    + intros [Ha | Ha]; [|left; now right].
      destruct (Z.le_gt_cases base a), (Z.lt_ge_cases a (base + size));
        try (right; lia); left; left; lia.
    + intros [[Ha | Ha] | Ha]; [left; lia | now right | left; lia].
  - simpl. rewrite tracked_rb_place. simpl. tauto.
Qed.

Lemma mmap_tree_add_tracked_witness :
  tracked (mmap_tree_add (mmap_tree_add rb_tree_create 0x10000 0x1000)
             0x11000 0x1000) 0x11800.
Proof.
  apply (mmap_tree_add_tracked (mmap_tree_add rb_tree_create 0x10000 0x1000)
           0x11000 0x1000).
  - apply mmap_ok_add; [apply mmap_ok_nil | lia].
  - lia.
  - simpl. intros m n [<- | []] [<- | []] _ _. reflexivity.
  - right. lia.
Defined.

Lemma mmap_tree_remove_loop_tracked base size fuel :
  0 < size ->
  forall t res r t',
    mmap_ok t ->
    mmap_tree_remove_loop fuel t base size res = Some (r, t') ->
    forall a, tracked t' a <-> tracked t a /\ ~ (base <= a < base + size).
Proof.
  intros Hs. induction fuel as [|fuel IH]; intros t res r t' Hok.
  - simpl. destruct (rb_overlaps_node t base (base + size)) eqn:E; [discriminate|].
    intros [= _ <-] a. split; [|tauto]. intros Ht. split; [assumption|].
    intros Ha. destruct Ht as (n & Hin & Hn).
    pose proof (find_none _ _ E n Hin) as Hov. unfold overlaps in Hov.
    apply andb_false_iff in Hov as [H | H]; apply Z.ltb_ge in H; lia.
  - simpl. destruct (rb_overlaps_node t base (base + size)) as [node|] eqn:E.
    2:{ intros [= _ <-] a. split; [|tauto]. intros Ht. split; [assumption|].
        intros Ha. destruct Ht as (n & Hin & Hn).
        pose proof (find_none _ _ E n Hin) as Hov. unfold overlaps in Hov.
        apply andb_false_iff in Hov as [H | H]; apply Z.ltb_ge in H; lia. }
    unfold rb_node_fields. cbv zeta.
    pose proof (find_some _ _ E) as [Hin Hov]. unfold overlaps in Hov.
    apply andb_true_iff in Hov as [Hov1 Hov2]. apply Z.ltb_lt in Hov1, Hov2.
    pose proof Hok as [Hsep Hsz].
    set (t1 := rb_delete t node).
    assert (Hrest : forall m, In m t1 -> apart node m /\ 0 <= RB.size m).
    { intros m Hm. split; [now apply (separated_rest t node m)|].
      rewrite Forall_forall in Hsz. apply Hsz, list_elem_of_In.
      eapply rb_delete_In; eassumption. }
    set (t2 := if RB.base node <? base
               then snd (rb_insert t1 (RB.base node) (base - RB.base node) NULL)
               else t1).
    assert (Ht2 : forall m, In m t2 ->
              In m t1 \/ (RB.base node < base
                          /\ m = mk_node (RB.base node) (base - RB.base node) NULL)).
    { subst t2. intros m. destruct (Z.ltb_spec (RB.base node) base) as [G | G];
        [|tauto].
      unfold rb_insert. destruct (List.find _ t1); simpl; [tauto|].
      rewrite In_rb_place. intros [-> | Hm]; [right; now split | now left]. }
    assert (Htr2 : forall a, tracked t2 a
                     <-> tracked t1 a
                         \/ (RB.base node < base /\ RB.base node <= a < base)).
    { intros a. subst t2. destruct (Z.ltb_spec (RB.base node) base) as [G | G].
      - rewrite rb_insert_free.
        + simpl. rewrite tracked_rb_place. simpl. split; intros [H | H]; auto.
          * right. split; [assumption | lia].
          * left. lia.
        + apply Forall_forall. intros m Hm. apply list_elem_of_In in Hm.
          destruct (Hrest m Hm) as [Hap Hmsz].
          unfold apart, conflicts in *. simpl.
          apply andb_false_iff in Hap as [H | H]; apply Z.leb_gt in H;
            apply andb_false_iff; rewrite !Z.leb_gt; lia.
      - split; [now left|]. intros [H | [H _]]; [assumption | lia]. }
    set (t3 := if RB.base node + RB.size node >? base + size
               then snd (rb_insert t2 (base + size)
                           (RB.base node + RB.size node - (base + size)) NULL)
               else t2).
    assert (Htr3 : forall a, tracked t3 a
                     <-> tracked t2 a
                         \/ (base + size < RB.base node + RB.size node
                             /\ base + size <= a < RB.base node + RB.size node)).
    { intros a. subst t3. rewrite Z.gtb_ltb.
      destruct (Z.ltb_spec (base + size) (RB.base node + RB.size node)) as [G | G].
      - rewrite rb_insert_free.
        + simpl. rewrite tracked_rb_place. simpl. split; intros [H | H]; auto.
          * right. split; [assumption | lia].
          * left. lia.
        + apply Forall_forall. intros m Hm. apply list_elem_of_In in Hm.
          apply Ht2 in Hm as [Hm | [Hlt ->]].
          * destruct (Hrest m Hm) as [Hap Hmsz].
            unfold apart, conflicts in *. simpl.
            apply andb_false_iff in Hap as [H | H]; apply Z.leb_gt in H;
              apply andb_false_iff; rewrite !Z.leb_gt; lia.
          * unfold apart, conflicts. simpl.
            apply andb_false_iff; rewrite !Z.leb_gt; lia.
      - split; [now left|]. intros [H | [H _]]; [assumption | lia]. }
    intros Hrun a.
    assert (Hok3 : mmap_ok t3).
    { subst t3 t2 t1.
      assert (Hok2 : mmap_ok (if RB.base node <? base
                              then snd (rb_insert (rb_delete t node) (RB.base node)
                                          (base - RB.base node) NULL)
                              else rb_delete t node)).
      { destruct (Z.ltb_spec (RB.base node) base).
        - apply mmap_ok_rb_insert; [now apply mmap_ok_rb_delete | lia].
        - now apply mmap_ok_rb_delete. }
      destruct (RB.base node + RB.size node >? base + size) eqn:G;
        [|exact Hok2].
      apply mmap_ok_rb_insert; [exact Hok2|]. apply Z.gtb_lt in G. lia. }
    rewrite (IH t3 true r t' Hok3 Hrun a).
    rewrite Htr3, Htr2. rewrite (tracked_rb_delete t node a Hin).
    fold t1. split.
    + intros [[[H | H] | H] Hout]; split; try assumption; auto; left; lia.
    + intros [[H | H] Hout]; split; try assumption; [|auto].
      destruct (Z.lt_ge_cases a base); [left; right; lia | right; lia].
Qed.

(** What [mmap_tree_remove] of a non-empty range leaves tracked:
    exactly the addresses tracked before that lie outside the range;
    it returns true exactly when an interval overlapped the range. *)
Theorem mmap_tree_remove_tracked t base size :
  mmap_ok t ->
  0 < size ->
  exists t',
    mmap_tree_remove t base size
    = Some (bool_decide (rb_overlaps_node t base (base + size) <> None), t')
    /\ mmap_ok t'
    /\ (forall a, tracked t' a
                  <-> tracked t a /\ ~ (base <= a < base + size)).
Proof.
  intros Hok Hs.
  destruct (mmap_tree_remove_total t base size) as (t' & Hrun & _).
  exists t'. split; [assumption|]. split.
  - eapply mmap_ok_remove_loop; eassumption.
  - eapply mmap_tree_remove_loop_tracked; eassumption.
Qed.

Lemma mmap_tree_remove_tracked_witness :
  exists t',
    mmap_tree_remove
      (mmap_tree_add (mmap_tree_add rb_tree_create 0x10000 0x1000) 0x11000 0x1000)
      0x10800 0x800
    = Some (true, t')
    /\ ~ tracked t' 0x10800 /\ tracked t' 0x10400.
Proof.
  destruct (mmap_tree_remove_tracked
              (mmap_tree_add (mmap_tree_add rb_tree_create 0x10000 0x1000)
                 0x11000 0x1000) 0x10800 0x800)
    as (t' & Hrun & _ & Htr).
  - apply mmap_ok_add; [|lia]. apply mmap_ok_add; [apply mmap_ok_nil | lia].
  - lia.
  - exists t'. split; [exact Hrun|]. split.
    + intros H. apply Htr in H as [_ H]. apply H. lia.
    + apply Htr. split; [|lia].
      exists (mk_node 0x10000 0x2000 NULL). split; [now left | simpl; lia].
Defined.

(** Lookup after insertion: once a range that no node is in the way of
    has been added, [mmap_anon_lookup] of each of its addresses returns
    that range. *)
Theorem mmap_tree_add_lookup t base size a :
  List.find (conflicts base size) t = None ->
  base <= a < base + size ->
  mmap_anon_lookup (mmap_tree_add t base size) a = Some (base, size).
Proof.
  intros Hfree Ha. rewrite mmap_tree_add_disjoint by assumption.
  unfold mmap_anon_lookup, rb_in_node.
  assert (Hnone : forall m, In m t ->
            (RB.base m <=? a) && (a <? RB.base m + RB.size m) = false).
  { intros m Hm. pose proof (find_none _ _ Hfree m Hm) as Hc.
    unfold conflicts in Hc.
    apply andb_false_iff in Hc as [H | H]; apply Z.leb_gt in H;
      apply andb_false_iff; rewrite Z.leb_gt, Z.ltb_ge; lia. }
  clear Hfree. induction t as [|m t IH]; simpl.
  - replace ((base <=? a) && (a <? base + size)) with true; [reflexivity|].
    symmetry. apply andb_true_iff. rewrite Z.leb_le, Z.ltb_lt. lia.
  - destruct (base <? RB.base m); simpl.
    + replace ((base <=? a) && (a <? base + size)) with true; [reflexivity|].
      symmetry. apply andb_true_iff. rewrite Z.leb_le, Z.ltb_lt. lia.
    + rewrite (Hnone m (or_introl eq_refl)). apply IH.
      intros m' Hm'. apply Hnone. now right.
Qed.

Lemma mmap_tree_add_lookup_witness :
  mmap_anon_lookup
    (mmap_tree_add (mmap_tree_add rb_tree_create 0x10000 0x1000) 0x12000 0x1000)
    0x12345
  = Some (0x12000, 0x1000).
Proof.
  apply (mmap_tree_add_lookup (mmap_tree_add rb_tree_create 0x10000 0x1000)
           0x12000 0x1000 0x12345).
  - reflexivity.
  - lia.
Defined.

Lemma rb_delete_rb_place x t :
  ~ In x t -> rb_delete (rb_place x t) x = t.
Proof.
  intros Hx. induction t as [|m t IH]; simpl.
  - now rewrite (proj2 (node_eqb_eq x x) eq_refl).
  - destruct (RB.base x <? RB.base m); simpl.
    + now rewrite (proj2 (node_eqb_eq x x) eq_refl).
    + destruct (node_eqb m x) eqn:E.
      * apply node_eqb_eq in E. subst m. exfalso. apply Hx. now left.
      * f_equal. apply IH. intros H. apply Hx. now right.
Qed.

Lemma find_rb_place p x t :
  p x = true -> (forall m, In m t -> p m = false) ->
  List.find p (rb_place x t) = Some x.
Proof.
  intros Hx Hnone. induction t as [|m t IH]; simpl.
  - now rewrite Hx.
  - destruct (RB.base x <? RB.base m); simpl.
    + now rewrite Hx.
    + rewrite (Hnone m (or_introl eq_refl)). apply IH.
      intros m' Hm'. apply Hnone. now right.
Qed.

(** Unmapping what was just mapped: when a non-empty range that no node
    is in the way of is added and then removed, [mmap_tree_remove]
    reports that something was tracked and the tree is the one from
    before the addition. *)
Lemma mmap_tree_add_remove t base size :
  0 < size ->
  List.find (conflicts base size) t = None ->
  mmap_tree_remove (mmap_tree_add t base size) base size = Some (true, t).
Proof.
  intros Hs Hfree. rewrite mmap_tree_add_disjoint by assumption.
  set (x := mk_node base size NULL).
  assert (Hnone : forall m, In m t -> overlaps base (base + size) m = false).
  { intros m Hm. pose proof (find_none _ _ Hfree m Hm) as Hc.
    unfold conflicts in Hc. unfold overlaps.
    apply andb_false_iff in Hc as [H | H]; apply Z.leb_gt in H;
      apply andb_false_iff; rewrite !Z.ltb_ge; lia. }
  assert (Hx : overlaps base (base + size) x = true).
  { unfold overlaps. simpl. apply andb_true_iff. rewrite !Z.ltb_lt. lia. }
  assert (Hnot : ~ In x t).
  { intros Hin. apply Hnone in Hin. congruence. }
  unfold mmap_tree_remove.
  assert (Hlen : length (rb_place x t) = S (length t))
    by (rewrite (rb_place_perm x t); reflexivity).
  rewrite Hlen. simpl. unfold rb_overlaps_node.
  rewrite (find_rb_place _ x t Hx Hnone). simpl.
  rewrite (rb_delete_rb_place x t Hnot).
  rewrite Z.ltb_irrefl, Z.gtb_ltb, Z.ltb_irrefl.
  assert (Hend : List.find (overlaps base (base + size)) t = None).
  { destruct (List.find (overlaps base (base + size)) t) as [m|] eqn:E;
      [|reflexivity].
    apply find_some in E as [Hin Hov]. apply Hnone in Hin. congruence. }
  destruct (length t); simpl; unfold rb_overlaps_node; now rewrite Hend.
Qed.

(** ** The mmap handlers *)

Section MmapFacts.

Variable mmap_walk : shadow_t -> app_pc -> Z -> bool -> shadow_t.

(** An anonymous mapping that is unmapped again: when no tracked
    interval overlaps or touches the non-empty range, the table of
    anonymous mappings is afterwards the one from before, and, with
    shadowing on, the range is unaddressable, whatever the thread was
    doing at the mmap and whatever [anon] flag the munmap passes; no
    other tag changes, and none at all with shadowing off. *)
Theorem client_handle_mmap_munmap options st in_heap_routine base size anon :
  0 < size ->
  Forall (fun n => conflicts base size n = false) (mmap_tree st) ->
  exists st',
    client_handle_munmap mmap_walk options
      (client_handle_mmap mmap_walk options st in_heap_routine base size true)
      base size anon = Some st'
    /\ mmap_tree st' = mmap_tree st
    /\ forall a,
         mm_shadow st' a
         = if shadow_on options && ((base <=? a) && (a <? base + size))
           then SHADOW_UNADDRESSABLE else mm_shadow st a.
Proof.
  intros Hs Hfree.
  assert (Hfind : List.find (conflicts base size) (mmap_tree st) = None).
  { destruct (List.find (conflicts base size) (mmap_tree st)) as [m|] eqn:E;
      [|reflexivity].
    apply find_some in E as [Hin Hc]. rewrite Forall_forall in Hfree.
    apply list_elem_of_In in Hin. apply Hfree in Hin. congruence. }
  unfold client_handle_munmap, client_handle_mmap. cbn [mmap_tree mm_shadow].
  rewrite (mmap_tree_add_remove _ _ _ Hs Hfind).
  eexists. split; [reflexivity|]. split; [reflexivity|].
  intros a. cbn [mm_shadow]. unfold shadow_on, shadow_set_range.
  destruct (leaks_only options), (shadowing options), (in_heap_routine =? 0);
    simpl; try reflexivity;
    destruct ((base <=? a) && (a <? base + size)); reflexivity.
Qed.



(** [client_handle_munmap] always returns, and afterwards no tracked
    interval overlaps the range.  The [anon] flag plays no role: with
    shadowing on, the range becomes unaddressable exactly when some
    tracked interval overlapped it, and is handed to [mmap_walk]
    otherwise, in which case the table is left as it was; with
    shadowing off no tag changes. *)
Theorem client_handle_munmap_decides options st base size anon :
  exists st',
    client_handle_munmap mmap_walk options st base size anon = Some st'
    /\ rb_overlaps_node (mmap_tree st') base (base + size) = None
    /\ mm_shadow st'
       = (if shadow_on options then
            match rb_overlaps_node (mmap_tree st) base (base + size) with
            | Some _ =>
                shadow_set_range (mm_shadow st) base (base + size)
                  SHADOW_UNADDRESSABLE
            | None => mmap_walk (mm_shadow st) base size false
            end
          else mm_shadow st)
    /\ (rb_overlaps_node (mmap_tree st) base (base + size) = None ->
        mmap_tree st' = mmap_tree st).
Proof.
  destruct (mmap_tree_remove_total (mmap_tree st) base size) as (t' & Hrun & Hno).
  unfold client_handle_munmap. rewrite Hrun. unfold shadow_on.
  destruct (rb_overlaps_node (mmap_tree st) base (base + size)) as [n|] eqn:E.
  - rewrite bool_decide_eq_true_2 by discriminate.
    eexists. split; [reflexivity|]. cbn [mmap_tree mm_shadow].
    split; [assumption|]. split; [|discriminate].
    now destruct (negb (leaks_only options) && shadowing options).
  - rewrite bool_decide_eq_false_2 by (intros H; now apply H).
    eexists. split; [reflexivity|]. cbn [mmap_tree mm_shadow].
    split; [assumption|]. split.
    + now destruct (negb (leaks_only options) && shadowing options).
    + intros _. unfold mmap_tree_remove in Hrun.
      destruct (length (mmap_tree st)); simpl in Hrun; rewrite E in Hrun;
        congruence.
Qed.


(** What [client_handle_mremap] does to the tags, shadowing on and
    sizes not negative: it always returns; the new range receives the
    tags of the old bytes it takes over, a grown tail becomes undefined
    (defined for an image) and, when shrinking, the bytes of the old
    range past the new size become unaddressable.  Nothing else
    changes: a mapping that moves to a range disjoint from the old one
    leaves the leading bytes of the old range, as many as were copied,
    with the tags they had. *)
Theorem client_handle_mremap_bytes options st ob os nb ns image :
  shadow_on options = true ->
  0 <= os -> 0 <= ns ->
  exists st',
    client_handle_mremap options st ob os nb ns image = Some st'
    /\ (forall a,
          mm_shadow st' a
          = if ns <? os then
              if (ob + ns <=? a) && (a <? ob + os) then SHADOW_UNADDRESSABLE
              else if (nb <=? a) && (a <? nb + ns)
                   then mm_shadow st (a - nb + ob)
                   else mm_shadow st a
            else
              if (nb + os <=? a) && (a <? nb + ns)
              then (if image then SHADOW_DEFINED else SHADOW_UNDEFINED)
              else if (nb <=? a) && (a <? nb + os)
                   then mm_shadow st (a - nb + ob)
                   else mm_shadow st a)
    /\ (nb + ns <= ob \/ ob + os <= nb ->
        forall a, ob <= a < ob + Z.min os ns ->
                  mm_shadow st' a = mm_shadow st a).
Proof.
  intros Hon Hos Hns.
  destruct (mmap_tree_remove_total (mmap_tree st) ob os) as (t' & Hrun & _).
  unfold client_handle_mremap. rewrite Hrun.
  unfold shadow_on in Hon. rewrite Hon.
  eexists. split; [reflexivity|]. cbn [mm_shadow].
  assert (Hbytes : forall a,
    (if ns <? os
     then shadow_set_range
            (shadow_copy_range (mm_shadow st) ob nb
               (if ns <? os then ns else os))
            (ob + ns) (ob + os) SHADOW_UNADDRESSABLE
     else shadow_set_range
            (shadow_copy_range (mm_shadow st) ob nb
               (if ns <? os then ns else os))
            (nb + os) (nb + ns)
            (if image then SHADOW_DEFINED else SHADOW_UNDEFINED)) a
    = if ns <? os then
        if (ob + ns <=? a) && (a <? ob + os) then SHADOW_UNADDRESSABLE
        else if (nb <=? a) && (a <? nb + ns)
             then mm_shadow st (a - nb + ob)
             else mm_shadow st a
      else
        if (nb + os <=? a) && (a <? nb + ns)
        then (if image then SHADOW_DEFINED else SHADOW_UNDEFINED)
        else if (nb <=? a) && (a <? nb + os)
             then mm_shadow st (a - nb + ob)
             else mm_shadow st a).
  { intros a. destruct (ns <? os); unfold shadow_set_range, shadow_copy_range;
      reflexivity. }
  split; [exact Hbytes|].
  intros Hdisj a Ha. rewrite Hbytes.
  zcases; simpl; try reflexivity; lia.
Qed.


End MmapFacts.

Lemma client_handle_mmap_munmap_witness :
  exists st',
    client_handle_munmap no_walk (full_options 8 2)
      (client_handle_mmap no_walk (full_options 8 2)
         (mk_mmap all_unaddressable (mmap_tree_add rb_tree_create 0x10000 0x1000))
         0 0x12000 0x1000 true)
      0x12000 0x1000 false = Some st'
    /\ mmap_tree st' = mmap_tree_add rb_tree_create 0x10000 0x1000.
Proof.
  destruct (client_handle_mmap_munmap no_walk (full_options 8 2)
              (mk_mmap all_unaddressable
                 (mmap_tree_add rb_tree_create 0x10000 0x1000))
              0 0x12000 0x1000 false) as (st' & H1 & H2 & _).
  - lia.
  - repeat constructor.
  - exists st'. split; assumption.
Defined.

Lemma client_handle_mremap_bytes_witness :
  exists st',
    client_handle_mremap (full_options 8 2)
      (mk_mmap striped_shadow (mmap_tree_add rb_tree_create 0x1000 0x8))
      0x1000 0x8 0x3000 0x10 false = Some st'
    /\ mm_shadow st' 0x1000 = SHADOW_DEFINED.
Proof.
  destruct (client_handle_mremap_bytes (full_options 8 2)
              (mk_mmap striped_shadow (mmap_tree_add rb_tree_create 0x1000 0x8))
              0x1000 0x8 0x3000 0x10 false) as (st' & H1 & _ & H3);
    [reflexivity | lia | lia |].
  exists st'. split; [assumption|].
  rewrite H3; [reflexivity | lia | lia].
Defined.

Lemma client_handle_munmap_decides_witness :
  exists st',
    client_handle_munmap no_walk (full_options 8 2)
      (mk_mmap all_unaddressable (mmap_tree_add rb_tree_create 0x10000 0x1000))
      0x20000 0x1000 true = Some st'
    /\ mmap_tree st' = mmap_tree_add rb_tree_create 0x10000 0x1000.
Proof.
  destruct (client_handle_munmap_decides no_walk (full_options 8 2)
              (mk_mmap all_unaddressable
                 (mmap_tree_add rb_tree_create 0x10000 0x1000))
              0x20000 0x1000 true) as (st' & H1 & _ & _ & H4).
  exists st'. split; [exact H1 | apply H4; reflexivity].
Defined.

(** ** More on the shared-callstack table *)

Lemma client_add_malloc_pre_new w (fresh : Z) fr :
  table_inv w -> fresh <> NULL -> pcs_heap (astack w) !! fresh = None ->
  exists d hp' tb',
    client_add_malloc_pre (astack w) NULL fresh fr = (d, mk_astack hp' tb')
    /\ frames_at hp' d = Some fr
    /\ (forall q, q <> d -> hp' !! q = pcs_heap (astack w) !! q)
    /\ ((d = fresh /\ tb' = (fresh, fresh) :: alloc_stack_table (astack w))
        \/ (In (d, d) (alloc_stack_table (astack w))
            /\ tb' = alloc_stack_table (astack w)
            /\ frames_at (pcs_heap (astack w)) d = Some fr)).
Proof.
  intros Hinv Hnn Hfresh.
  pose proof Hinv as (Hnull & Hnd & Hent & Hrec).
  set (hp0 := <[fresh := mk_pcs fr 1]> (pcs_heap (astack w))).
  assert (Hkeys : forall e, In e (alloc_stack_table (astack w)) ->
                    fst e <> fresh /\ snd e = fst e
                    /\ exists pe, pcs_heap (astack w) !! fst e = Some pe).
  { intros e He. rewrite Forall_forall in Hent.
    destruct (Hent e (proj2 (list_elem_of_In _ _) He)) as (Hk & pe & Hpe & _).
    split; [congruence|]. split; [assumption|]. now exists pe. }
  assert (Hfr0 : frames_at hp0 fresh = Some fr).
  { unfold frames_at. subst hp0. now rewrite lookup_insert_eq. }
  destruct (hashtable_lookup hp0 (alloc_stack_table (astack w)) fresh)
    as [p|] eqn:Hlk.
  - pose proof Hlk as Hlk0.
    apply hashtable_lookup_some in Hlk as (e & He & Hsnd & Hsame).
    destruct (Hkeys e He) as (Hne & Hk & pe & Hpe).
    assert (Hpk : p = fst e) by congruence.
    assert (Hin : In (p, p) (alloc_stack_table (astack w))).
    { destruct e as [k v]. simpl in *. now subst. }
    rewrite <- Hpk in Hpe, Hne.
    assert (Hfp : frames_at (pcs_heap (astack w)) p = Some fr).
    { rewrite Hfr0 in Hsame. unfold frames_at in *. subst hp0.
      rewrite lookup_insert_ne in Hsame by congruence. now rewrite Hpk. }
    assert (Hrun : client_add_malloc_pre (astack w) NULL fresh fr
                   = (p, mk_astack
                           (<[p := mk_pcs (frames pe) (refcount pe + 1)]>
                              (delete fresh hp0))
                           (alloc_stack_table (astack w)))).
    { unfold client_add_malloc_pre.
      rewrite Z.eqb_refl. simpl negb. cbv iota.
      unfold packed_callstack_record, hashtable_add. fold hp0.
      rewrite Hlk0. cbv beta iota zeta. rewrite Hlk0. simpl.
      unfold packed_callstack_free. subst hp0.
      rewrite lookup_insert_eq. simpl.
      unfold packed_callstack_add_ref.
      rewrite lookup_delete_ne, lookup_insert_ne by congruence.
      now rewrite Hpe. }
    eexists p, _, _. split; [exact Hrun|]. split; [|split].
    + unfold frames_at. rewrite lookup_insert_eq. simpl.
      unfold frames_at in Hfp. now rewrite Hpe in Hfp.
    + intros q Hq. rewrite lookup_insert_ne by congruence.
      destruct (Z.eq_dec q fresh) as [-> | Hqf].
      * now rewrite lookup_delete_eq.
      * subst hp0. now rewrite lookup_delete_ne, lookup_insert_ne by congruence.
    + right. repeat split; assumption.
  - assert (Hrun : client_add_malloc_pre (astack w) NULL fresh fr
                   = (fresh, mk_astack (<[fresh := mk_pcs fr 2]> hp0)
                               ((fresh, fresh) :: alloc_stack_table (astack w)))).
    { unfold client_add_malloc_pre.
      rewrite Z.eqb_refl. simpl negb. cbv iota.
      unfold packed_callstack_record, hashtable_add. fold hp0.
      rewrite Hlk. simpl. unfold packed_callstack_add_ref. subst hp0.
      now rewrite lookup_insert_eq. }
    eexists fresh, _, _. split; [exact Hrun|]. split; [|split].
    + unfold frames_at. now rewrite lookup_insert_eq.
    + intros q Hq. subst hp0. now rewrite !lookup_insert_ne by congruence.
    + left. split; reflexivity.
Qed.

Lemma client_add_malloc_pre_existing w (d : Z) :
  table_inv w -> In d (records w) ->
  exists pcs,
    pcs_heap (astack w) !! d = Some pcs
    /\ client_add_malloc_pre (astack w) d NULL []
       = (d, mk_astack (<[d := mk_pcs (frames pcs) (refcount pcs + 1)]>
                          (pcs_heap (astack w)))
               (alloc_stack_table (astack w))).
Proof.
  intros Hinv Hd.
  destruct (table_inv_held w d Hinv Hd) as (Hin & Hnn & pcs & Hp & Hr & Hh).
  pose proof Hinv as (Hnull & Hnd & Hent & Hrec).
  exists pcs. split; [assumption|].
  unfold client_add_malloc_pre.
  destruct (Z.eqb_spec d NULL) as [? | _]; [contradiction|]. simpl negb.
  cbv iota. unfold hashtable_add.
  rewrite (hashtable_lookup_held _ _ _ Hnd Hin). simpl.
  rewrite (hashtable_lookup_held _ _ _ Hnd Hin). simpl.
  unfold packed_callstack_add_ref. now rewrite Hp.
Qed.

(** The callstacks are shared and never altered: in every reachable
    state two live records whose callstacks have the same frames hold
    the same callstack; a new record gets a callstack with the frames
    recorded for it; and an event leaves the frames of every callstack
    that stays live as they were. *)
Theorem callstack_shared w :
  reachable w ->
  (forall d1 d2, In d1 (records w) -> In d2 (records w) ->
     frames_at (pcs_heap (astack w)) d1 = frames_at (pcs_heap (astack w)) d2 ->
     d1 = d2)
  /\ (forall fresh fr, event_ok w (EvMalloc fresh fr) ->
        exists d, records (handle_event w (EvMalloc fresh fr)) = d :: records w
                  /\ frames_at (pcs_heap (astack (handle_event w (EvMalloc fresh fr)))) d
                     = Some fr)
  /\ (forall ev p, event_ok w ev ->
        let hp' := pcs_heap (astack (handle_event w ev)) in
        is_Some (pcs_heap (astack w) !! p) ->
        hp' !! p = None \/ frames_at hp' p = frames_at (pcs_heap (astack w)) p).
Proof.
  intros Hreach. pose proof (reachable_inv w Hreach) as Hinv.
  pose proof Hinv as (Hnull & Hnd & Hent & Hrec).
  split; [|split].
  - intros d1 d2 H1 H2 Hf.
    destruct (table_inv_held w d1 Hinv H1) as (Hin1 & _).
    destruct (table_inv_held w d2 Hinv H2) as (Hin2 & _).
    pose proof (map_inj_In _ _ _ _ Hnd Hin1 Hin2 Hf) as Heq.
    now injection Heq.
  - intros fresh fr [Hnn Hfresh].
    destruct (client_add_malloc_pre_new w fresh fr Hinv Hnn Hfresh)
      as (d & hp' & tb' & Hrun & Hf & _).
    exists d. unfold handle_event. rewrite Hrun. simpl. now split.
  - intros ev p Hok hp' [pcs Hp]. subst hp'.
    destruct ev as [fresh fr | d | d]; simpl in Hok.
    + destruct Hok as [Hnn Hfresh].
      destruct (client_add_malloc_pre_new w fresh fr Hinv Hnn Hfresh)
        as (d & hp' & tb' & Hrun & Hf & Hother & Hcase).
      unfold handle_event. rewrite Hrun. simpl. right.
      destruct (Z.eq_dec p d) as [-> | Hne].
      * destruct Hcase as [[-> _] | (_ & _ & Hfd)]; [congruence|].
        now rewrite Hf, Hfd.
      * unfold frames_at. now rewrite Hother.
    + destruct (client_add_malloc_pre_existing w d Hinv Hok) as (pd & Hpd & Hrun).
      unfold handle_event. rewrite Hrun. simpl. right. unfold frames_at.
      destruct (Z.eq_dec p d) as [-> | Hne].
      * now rewrite lookup_insert_eq, Hpd.
      * now rewrite lookup_insert_ne by congruence.
    + destruct (client_malloc_data_free_spec w d Hinv Hok)
        as (pd & hp' & Hpd & Hfree & Hhp').
      unfold handle_event. rewrite Hfree. simpl. unfold frames_at.
      rewrite Hhp'. destruct (Z.eq_dec p d) as [-> | Hne]; [|now right].
      destruct (refcount pd =? 2); [now left|]. right. now rewrite Hpd.
Qed.

Lemma callstack_shared_witness :
  exists d,
    records (handle_event scenario_world (EvMalloc 500 [3])) = d :: records scenario_world
    /\ frames_at (pcs_heap (astack (handle_event scenario_world (EvMalloc 500 [3])))) d
       = Some [3].
Proof.
  apply (callstack_shared scenario_world scenario_world_reachable).
  split; [discriminate | vm_compute; reflexivity].
Defined.

Lemma callstack_table_tight w :
  reachable w ->
  (forall p : Z, is_Some (pcs_heap (astack w) !! p) ->
     In (p, p) (alloc_stack_table (astack w)))
  /\ (forall e, In e (alloc_stack_table (astack w)) -> 1 <= holders w (fst e)).
Proof.
  induction 1 as [|w ev Hreach [IHlive IHheld] Hok].
  - split.
    + intros p [x Hx]. simpl in Hx. rewrite lookup_empty in Hx. discriminate.
    + intros e [].
  - pose proof (reachable_inv w Hreach) as Hinv.
    pose proof Hinv as (Hnull & Hnd & Hent & Hrec).
    destruct ev as [fresh fr | d | d]; simpl in Hok.
    + destruct Hok as [Hnn Hfresh].
      destruct (client_add_malloc_pre_new w fresh fr Hinv Hnn Hfresh)
        as (d & hp' & tb' & Hrun & Hf & Hother & Hcase).
      unfold handle_event. rewrite Hrun. simpl. split.
      * intros p Hp. destruct (Z.eq_dec p d) as [-> | Hne].
        -- destruct Hcase as [[-> ->] | (Hin & -> & _)]; [now left | assumption].
        -- rewrite Hother in Hp by assumption. apply IHlive in Hp.
           destruct Hcase as [[_ ->] | (_ & -> & _)]; [now right | assumption].
      * intros e He. rewrite holders_cons.
        assert (Hcases : e = (d, d) \/ In e (alloc_stack_table (astack w))).
        { destruct Hcase as [[-> ->] | (Hin & -> & _)]; [|now right].
          destruct He as [<- | He]; [now left | now right]. }
        destruct Hcases as [-> | He'].
        -- simpl. destruct (Z.eq_dec d d); [|congruence].
           unfold holders. simpl. lia.
        -- apply IHheld in He'. unfold holders in *. simpl in *.
           destruct (Z.eq_dec d (fst e)); lia.
    + destruct (client_add_malloc_pre_existing w d Hinv Hok) as (pd & Hpd & Hrun).
      unfold handle_event. rewrite Hrun. simpl. split.
      * intros p Hp. apply IHlive. destruct (Z.eq_dec p d) as [-> | Hne].
        -- now exists pd.
        -- now rewrite lookup_insert_ne in Hp by congruence.
      * intros e He. rewrite holders_cons. apply IHheld in He.
        unfold holders in *. simpl in *. destruct (Z.eq_dec d (fst e)); lia.
    + destruct (table_inv_held w d Hinv Hok) as (Hin & Hnn & pcs0 & Hp0 & Hr0 & Hh0).
      destruct (client_malloc_data_free_spec w d Hinv Hok)
        as (pd & hp' & Hpd & Hfree & Hhp').
      assert (pcs0 = pd) as -> by congruence.
      unfold handle_event. rewrite Hfree. simpl.
      destruct (Z.eqb_spec (refcount pd) 2) as [E | E].
      * assert (Hkeys : forall e,
                   In e (table_unlink (pcs_heap (astack w))
                           (alloc_stack_table (astack w)) d) ->
                   In e (alloc_stack_table (astack w)) /\ fst e <> d).
        { intros e He. apply (table_unlink_held _ _ d e Hnd Hin) in He as [He Hne].
          split; [assumption|]. intros Heq. apply Hne.
          rewrite Forall_forall in Hent.
          destruct (Hent e (proj2 (list_elem_of_In _ _) He)) as (Hk & _).
          destruct e as [k p]. simpl in *. congruence. }
        split.
        -- intros p Hp. rewrite Hhp' in Hp.
           destruct (Z.eq_dec p d) as [-> | Hne];
             [destruct Hp; discriminate|].
           apply (table_unlink_held _ _ d _ Hnd Hin). split; [now apply IHlive|].
           congruence.
        -- intros e He. apply Hkeys in He as [He Hne].
           rewrite holders_remove_one. apply IHheld in He.
           destruct (Z.eq_dec (fst e) d); [contradiction|].
           unfold holders in *. simpl in *. lia.
      * split.
        -- intros p Hp. apply IHlive. rewrite Hhp' in Hp.
           destruct (Z.eq_dec p d) as [-> | Hne]; [now exists pd | assumption].
        -- intros e He. rewrite holders_remove_one. apply IHheld in He.
           destruct (Z.eq_dec (fst e) d) as [Heq | Hne].
           ++ rewrite Heq in *. unfold holders in *. simpl in *. lia.
           ++ unfold holders in *. simpl in *. lia.
Qed.

(** No callstack outlives its records: in every reachable state the
    live callstacks are exactly the entries of the table and every
    entry is held by at least one record, so that once the last record
    is gone the table and the heap of callstacks are empty. *)
Theorem callstack_table_no_leak w :
  reachable w ->
  (forall p : Z, is_Some (pcs_heap (astack w) !! p)
                 <-> In (p, p) (alloc_stack_table (astack w)))
  /\ (forall e, In e (alloc_stack_table (astack w)) -> In (fst e) (records w))
  /\ (records w = [] ->
      alloc_stack_table (astack w) = [] /\ pcs_heap (astack w) = ∅).
Proof.
  intros Hreach. destruct (callstack_table_tight w Hreach) as [Hlive Hheld].
  pose proof (reachable_inv w Hreach) as (Hnull & Hnd & Hent & Hrec).
  assert (Hin : forall e, In e (alloc_stack_table (astack w)) ->
                  In (fst e) (records w)).
  { intros e He. apply Hheld in He. unfold holders in He.
    apply (count_occ_In Z.eq_dec). lia. }
  split; [|split; [exact Hin|]].
  - intros p. split; [apply Hlive|]. intros Hp.
    rewrite Forall_forall in Hent.
    destruct (Hent (p, p) (proj2 (list_elem_of_In _ _) Hp)) as (_ & pcs & Hpcs & _).
    now exists pcs.
  - intros Hnil.
    assert (Htb : alloc_stack_table (astack w) = []).
    { destruct (alloc_stack_table (astack w)) as [|e tb]; [reflexivity|].
      specialize (Hin e (or_introl eq_refl)). rewrite Hnil in Hin. destruct Hin. }
    split; [assumption|]. apply map_empty. intros p.
    destruct (pcs_heap (astack w) !! p) as [pcs|] eqn:E; [|reflexivity].
    assert (Hp : In (p, p) (alloc_stack_table (astack w)))
      by (apply Hlive; now exists pcs).
    rewrite Htb in Hp. destruct Hp.
Qed.

Lemma callstack_table_no_leak_witness :
  In (fst (100, 100)) (records scenario_world).
Proof.
  apply (callstack_table_no_leak scenario_world scenario_world_reachable).
  vm_compute. right. left. reflexivity.
Defined.

(** ** More on signals *)

(** One signal, one frame: a handler entry that follows another with
    no signal in between changes nothing, whatever the stack pointers
    are. *)
Theorem at_signal_handler_once st xsp1 xsp2 :
  at_signal_handler (at_signal_handler st xsp1) xsp2
  = at_signal_handler st xsp1.
Proof.
  assert (H : forall st' x, signal_xsp (cpt st') = NULL ->
                            at_signal_handler st' x = st').
  { intros st' x E. unfold at_signal_handler. now rewrite E. }
  destruct (Z.eqb_spec (signal_xsp (cpt st)) NULL) as [E | E].
  - now rewrite !(H st _ E).
  - apply H. unfold at_signal_handler.
    destruct (Z.eqb_spec (signal_xsp (cpt st)) NULL); [contradiction|].
    reflexivity.
Qed.

(** A handler entered on the alternate stack, at [xsp] below its top
    [sigaltstack] and within its size, after a signal that interrupted
    at [X]: unless [X] is below [xsp], everything from [xsp] up to the
    top of the alternate stack becomes DEFINED and that top is recorded
    as [sigframe_top], also when [X] lies on the alternate stack; when
    [X] is below [xsp], [X] is recorded and no tag changes. *)
Theorem at_signal_handler_altstack st X xsp :
  sigaltstack (cpt st) <> NULL ->
  0 <= xsp < sigaltstack (cpt st) ->
  sigaltstack (cpt st) - xsp < sigaltsize (cpt st) ->
  X <> NULL ->
  let T := sigaltstack (cpt st) in
  let st1 := at_signal_handler (event_signal_alloc st X) xsp in
  signal_xsp (cpt st1) = NULL
  /\ sigaltstack (cpt st1) = T
  /\ (xsp <= X ->
      sigframe_top (cpt st1) = T
      /\ (forall a, sig_shadow st1 a
                    = if (xsp <=? a) && (a <? T) then SHADOW_DEFINED
                      else sig_shadow st a))
  /\ (X < xsp ->
      sigframe_top (cpt st1) = X
      /\ forall a, sig_shadow st1 a = sig_shadow st a).
Proof.
  intros Halt Hx Hsz HX T st1. subst T st1.
  unfold at_signal_handler, event_signal_alloc. simpl.
  destruct (Z.eqb_spec X NULL) as [? | _]; [contradiction|].
  destruct (Z.eqb_spec (sigaltstack (cpt st)) NULL) as [? | _]; [contradiction|].
  rewrite Z.gtb_ltb.
  destruct (Z.ltb_spec xsp (sigaltstack (cpt st))) as [_ | ?]; [|lia].
  destruct (Z.ltb_spec (sigaltstack (cpt st) - xsp) (sigaltsize (cpt st)))
    as [_ | ?]; [|lia].
  simpl. rewrite Z.gtb_ltb.
  destruct (Z.ltb_spec X xsp) as [Hlt | Hle].
  - destruct (Z.ltb_spec X (sigaltstack (cpt st))) as [_ | ?]; [|lia].
    simpl. split; [reflexivity|]. split; [reflexivity|]. split; [lia|].
    intros _. split; [reflexivity|].
    intros a. apply shadow_set_range_out. lia.
  - rewrite andb_false_r. simpl.
    split; [reflexivity|]. split; [reflexivity|]. split; [|lia].
    intros _. split; reflexivity.
Qed.

Lemma at_signal_handler_altstack_witness :
  let st := mk_sig all_unaddressable (mk_cpt NULL NULL 0x9000 0x2000 NULL 0) ∅ in
  sigframe_top (cpt (at_signal_handler (event_signal_alloc st 0x8f00) 0x8e00))
  = 0x9000.
Proof.
  apply (at_signal_handler_altstack
           (mk_sig all_unaddressable (mk_cpt NULL NULL 0x9000 0x2000 NULL 0) ∅)
           0x8f00 0x8e00); simpl; try lia; discriminate.
Defined.

(** A failed sigaltstack is rolled back: when the system call returns
    an error, [client_post_syscall] puts back the alternate stack and
    its size that the thread had before [client_pre_syscall], whatever
    the argument held; the tags that the pre-call handler changed are
    not put back. *)
Theorem sigaltstack_failure_rollback options st args xsp result :
  shadow_on options = true ->
  result <> 0 ->
  let st1 := client_pre_syscall options st SYS_sigaltstack args xsp in
  let st2 := client_post_syscall options st1 SYS_sigaltstack result in
  sigaltstack (cpt st2) = sigaltstack (cpt st)
  /\ sigaltsize (cpt st2) = sigaltsize (cpt st)
  /\ signal_xsp (cpt st2) = signal_xsp (cpt st)
  /\ sigframe_top (cpt st2) = sigframe_top (cpt st)
  /\ sighand_table st2 = sighand_table st
  /\ sig_shadow st2 = sig_shadow st1.
Proof.
  intros Hon Hres st1 st2. subst st1 st2.
  unfold shadow_on in Hon. apply andb_true_iff in Hon as [Hl Hs].
  apply negb_true_iff in Hl.
  unfold client_post_syscall, client_pre_syscall. rewrite Hl, Hs. simpl.
  destruct (Z.eqb_spec result 0) as [? | _]; [contradiction|]. simpl.
  destruct (read_stack args) as [stk|]; [|repeat split].
  destruct (ss_flags stk =? SS_DISABLE); repeat split.
Qed.

Lemma sigaltstack_failure_rollback_witness :
  sigaltstack
    (cpt (client_post_syscall (full_options 8 2)
            (client_pre_syscall (full_options 8 2) idle_signal_state
               SYS_sigaltstack
               (mk_sysargs 0 None (Some (mk_stack 0x7000 0 0x2000))) 0xbf00)
            SYS_sigaltstack (-1)))
  = sigaltstack (cpt idle_signal_state).
Proof.
  apply (sigaltstack_failure_rollback (full_options 8 2) idle_signal_state
           (mk_sysargs 0 None (Some (mk_stack 0x7000 0 0x2000))) 0xbf00 (-1)).
  - reflexivity.
  - discriminate.
Defined.

(** The table of signal handlers only grows, and only by real
    handlers: [client_pre_syscall] keeps every registered address,
    never adds SIG_DFL or SIG_IGN, and, with shadowing on, a signal()
    call with any other handler registers it. *)
Theorem sighand_table_grows options st sysnum args xsp :
  let st1 := client_pre_syscall options st sysnum args xsp in
  sighand_table st ⊆ sighand_table st1
  /\ (forall h, h ∈ sighand_table st1 -> h ∉ sighand_table st ->
        h <> SIG_DFL /\ h <> SIG_IGN /\ is_sigaction sysnum = true)
  /\ (shadow_on options = true -> sysnum = SYS_signal ->
      sysarg1 args <> SIG_DFL -> sysarg1 args <> SIG_IGN ->
      sysarg1 args ∈ sighand_table st1).
Proof.
  intros st1. subst st1. unfold client_pre_syscall.
  destruct (leaks_only options || negb (shadowing options)) eqn:Hg.
  { split; [set_solver|]. split; [intros h H1 H2; contradiction|].
    intros Hon. unfold shadow_on in Hon. apply andb_true_iff in Hon as [Hl Hs].
    apply negb_true_iff in Hl. rewrite Hl, Hs in Hg. discriminate. }
  destruct (is_sigaction sysnum) eqn:Hsa.
  - set (handler := match sysnum with
                    | SYS_signal => sysarg1 args
                    | _ => default NULL (read_handler args)
                    end).
    destruct (Z.eqb_spec handler NULL) as [En | En]; simpl.
    { split; [set_solver|]. split; [intros h H1 H2; contradiction|].
      intros _ -> Hd _. subst handler. unfold SIG_DFL, NULL in *. contradiction. }
    destruct (Z.eqb_spec handler SIG_IGN) as [Ei | Ei]; simpl.
    { split; [set_solver|]. split; [intros h H1 H2; contradiction|].
      intros _ -> _ Hi. subst handler. contradiction. }
    destruct (Z.eqb_spec handler SIG_DFL) as [Ed | Ed]; simpl.
    { split; [set_solver|]. split; [intros h H1 H2; contradiction|].
      intros _ -> Hd _. subst handler. contradiction. }
    split; [set_solver|]. split.
    + intros h H1 H2. apply elem_of_union in H1 as [H1 | H1]; [|contradiction].
      apply elem_of_singleton in H1. rewrite H1. now repeat split.
    + intros _ -> _ _. subst handler. set_solver.
  - destruct (is_sigreturn sysnum); simpl.
    { split; [set_solver|]. split; [intros h H1 H2; contradiction|].
      intros _ ->. discriminate. }
    destruct sysnum; try discriminate; simpl;
      try (split; [set_solver|]; split; [intros h H1 H2; contradiction|];
           intros _; discriminate).
    destruct (read_stack args) as [stk|]; [destruct (ss_flags stk =? SS_DISABLE)|];
      simpl; (split; [set_solver|]; split; [intros h H1 H2; contradiction|];
              intros _; discriminate).
Qed.

Lemma sighand_table_grows_witness :
  0x8048000 ∈ sighand_table
                (client_pre_syscall (full_options 8 2) idle_signal_state
                   SYS_signal (mk_sysargs 0x8048000 None None) 0xbf00).
Proof.
  apply (sighand_table_grows (full_options 8 2) idle_signal_state SYS_signal
           (mk_sysargs 0x8048000 None None) 0xbf00);
    [reflexivity | reflexivity | discriminate | discriminate].
Defined.

(** ** More on the exception patterns *)

Section ExceptionFacts.

Variable decode : app_pc -> instr_t * app_pc.
Variable readable : app_pc -> Z -> bool.
Variable app_byte : app_pc -> Z.
Variable is_in_heap_region : app_pc -> bool.
Variable is_in_client_or_DR_lib : app_pc -> bool.
Variable dr_module_preferred_name : app_pc -> option String.string.

Lemma is_alloca_pattern_out write pc next_pc addr sz inst :
  snd (is_alloca_pattern decode readable app_byte write pc next_pc addr sz
         inst false) = false.
Proof.
  unfold is_alloca_pattern.
  repeat match goal with
         | |- context [if ?c then _ else _] => destruct c
         end; reflexivity.
Qed.

Lemma is_strlen_pattern_out write pc next_pc addr sz inst :
  snd (is_strlen_pattern decode readable app_byte write pc next_pc addr sz
         inst false) = false.
Proof.
  unfold is_strlen_pattern.
  repeat match goal with
         | |- context [if ?c then _ else _] => destruct c
         end; reflexivity.
Qed.

Lemma is_strcpy_pattern_out write pc next_pc addr sz inst :
  snd (is_strcpy_pattern decode readable write pc next_pc addr sz inst false)
  = false.
Proof.
  unfold is_strcpy_pattern. destruct (decode next_pc) as [next dpc].
  repeat match goal with
         | |- context [if ?c then _ else _] => destruct c
         end; reflexivity.
Qed.

Lemma is_rawmemchr_pattern_out write pc next_pc addr sz inst :
  snd (is_rawmemchr_pattern decode readable write pc next_pc addr sz inst false)
  = false.
Proof.
  unfold is_rawmemchr_pattern. destruct (decode next_pc) as [next dpc].
  repeat match goal with
         | |- context [if ?c then _ else _] => destruct c
         end; reflexivity.
Qed.

Lemma is_strlen_pattern_aligned write pc next_pc addr sz inst now_addr :
  ALIGNED addr 4 = true ->
  is_strlen_pattern decode readable app_byte write pc next_pc addr sz inst
    now_addr = (false, now_addr).
Proof.
  intros Hal. unfold is_strlen_pattern. rewrite Hal. simpl.
  now destruct (negb _).
Qed.

Lemma is_strcpy_pattern_aligned write pc next_pc addr sz inst now_addr :
  ALIGNED addr 4 = true ->
  is_strcpy_pattern decode readable write pc next_pc addr sz inst now_addr
  = (false, now_addr).
Proof.
  intros Hal. unfold is_strcpy_pattern. rewrite Hal. simpl.
  now destruct (negb _).
Qed.

Lemma rawmemchr_needs_unaligned write pc next_pc addr sz inst now_addr :
  ALIGNED addr 4 = true ->
  is_rawmemchr_pattern decode readable write pc next_pc addr sz inst now_addr
  = (false, now_addr).
Proof.
  intros Hal. unfold is_rawmemchr_pattern.
  destruct (readable next_pc MAX_INSTR_SIZE); [|reflexivity]. simpl.
  destruct (decode next_pc) as [next dpc]. now rewrite Hal.
Qed.

(** No exception ever makes memory addressable: whatever the access,
    [check_unaddressable_exceptions] and [is_ok_unaddressable_pattern]
    return the shadow memory they were given, every pattern leaving
    [now_addressable] false; and an access made in a system call is
    excused by the heap-routine and the loader rule only. *)
Theorem check_unaddressable_exceptions_shadow s in_heap_routine write loc addr sz :
  snd (is_ok_unaddressable_pattern decode readable app_byte s write loc addr sz)
  = s
  /\ snd (check_unaddressable_exceptions decode readable app_byte
            is_in_heap_region is_in_client_or_DR_lib dr_module_preferred_name
            s in_heap_routine write loc addr sz) = s
  /\ (forall sysnum,
        loc = APP_LOC_SYSCALL sysnum ->
        fst (check_unaddressable_exceptions decode readable app_byte
               is_in_heap_region is_in_client_or_DR_lib dr_module_preferred_name
               s in_heap_routine write loc addr sz)
        = (is_in_heap_region addr && (in_heap_routine >? 0))
          || is_loader_exception is_in_client_or_DR_lib
               dr_module_preferred_name loc addr sz).
Proof.
  assert (Hpat : snd (is_ok_unaddressable_pattern decode readable app_byte s
                        write loc addr sz) = s).
  { unfold is_ok_unaddressable_pattern. destruct loc as [pc | n]; [|reflexivity].
    destruct (negb (readable addr 1)); [reflexivity|].
    destruct (negb (readable pc 1)); [reflexivity|].
    destruct (decode pc) as [inst dpc]. cbn [fst snd negb].
    pose proof (is_alloca_pattern_out write pc dpc addr sz inst) as H1.
    destruct (is_alloca_pattern _ _ _ write pc dpc addr sz inst false)
      as [m1 a1]. simpl in H1. subst a1. cbn [fst snd].
    destruct m1; cbn [negb fst snd]; [reflexivity|].
    pose proof (is_strlen_pattern_out write pc dpc addr sz inst) as H2.
    destruct (is_strlen_pattern _ _ _ write pc dpc addr sz inst false)
      as [m2 a2]. simpl in H2. subst a2. cbn [fst snd].
    destruct m2; cbn [negb fst snd]; [reflexivity|].
    pose proof (is_strcpy_pattern_out write pc dpc addr sz inst) as H3.
    destruct (is_strcpy_pattern _ _ write pc dpc addr sz inst false)
      as [m3 a3]. simpl in H3. subst a3. cbn [fst snd].
    destruct m3; cbn [negb fst snd]; [reflexivity|].
    pose proof (is_rawmemchr_pattern_out write pc dpc addr sz inst) as H4.
    destruct (is_rawmemchr_pattern _ _ write pc dpc addr sz inst false)
      as [m4 a4]. simpl in H4. now subst a4. }
  split; [exact Hpat|]. split.
  - unfold check_unaddressable_exceptions.
    destruct (is_in_heap_region addr && _); [reflexivity|].
    destruct (is_loader_exception _ _ loc addr sz); [reflexivity | exact Hpat].
  - intros sysnum ->. unfold check_unaddressable_exceptions.
    destruct (is_in_heap_region addr && _); [reflexivity|].
    destruct (is_loader_exception _ _ _ addr sz); reflexivity.
Qed.

(** At a 4-byte-aligned address the string patterns are out: an access
    at an instruction is excused by [is_ok_unaddressable_pattern]
    exactly when the address and the pc are readable and the
    instruction is a stack probe that [is_alloca_pattern] knows. *)
Theorem is_ok_unaddressable_pattern_aligned s write pc addr sz :
  ALIGNED addr 4 = true ->
  fst (is_ok_unaddressable_pattern decode readable app_byte s write
         (APP_LOC_PC pc) addr sz)
  = readable addr 1 && readable pc 1
    && fst (is_alloca_pattern decode readable app_byte write pc
              (snd (decode pc)) addr sz (fst (decode pc)) false).
Proof.
  intros Hal. unfold is_ok_unaddressable_pattern.
  destruct (readable addr 1); [|reflexivity].
  destruct (readable pc 1); [|reflexivity].
  destruct (decode pc) as [inst dpc]. cbn [fst snd negb andb].
  destruct (is_alloca_pattern _ _ _ write pc dpc addr sz inst false)
    as [m1 a1]. cbn [fst snd].
  destruct m1; cbn [negb fst snd]; [reflexivity|].
  rewrite is_strlen_pattern_aligned by assumption. cbn [negb fst snd].
  rewrite is_strcpy_pattern_aligned by assumption. cbn [negb fst snd].
  rewrite rawmemchr_needs_unaligned by assumption. reflexivity.
Qed.

End ExceptionFacts.

Lemma check_unaddressable_exceptions_shadow_witness :
  check_unaddressable_exceptions decode_probe all_readable (fun _ => 0)
    (fun _ => true) (fun _ => false) (fun _ => None)
    all_unaddressable 1 true (APP_LOC_SYSCALL 3) 0x12ef80 4
  = (true, all_unaddressable).
Proof.
  pose proof (check_unaddressable_exceptions_shadow decode_probe all_readable
                (fun _ => 0) (fun _ => true) (fun _ => false) (fun _ => None)
                all_unaddressable 1 true (APP_LOC_SYSCALL 3) 0x12ef80 4)
    as (_ & Hs & Hf).
  specialize (Hf 3 eq_refl).
  destruct (check_unaddressable_exceptions _ _ _ _ _ _ _ _ _ _ _ _) as [r s'].
  simpl in Hs, Hf. now subst.
Defined.

Lemma is_ok_unaddressable_pattern_aligned_witness :
  fst (is_ok_unaddressable_pattern decode_probe all_readable (fun _ => 0)
         all_unaddressable false (APP_LOC_PC 0x40db67) 0x12ef80 4)
  = true.
Proof.
  rewrite (is_ok_unaddressable_pattern_aligned decode_probe all_readable
             (fun _ => 0) all_unaddressable false 0x40db67 0x12ef80 4);
    reflexivity.
Defined.

(** ** Kernel-placed stack data (Windows) *)

Lemma shadow_tag_eqb_eq a b : shadow_tag_eqb a b = true <-> a = b.
Proof. destruct a, b; simpl; split; congruence. Qed.

Lemma cbret_loop_spec n :
  forall s sp a,
    cbret_loop n s sp a
    = if (sp <=? a) && (a <? sp + Z.of_nat n) then SHADOW_UNADDRESSABLE
      else s a.
Proof.
  induction n as [|n IH]; intros s sp a.
  - simpl. zcases; simpl; try reflexivity; lia.
  - cbn [cbret_loop]. rewrite IH. unfold shadow_set_byte.
    zcases; simpl; try reflexivity; lia.
Qed.

Lemma Ki_loop_spec T esp stop fuel :
  forall s sp,
    esp <= sp ->
    T - (sp - esp) <= Z.of_nat fuel ->
    Nat.le 1 fuel ->
    exists s' sp',
      Ki_loop T fuel s esp sp stop = Some (s', sp')
      /\ sp <= sp'
      /\ (sp' = sp \/ sp' <= Z.max (sp + 1) (esp + T))
      /\ (forall a, s' a = if (sp <=? a) && (a <? sp') then SHADOW_DEFINED
                           else s a)
      /\ (stop = NULL ->
          forall a, sp <= a < sp' -> s a = SHADOW_UNADDRESSABLE)
      /\ (stop <> NULL -> stop - esp < T -> sp <= stop -> sp' = stop).
Proof.
  induction fuel as [|fuel IH]; intros s sp Hsp Hfuel Hpos; [inversion Hpos|].
  cbn [Ki_loop].
  destruct ((negb (stop =? NULL) && (sp <? stop))
            || ((stop =? NULL)
                && shadow_tag_eqb (shadow_get_byte s sp) SHADOW_UNADDRESSABLE))
    eqn:Hcond.
  - cbv zeta.
    assert (Hbyte : stop = NULL -> s sp = SHADOW_UNADDRESSABLE).
    { intros ->. rewrite Z.eqb_refl in Hcond. simpl in Hcond.
      now apply shadow_tag_eqb_eq in Hcond. }
    assert (Hlt : stop <> NULL -> sp < stop).
    { intros Hne. apply Z.eqb_neq in Hne. rewrite Hne in Hcond. simpl in Hcond.
      rewrite orb_false_r in Hcond. now apply Z.ltb_lt in Hcond. }
    rewrite Z.geb_leb.
    destruct (Z.leb_spec T (sp + 1 - esp)) as [Habort | Hgo].
    + exists (shadow_set_byte s sp SHADOW_DEFINED), (sp + 1).
      split; [reflexivity|]. split; [lia|]. split; [right; lia|]. split.
      * intros a. unfold shadow_set_byte. zcases; simpl; try reflexivity; lia.
      * split.
        -- intros Hn a Ha. replace a with sp by lia. auto.
        -- intros Hne Hst _. specialize (Hlt Hne). lia.
    + destruct (IH (shadow_set_byte s sp SHADOW_DEFINED) (sp + 1))
        as (s' & sp' & Hrun & Hle & Hbound & Hs' & Hnull & Hstop);
        [lia | lia | lia |].
      exists s', sp'. split; [exact Hrun|]. split; [lia|].
      split; [right; lia|]. split.
      * intros a. rewrite Hs'. unfold shadow_set_byte.
        zcases; simpl; try reflexivity; lia.
      * split.
        -- intros Hn a Ha. destruct (Z.eq_dec a sp) as [-> | Hne]; [auto|].
           specialize (Hnull Hn a ltac:(lia)). unfold shadow_set_byte in Hnull.
           destruct (Z.eqb_spec a sp); [contradiction | assumption].
        -- intros Hne Hst _. specialize (Hlt Hne). apply Hstop; auto; lia.
  - exists s, sp. split; [reflexivity|]. split; [lia|]. split; [now left|].
    split.
    + intros a. zcases; simpl; try reflexivity; lia.
    + split; [intros _ a Ha; lia|].
      intros Hne _ Hle. apply Z.eqb_neq in Hne. rewrite Hne in Hcond.
      simpl in Hcond. rewrite orb_false_r in Hcond. apply Z.ltb_ge in Hcond. lia.
Qed.

(** What [client_handle_Ki] marks, shadowing on and enough fuel for at
    most [TYPICAL_STACK_MIN_SIZE] turns, at least one: the loop ends
    with [pre_callback_esp] no more than that many bytes above the
    stack pointer, exactly the bytes in between become DEFINED, on the
    thread's main stack these reach to its base, and elsewhere they
    are the unaddressable bytes found there.  A callback return at the
    same stack pointer then makes the same bytes unaddressable, which
    off the main stack puts every tag back. *)
Theorem client_handle_Ki_cbret T fuel options s pre mc_esp base_esp :
  shadow_on options = true ->
  0 <= mc_esp ->
  Nat.le (Z.to_nat (Z.max 1 T)) fuel ->
  exists s' sp,
    client_handle_Ki T fuel options s pre mc_esp base_esp = Some (s', sp)
    /\ mc_esp <= sp <= mc_esp + Z.max 1 T
    /\ (forall a, s' a = if (mc_esp <=? a) && (a <? sp) then SHADOW_DEFINED
                         else s a)
    /\ (mc_esp < base_esp -> base_esp - mc_esp < T -> sp = base_esp)
    /\ (forall a, client_handle_cbret options s' sp mc_esp a
                  = if (mc_esp <=? a) && (a <? sp) then SHADOW_UNADDRESSABLE
                    else s a)
    /\ (~ (mc_esp < base_esp /\ base_esp - mc_esp < T) ->
        forall a, client_handle_cbret options s' sp mc_esp a = s a).
Proof.
  intros Hon Hesp Hfuel.
  unfold shadow_on in Hon. apply andb_true_iff in Hon as [Hl Hsh].
  apply negb_true_iff in Hl.
  unfold client_handle_Ki, client_handle_cbret. rewrite Hl, Hsh. cbn [orb negb].
  set (stop := if (mc_esp <? base_esp) && (base_esp - mc_esp <? T)
               then base_esp else NULL).
  destruct (Ki_loop_spec T mc_esp stop fuel s mc_esp)
    as (s' & sp & Hrun & Hle & Hbound & Hs' & Hnull & Hstop); [lia | lia | lia |].
  exists s', sp. split; [exact Hrun|].
  assert (Hcb : forall a,
             cbret_loop (Z.to_nat (sp - mc_esp)) s' mc_esp a
             = if (mc_esp <=? a) && (a <? sp) then SHADOW_UNADDRESSABLE
               else s a).
  { intros a. rewrite cbret_loop_spec, Hs'.
    rewrite Z2Nat.id by lia. replace (mc_esp + (sp - mc_esp)) with sp by lia.
    now destruct ((mc_esp <=? a) && (a <? sp)). }
  split; [lia|]. split; [exact Hs'|]. split; [|split; [exact Hcb|]].
  - intros H1 H2.
    assert (Hst : stop = base_esp).
    { subst stop. destruct (Z.ltb_spec mc_esp base_esp); [|lia].
      destruct (Z.ltb_spec (base_esp - mc_esp) T); [reflexivity | lia]. }
    rewrite <- Hst. apply Hstop; rewrite Hst; unfold NULL; lia.
  - intros Hoff a. rewrite Hcb.
    assert (Hst : stop = NULL).
    { subst stop. destruct (Z.ltb_spec mc_esp base_esp); [|reflexivity].
      destruct (Z.ltb_spec (base_esp - mc_esp) T); [|reflexivity]. lia. }
    destruct ((mc_esp <=? a) && (a <? sp)) eqn:E; [|reflexivity].
    symmetry. apply (Hnull Hst).
    apply andb_true_iff in E as [E1 E2].
    apply Z.leb_le in E1. apply Z.ltb_lt in E2. lia.
Qed.

Lemma client_handle_Ki_cbret_witness :
  exists s' sp,
    client_handle_Ki 0x1000 0x1000 (full_options 8 2) all_unaddressable NULL
      0x12f000 0x12f040 = Some (s', sp)
    /\ sp = 0x12f040.
Proof.
  destruct (client_handle_Ki_cbret 0x1000 0x1000 (full_options 8 2)
              all_unaddressable NULL 0x12f000 0x12f040)
    as (s' & sp & H1 & _ & _ & H4 & _); [reflexivity | lia | lia |].
  exists s', sp. split; [exact H1 | apply H4; lia].
Defined.
